(** * xmlquery: the node tree, the token-driven tree builder and the
      stream filter, embedded in Rocq.

    The Go code works on a mutable graph of [*Node] values.  The embedding
    keeps that graph as an arena: a [heap] is a list of nodes, a pointer is
    an index into it ([None] is Go's [nil]), and every field write of the Go
    code is an update of one cell.  A nil dereference (a Go panic) makes the
    modelled operation return [None]. *)

From Stdlib Require Import ZArith Ascii String.
From stdpp Require Import base option list gmap strings sorting.

Local Open Scope Z_scope.

(** ** Node model (node.go) *)

Inductive NodeType :=
  | DocumentNode
  | DeclarationNode
  | ElementNode
  | TextNode
  | CharDataNode
  | CommentNode
  | AttributeNode
  | NotationNode
  | ProcessingInstruction.

Global Instance NodeType_eq_dec : EqDecision NodeType.
Proof. solve_decision. Defined.

(** [xml.Name] of encoding/xml. *)
Record Name := mkName { Space : string; Local : string }.

(** [xml.Attr]: an attribute as the tokenizer reports it. *)
Record xmlAttr := mkXmlAttr { xName : Name; xValue : string }.

(** [Attr]: an attribute as stored in a node. *)
Record Attr := mkAttr { AName : Name; AValue : string; ANamespaceURI : string }.

Record ProcInstData := mkProcInst { Target : string; Inst : string }.

(** A pointer to a node; [None] is [nil]. *)
Abbreviation ptr := (option nat).

Record Node := mkNode {
  Parent : ptr;
  FirstChild : ptr;
  LastChild : ptr;
  PrevSibling : ptr;
  NextSibling : ptr;
  NType : NodeType;
  Data : string;
  Prefix : string;
  NamespaceURI : string;
  Attrs : list Attr;
  ProcInst : option ProcInstData;
  level : Z
}.

(** [&Node{Type: t, Data: d, ...}]: every link is nil. *)
Definition newNode (t : NodeType) (d : string) (ns : string)
    (attrs : list Attr) (lvl : Z) : Node :=
  mkNode None None None None None t d ""%string ns attrs None lvl.

Definition setParent (v : ptr) (n : Node) : Node :=
  mkNode v (FirstChild n) (LastChild n) (PrevSibling n) (NextSibling n)
         (NType n) (Data n) (Prefix n) (NamespaceURI n) (Attrs n) (ProcInst n) (level n).
Definition setFirstChild (v : ptr) (n : Node) : Node :=
  mkNode (Parent n) v (LastChild n) (PrevSibling n) (NextSibling n)
         (NType n) (Data n) (Prefix n) (NamespaceURI n) (Attrs n) (ProcInst n) (level n).
Definition setLastChild (v : ptr) (n : Node) : Node :=
  mkNode (Parent n) (FirstChild n) v (PrevSibling n) (NextSibling n)
         (NType n) (Data n) (Prefix n) (NamespaceURI n) (Attrs n) (ProcInst n) (level n).
Definition setPrevSibling (v : ptr) (n : Node) : Node :=
  mkNode (Parent n) (FirstChild n) (LastChild n) v (NextSibling n)
         (NType n) (Data n) (Prefix n) (NamespaceURI n) (Attrs n) (ProcInst n) (level n).
Definition setNextSibling (v : ptr) (n : Node) : Node :=
  mkNode (Parent n) (FirstChild n) (LastChild n) (PrevSibling n) v
         (NType n) (Data n) (Prefix n) (NamespaceURI n) (Attrs n) (ProcInst n) (level n).
Definition setPrefix (v : string) (n : Node) : Node :=
  mkNode (Parent n) (FirstChild n) (LastChild n) (PrevSibling n) (NextSibling n)
         (NType n) (Data n) v (NamespaceURI n) (Attrs n) (ProcInst n) (level n).

(** The arena.  Node [a] lives in cell [a]; allocation appends a cell. *)
Abbreviation heap := (list Node).

Definition alloc (h : heap) (n : Node) : heap * nat := (h ++ [n], length h).

(** [x.F = v] through a non-nil pointer [a]. *)
Definition upd (h : heap) (a : nat) (f : Node -> Node) : option heap :=
  nd ← h !! a; Some (<[a := f nd]> h).

(** [addChild(parent, n)]. *)
Definition addChild (h : heap) (parent n : nat) : option heap :=
  h1 ← upd h n (setParent (Some parent));
  pn ← h1 !! parent;
  h2 ← match FirstChild pn with
       | None => upd h1 parent (setFirstChild (Some n))
       | Some _ =>
           l ← LastChild pn;
           h' ← upd h1 l (setNextSibling (Some n));
           upd h' n (setPrevSibling (Some l))
       end;
  upd h2 parent (setLastChild (Some n)).

(** The loop of [addSibling]: follow [NextSibling] to the end of the chain.
    The fuel bounds the walk; a chain without a cycle has fewer nodes than
    the arena has cells. *)
Fixpoint lastSibling (fuel : nat) (h : heap) (s : nat) : option nat :=
  match fuel with
  | O => None
  | S f =>
      nd ← h !! s;
      match NextSibling nd with
      | None => Some s
      | Some t => lastSibling f h t
      end
  end.

(** [addSibling(sibling, n)]. *)
Definition addSibling (h : heap) (sibling n : nat) : option heap :=
  s ← lastSibling (length h) h sibling;
  sn ← h !! s;
  h1 ← upd h n (setParent (Parent sn));
  h2 ← upd h1 s (setNextSibling (Some n));
  h3 ← upd h2 n (setPrevSibling (Some s));
  s3 ← h3 !! s;
  match Parent s3 with
  | None => Some h3
  | Some p => upd h3 p (setLastChild (Some n))
  end.

(** [remove(n)], exported as [RemoveFromTree] in later revisions: the
    four-way case split on first/last child, then the three links of [n]
    are cleared. *)
Definition remove (h : heap) (n : nat) : option heap :=
  nd ← h !! n;
  match Parent nd with
  | None => Some h
  | Some p =>
      pn ← h !! p;
      h1 ← (if decide (FirstChild pn = Some n) then
              if decide (LastChild pn = Some n) then
                h' ← upd h p (setFirstChild None);
                upd h' p (setLastChild None)
              else
                h' ← upd h p (setFirstChild (NextSibling nd));
                nx ← NextSibling nd;
                upd h' nx (setPrevSibling None)
            else
              if decide (LastChild pn = Some n) then
                h' ← upd h p (setLastChild (PrevSibling nd));
                pv ← PrevSibling nd;
                upd h' pv (setNextSibling None)
              else
                pv ← PrevSibling nd;
                h' ← upd h pv (setNextSibling (NextSibling nd));
                nd' ← h' !! n;
                nx ← NextSibling nd';
                upd h' nx (setPrevSibling (PrevSibling nd')));
      h2 ← upd h1 n (setParent None);
      h3 ← upd h2 n (setPrevSibling None);
      upd h3 n (setNextSibling None)
  end.

(** ** Strings and bytes of the Go standard library

    The parser uses a handful of functions of [strings] and [bytes].  They
    are written out here on Rocq strings, whose characters are bytes. *)

(** [strings.HasPrefix(s, prefix)]. *)
Definition HasPrefix (s pre : string) : bool := String.prefix pre s.

Definition upperByte (c : ascii) : ascii :=
  let n := nat_of_ascii c in
  if (97 <=? n)%nat && (n <=? 122)%nat then ascii_of_nat (n - 32) else c.

(** [bytes.ToUpper] on ASCII letters; every other byte is kept.  (Go maps
    whole runes; no rune outside ASCII maps to a byte of the CDATA marker,
    so the prefix tests of the parser see no difference.) *)
Fixpoint ToUpper (s : string) : string :=
  match s with
  | EmptyString => EmptyString
  | String c r => String (upperByte c) (ToUpper r)
  end.

(** [s[:n]], clipped to the length of [s]. *)
Fixpoint takeBytes (n : nat) (s : string) : string :=
  match n, s with
  | S k, String c r => String c (takeBytes k r)
  | _, _ => EmptyString
  end.

(** [s[n:]], clipped to the length of [s]. *)
Fixpoint dropBytes (n : nat) (s : string) : string :=
  match n, s with
  | S k, String _ r => dropBytes k r
  | _, _ => s
  end.

(** [strings.IndexByte(s, c)] as an option: [None] is Go's [-1]. *)
Fixpoint IndexByte (c : ascii) (s : string) : option nat :=
  match s with
  | EmptyString => None
  | String d r => if Ascii.eqb c d then Some O else S <$> IndexByte c r
  end.

(** [strings.Split(s, sep)] for a one-byte separator. *)
Fixpoint Split (sep : ascii) (s : string) : list string :=
  match s with
  | EmptyString => [EmptyString]
  | String c r =>
      if Ascii.eqb c sep then EmptyString :: Split sep r
      else match Split sep r with
           | [] => [String c EmptyString]
           | w :: ws => String c w :: ws
           end
  end.

Fixpoint inCutset (c : ascii) (cutset : string) : bool :=
  match cutset with
  | EmptyString => false
  | String d r => Ascii.eqb c d || inCutset c r
  end.

Fixpoint TrimLeft (s cutset : string) : string :=
  match s with
  | EmptyString => EmptyString
  | String c r => if inCutset c cutset then TrimLeft r cutset else s
  end.

Fixpoint revString (s acc : string) : string :=
  match s with
  | EmptyString => acc
  | String c r => revString r (String c acc)
  end.

Definition TrimRight (s cutset : string) : string :=
  revString (TrimLeft (revString s EmptyString) cutset) EmptyString.

(** [strings.Trim(s, cutset)]. *)
Definition Trim (s cutset : string) : string := TrimRight (TrimLeft s cutset) cutset.

(** The ASCII white space of [strings.TrimSpace]: tab, newline, vertical
    tab, form feed, carriage return, space. *)
Definition asciiSpace : string :=
  String "009" (String "010" (String "011" (String "012" (String "013" (String " " EmptyString))))).

Definition TrimSpace (s : string) : string := Trim s asciiSpace.

(** ** The tokenizer and the byte lookahead cache

    [encoding/xml]'s decoder is an external collaborator.  An input is
    represented by what the decoder reports on it: the tokens in order,
    each with the raw bytes the cached reader recorded while that token was
    fetched (between [StartCaching] and [StopCaching]), and the error that
    ends the stream ([io.EOF] on a complete input). *)

Inductive Token :=
  | StartElement (name : Name) (attr : list xmlAttr)
  | EndElement (name : Name)
  | CharData (data : string)
  | Comment (data : string)
  | ProcInstToken (target : string) (inst : string)
  | Directive (data : string).

Inductive error :=
  | EOF
  | TokenError (msg : string)
  | ErrNamespaceMissing (space : string)
  | ErrInvalidDocument
  | ErrContentType (contentType : string)
  | ErrTransport (msg : string)
  | ErrCompile (msg : string).

Global Instance error_eq_dec : EqDecision error.
Proof. solve_decision. Defined.

(** The text of each error value, as the code formats it. *)
Definition errorString (e : error) : string :=
  match e with
  | EOF => "EOF"
  | TokenError m => m
  | ErrNamespaceMissing sp =>
      "xmlquery: invalid XML document, namespace " ++ sp ++ " is missing"
  | ErrInvalidDocument => "xmlquery: invalid XML document"
  | ErrContentType ct => "invalid XML document(" ++ ct ++ ")"
  | ErrTransport m => m
  | ErrCompile m => m
  end%string.

Record Decoder := mkDecoder {
  Strict : bool;
  pending : list (Token * string);
  final : error
}.

(** Modelled from the spec: [CacheWithLimit] of the cached reader is not
    among the sources; per the spec's "get-cache", it returns the bytes
    captured since the last start, here cut to at most [n] of them (the
    parser only asks for a positive [n]). *)
Definition CacheWithLimit (cache : string) (n : nat) : string := takeBytes n cache.

(** ** The query evaluator

    A compiled path expression is consumed through [QuerySelector] only:
    given the arena and the node to start from it yields the first match or
    nil. *)
Definition Expr := heap -> nat -> ptr.

Definition QuerySelector (h : heap) (top : nat) (selector : Expr) : ptr := selector h top.

(** ** The tree-building parser (parse.go) *)

Record xmlnsPrefix := mkPrefix { ns_name : string; ns_level : Z }.

Record parser := mkParser {
  decoder : Decoder;
  doc : nat;
  p_level : Z;
  prev : ptr;
  streamElementXPath : option Expr;
  streamElementFilter : option Expr;
  streamNode : ptr;
  streamNodePrev : ptr;
  reader : string;
  once : bool;
  space2prefix : gmap string xmlnsPrefix;
  mem : heap
}.

Definition setDecoder (d : Decoder) (p : parser) : parser :=
  mkParser d (doc p) (p_level p) (prev p) (streamElementXPath p) (streamElementFilter p)
           (streamNode p) (streamNodePrev p) (reader p) (once p) (space2prefix p) (mem p).
Definition setLevel (l : Z) (p : parser) : parser :=
  mkParser (decoder p) (doc p) l (prev p) (streamElementXPath p) (streamElementFilter p)
           (streamNode p) (streamNodePrev p) (reader p) (once p) (space2prefix p) (mem p).
Definition setPrev (v : ptr) (p : parser) : parser :=
  mkParser (decoder p) (doc p) (p_level p) v (streamElementXPath p) (streamElementFilter p)
           (streamNode p) (streamNodePrev p) (reader p) (once p) (space2prefix p) (mem p).
Definition setStreamExprs (x f : option Expr) (p : parser) : parser :=
  mkParser (decoder p) (doc p) (p_level p) (prev p) x f
           (streamNode p) (streamNodePrev p) (reader p) (once p) (space2prefix p) (mem p).
Definition setStream (n np : ptr) (p : parser) : parser :=
  mkParser (decoder p) (doc p) (p_level p) (prev p) (streamElementXPath p) (streamElementFilter p)
           n np (reader p) (once p) (space2prefix p) (mem p).
Definition setReader (c : string) (p : parser) : parser :=
  mkParser (decoder p) (doc p) (p_level p) (prev p) (streamElementXPath p) (streamElementFilter p)
           (streamNode p) (streamNodePrev p) c (once p) (space2prefix p) (mem p).
Definition setSpaces (o : bool) (m : gmap string xmlnsPrefix) (p : parser) : parser :=
  mkParser (decoder p) (doc p) (p_level p) (prev p) (streamElementXPath p) (streamElementFilter p)
           (streamNode p) (streamNodePrev p) (reader p) o m (mem p).
Definition setMem (h : heap) (p : parser) : parser :=
  mkParser (decoder p) (doc p) (p_level p) (prev p) (streamElementXPath p) (streamElementFilter p)
           (streamNode p) (streamNodePrev p) (reader p) (once p) (space2prefix p) h.

(** [createParser(r)]: a fresh document node in cell 0, the cursor on it,
    a strict decoder ([xml.NewDecoder] sets [Strict] to true). *)
Definition createParser (toks : list (Token * string)) (fin : error) : parser :=
  mkParser (mkDecoder true toks fin) 0%nat 0 (Some 0%nat) None None None None
           ""%string false ∅ [newNode DocumentNode "" "" [] 0].

(** The body of [p.once.Do]: the XML namespace is bound to "xml" at level 0. *)
Definition onceDo (p : parser) : parser :=
  if once p then p
  else setSpaces true
         {[ "http://www.w3.org/XML/1998/namespace"%string := mkPrefix "xml" 0 ]} p.

(** [addAttr(n, key, val)]: the key is split at its first colon when the
    colon is not the first byte. *)
Definition addAttr (n : Node) (key val : string) : Node :=
  let attr :=
    match IndexByte ":" key with
    | Some (S i) => mkAttr (mkName (takeBytes (S i) key) (dropBytes (S (S i)) key)) val ""
    | _ => mkAttr (mkName "" key) val ""
    end in
  mkNode (Parent n) (FirstChild n) (LastChild n) (PrevSibling n) (NextSibling n)
         (NType n) (Data n) (Prefix n) (NamespaceURI n) (Attrs n ++ [attr]) (ProcInst n) (level n).

(** The loop [for i := p.prev.level - p.level; i > 1; i-- { p.prev = p.prev.Parent }],
    given the number of its iterations. *)
Fixpoint walkUp (i : nat) (h : heap) (pv : ptr) : option ptr :=
  match i with
  | O => Some pv
  | S k => a ← pv; nd ← h !! a; walkUp k h (Parent nd)
  end.

(** The depth-relative attach rule that every node-creating token runs:
    sibling of the cursor at equal depth, child of the cursor when deeper,
    and otherwise sibling of the parent of the cursor walked up. *)
Definition attachNode (p : parser) (n : nat) : option parser :=
  pv ← prev p;
  pvn ← mem p !! pv;
  if decide (p_level p = level pvn) then
    h ← addSibling (mem p) pv n; Some (setMem h p)
  else if decide (p_level p > level pvn) then
    h ← addChild (mem p) pv n; Some (setMem h p)
  else
    pv' ← walkUp (Z.to_nat (level pvn - p_level p - 1)) (mem p) (prev p);
    a ← pv'; an ← mem p !! a; s ← Parent an;
    h ← addSibling (mem p) s n;
    Some (setMem h (setPrev pv' p)).

(** What one token does to the parser inside the loop of [parse]. *)
Inductive step_result :=
  | Continue (p : parser) (counter : Z)
  | Return (n : nat) (p : parser)
  | Fail (e : error) (p : parser)
  | Crash.

(** [if p.level == 0 { ... }]: the declaration of a document that has none. *)
Definition synthDecl (p : parser) : option parser :=
  if decide (p_level p = 0) then
    let '(h, node) :=
      alloc (mem p) (newNode DeclarationNode "xml" "" [mkAttr (mkName "" "version") "1.0" ""] 1) in
    pv ← prev p;
    h' ← addChild h pv node;
    Some (setPrev (Some node) (setLevel 1 (setMem h' p)))
  else Some p.

(** One round of [for _, att := range tok.Attr]. *)
Definition bindAttr (lvl : Z) (m : gmap string xmlnsPrefix) (att : xmlAttr)
    : gmap string xmlnsPrefix :=
  if decide (Local (xName att) = "xmlns"%string) then
    match m !! xValue att with
    | None => <[xValue att := mkPrefix "" lvl]> m
    | Some prefix =>
        if decide (ns_level prefix >= lvl) then <[xValue att := mkPrefix "" lvl]> m else m
    end
  else if decide (Space (xName att) = "xmlns"%string) then
    <[xValue att := mkPrefix (Local (xName att)) lvl]> m
  else m.

Definition bindAttrs (lvl : Z) (m : gmap string xmlnsPrefix) (attr : list xmlAttr)
    : gmap string xmlnsPrefix :=
  foldl (bindAttr lvl) m attr.

(** The second loop over [tok.Attr]: the namespace of each attribute name is
    replaced by its bound prefix. *)
Definition resolveAttr (m : gmap string xmlnsPrefix) (att : xmlAttr) : Attr :=
  let name :=
    match m !! Space (xName att) with
    | Some prefix => mkName (ns_name prefix) (Local (xName att))
    | None => xName att
    end in
  mkAttr name (xValue att) (Space (xName att)).

(** [if node.NamespaceURI != "" { ... node.Prefix = v.name }]. *)
Definition rederivePrefix (p : parser) (node : nat) : option parser :=
  nd ← mem p !! node;
  if decide (NamespaceURI nd = ""%string) then Some p
  else
    match space2prefix p !! NamespaceURI nd with
    | None => Some p
    | Some v =>
        let cached :=
          CacheWithLimit (reader p) (String.length (ns_name v) + String.length (Data nd) + 2) in
        if HasPrefix cached (ns_name v ++ ":" ++ Data nd)%string
           || HasPrefix cached ("<" ++ ns_name v ++ ":" ++ Data nd)%string
        then h ← upd (mem p) node (setPrefix (ns_name v)); Some (setMem h p)
        else Some p
    end.

(** [if p.streamElementXPath != nil { ... }] at a start tag. *)
Definition markStream (p : parser) (node : nat) (counter : Z) : parser * Z :=
  match streamElementXPath p with
  | None => (p, counter)
  | Some x =>
      match streamNode p with
      | None =>
          match QuerySelector (mem p) (doc p) x with
          | Some _ => (setStream (Some node) (prev p) p, 1)
          | None => (p, counter)
          end
      | Some _ => (p, counter + 1)
      end
  end.

Definition startElement (p0 : parser) (name : Name) (attr : list xmlAttr) (counter : Z)
    : step_result :=
  match synthDecl p0 with
  | None => Crash
  | Some p1 =>
      let m := bindAttrs (p_level p1) (space2prefix p1) attr in
      let p2 := setSpaces (once p1) m p1 in
      if bool_decide (Space name ≠ ""%string) && bool_decide (m !! Space name = None)
         && Strict (decoder p2)
      then Fail (ErrNamespaceMissing (Space name)) p2
      else
        let attributes := map (resolveAttr m) attr in
        let '(h, node) :=
          alloc (mem p2) (newNode ElementNode (Local name) (Space name) attributes (p_level p2)) in
        match attachNode (setMem h p2) node with
        | None => Crash
        | Some p3 =>
            match rederivePrefix p3 node with
            | None => Crash
            | Some p4 =>
                let '(p5, c) := markStream p4 node counter in
                Continue (setLevel (p_level p5 + 1) (setPrev (Some node) p5)) c
            end
        end
  end.

(** [case xml.EndElement]: the depth drops; with a candidate open, its
    counter drops too and at zero the candidate is yielded or rejected. *)
Definition endElement (p0 : parser) (counter : Z) : step_result :=
  let p := setLevel (p_level p0 - 1) p0 in
  match streamNode p with
  | None => Continue p counter
  | Some sn =>
      let c := counter - 1 in
      if decide (c = 0) then
        if match streamElementFilter p with
           | None => true
           | Some f => bool_decide (QuerySelector (mem p) (doc p) f ≠ None)
           end
        then Return sn p
        else
          match remove (mem p) sn with
          | None => Crash
          | Some h => Continue (setStream None None (setPrev (streamNodePrev p) (setMem h p))) c
          end
      else Continue p c
  end.

(** The two literal forms of the CDATA opening marker that the parser looks
    for: whole, and without the [<] that the decoder may already have read
    as the lookahead of the previous token. *)
Definition cdataMarker : string := "<![CDATA[".
Definition cdataMarkerTail : string := "![CDATA[".

(** [case xml.CharData]: the node type is decided from the first 9 cached
    bytes, upper-cased. *)
Definition charDataType (cache : string) : NodeType :=
  let cached := ToUpper (CacheWithLimit cache 9) in
  if HasPrefix cached cdataMarker || HasPrefix cached cdataMarkerTail
  then CharDataNode else TextNode.

(** A node without children of its own is created at the current depth and
    attached; the cursor keeps its depth. *)
Definition addLeaf (p : parser) (t : NodeType) (data : string) (counter : Z) : step_result :=
  let '(h, node) := alloc (mem p) (newNode t data "" [] (p_level p)) in
  match attachNode (setMem h p) node with
  | None => Crash
  | Some p' => Continue p' counter
  end.

(** The cutset of [strings.Trim] in the pair loop: both quote characters. *)
Definition quoteChars : string := String "034" (String "039" EmptyString).

(** One round of [for _, pair := range pairs] of a processing instruction. *)
Definition addPair (n : Node) (pair : string) : Node :=
  let pair := TrimSpace pair in
  match IndexByte "=" pair with
  | Some (S i) => addAttr n (takeBytes (S i) pair) (Trim (dropBytes (S (S i)) pair) quoteChars)
  | _ => n
  end.

Definition isDeclOrProcInst (t : NodeType) : bool :=
  bool_decide (t = DeclarationNode) || bool_decide (t = ProcessingInstruction).

(** [case xml.ProcInst]. *)
Definition procInst (p0 : parser) (target inst : string) (counter : Z) : step_result :=
  match prev p0 ≫= (mem p0 !!.) with
  | None => Crash
  | Some pvn =>
      let p := if isDeclOrProcInst (NType pvn) then p0 else setLevel (p_level p0 + 1) p0 in
      let node0 := newNode DeclarationNode target "" [] (p_level p) in
      let node1 := foldl addPair node0 (Split " " inst) in
      let node2 :=
        if decide (target = "xml"%string) then node1
        else mkNode (Parent node1) (FirstChild node1) (LastChild node1) (PrevSibling node1)
               (NextSibling node1) ProcessingInstruction (Data node1) (Prefix node1)
               (NamespaceURI node1) (Attrs node1)
               (Some (mkProcInst target (TrimSpace inst))) (level node1) in
      let '(h, node) := alloc (mem p) node2 in
      match attachNode (setMem h p) node with
      | None => Crash
      | Some p' => Continue (setPrev (Some node) p') counter
      end
  end.

(** The [switch tok := tok.(type)] of [parse]. *)
Definition step (tok : Token) (p : parser) (counter : Z) : step_result :=
  match tok with
  | StartElement name attr => startElement p name attr counter
  | EndElement _ => endElement p counter
  | CharData data => addLeaf p (charDataType (reader p)) data counter
  | Comment data => addLeaf p CommentNode data counter
  | ProcInstToken target inst => procInst p target inst counter
  | Directive data => addLeaf p NotationNode data counter
  end.

(** What a call returns: a value, an error, or a panic of the Go runtime. *)
Inductive result (A : Type) :=
  | Ok (a : A)
  | Err (e : error)
  | Panic.
Arguments Ok {A} a.
Arguments Err {A} e.
Arguments Panic {A}.

(** The [for { ... }] of [parse]: a token is fetched with caching on, the
    cache is left for the step to inspect, and the loop ends on the first
    error of the decoder or when a step returns. *)
Fixpoint parseLoop (toks : list (Token * string)) (p : parser) (counter : Z)
    : result nat * parser :=
  match toks with
  | [] => (Err (final (decoder p)), p)
  | (tok, cache) :: rest =>
      let p1 := setReader cache
                  (setDecoder (mkDecoder (Strict (decoder p)) rest (final (decoder p))) p) in
      match step tok p1 counter with
      | Continue p' c' => parseLoop rest p' c'
      | Return n p' => (Ok n, p')
      | Fail e p' => (Err e, p')
      | Crash => (Panic, p1)
      end
  end.

(** [p.parse()]; the candidate counter is a local variable and starts at 0. *)
Definition parse (p : parser) : result nat * parser :=
  let p := onceDo p in
  parseLoop (pending (decoder p)) p 0.

(** ** Full-document parsing *)

(** Modelled from the spec: the options type and its [apply] are not among
    the sources; per the spec's configuration surface and the options test,
    applying options copies the decoder settings, of which the tree builder
    itself reads [Strict] only (the other settings change what the decoder
    reports, which the token stream already reflects). *)
Record DecoderOptions := mkDecoderOptions { optStrict : bool }.
Record ParserOptions := mkOptions {
  optDecoder : option DecoderOptions;
  WithLineNumbers : bool
}.

Definition applyOptions (options : ParserOptions) (p : parser) : parser :=
  match optDecoder options with
  | None => p
  | Some d =>
      setDecoder (mkDecoder (optStrict d) (pending (decoder p)) (final (decoder p))) p
  end.

(** [for err == nil { _, err = p.parse() }]: the first error ends the loop.
    Every call of [parse] that returns a node has used up a token, so one
    more round than there are tokens is always enough. *)
Fixpoint parseAll (fuel : nat) (p : parser) : result error * parser :=
  match fuel with
  | O => (Panic, p)
  | S f =>
      match parse p with
      | (Ok _, p') => parseAll f p'
      | (Err e, p') => (Ok e, p')
      | (Panic, p') => (Panic, p')
      end
  end.

(** The inner loop of the validity check: is there an element among a node
    and its following siblings?  [None] when the walk leaves the arena or
    does not end. *)
Fixpoint hasElementFrom (fuel : nat) (h : heap) (n : ptr) : option bool :=
  match n with
  | None => Some false
  | Some a =>
      match fuel with
      | O => None
      | S f =>
          nd ← h !! a;
          if decide (NType nd = ElementNode) then Some true
          else hasElementFrom f h (NextSibling nd)
      end
  end.

(** The outer loop: the document node and every following sibling of it. *)
Fixpoint validFrom (fuel : nat) (h : heap) (d : ptr) : option bool :=
  match d with
  | None => Some false
  | Some a =>
      match fuel with
      | O => None
      | S f =>
          nd ← h !! a;
          b ← hasElementFrom (length h) h (FirstChild nd);
          b' ← validFrom f h (NextSibling nd);
          Some (b || b')
      end
  end.

(** [ParseWithOptions(r, options)].  Line-number annotation only writes the
    [LineNumber] field of nodes, which this model leaves out, and never
    fails; so [WithLineNumbers] does not change the outcome. *)
Definition ParseWithOptions (toks : list (Token * string)) (fin : error)
    (options : ParserOptions) : result (nat * heap) :=
  let p := applyOptions options (createParser toks fin) in
  match parseAll (S (length toks)) p with
  | (Ok EOF, p') =>
      match validFrom (length (mem p')) (mem p') (Some (doc p')) with
      | None => Panic
      | Some true => Ok (doc p', mem p')
      | Some false => Err ErrInvalidDocument
      end
  | (Ok e, _) => Err e
  | (Err e, _) => Err e
  | (Panic, _) => Panic
  end.

(** [Parse(r)]. *)
Definition Parse (toks : list (Token * string)) (fin : error) : result (nat * heap) :=
  ParseWithOptions toks fin (mkOptions None false).

(** ** Streaming *)

Record StreamParser := mkStreamParser { sp_p : parser }.

(** [CreateStreamParserWithOptions] once both expressions are compiled. *)
Definition newStreamParser (toks : list (Token * string)) (fin : error)
    (options : ParserOptions) (elemXPath : Expr) (elemFilter : option Expr) : StreamParser :=
  mkStreamParser
    (setStreamExprs (Some elemXPath) elemFilter (applyOptions options (createParser toks fin))).

(** [for sp.p.streamNode.PrevSibling != nil { RemoveFromTree(...) }]. *)
Fixpoint removePrevSiblings (fuel : nat) (h : heap) (sn : nat) : option heap :=
  match fuel with
  | O => None
  | S f =>
      nd ← h !! sn;
      match PrevSibling nd with
      | None => Some h
      | Some pv => h' ← remove h pv; removePrevSiblings f h' sn
      end
  end.

(** The clean-up that [Read] runs before parsing on when the previous call
    yielded a node. *)
Definition releaseYielded (p : parser) (sn : nat) : option parser :=
  h1 ← removePrevSiblings (S (length (mem p))) (mem p) sn;
  nd ← h1 !! sn;
  h2 ← remove h1 sn;
  Some (setStream None None (setPrev (Parent nd) (setMem h2 p))).

(** [sp.Read()]. *)
Definition Read (sp : StreamParser) : result nat * StreamParser :=
  match streamNode (sp_p sp) with
  | None => let '(r, p') := parse (sp_p sp) in (r, mkStreamParser p')
  | Some sn =>
      match releaseYielded (sp_p sp) sn with
      | None => (Panic, sp)
      | Some p1 => let '(r, p') := parse p1 in (r, mkStreamParser p')
      end
  end.

(** ** Serialization (outputXML of node.go)

    [xml.EscapeText] on the bytes it rewrites in ASCII text. *)
Fixpoint EscapeText (s : string) : string :=
  match s with
  | EmptyString => EmptyString
  | String c r =>
      let rest := EscapeText r in
      if Ascii.eqb c "034" then "&#34;" ++ rest
      else if Ascii.eqb c "039" then "&#39;" ++ rest
      else if Ascii.eqb c "&" then "&amp;" ++ rest
      else if Ascii.eqb c "<" then "&lt;" ++ rest
      else if Ascii.eqb c ">" then "&gt;" ++ rest
      else if Ascii.eqb c "009" then "&#x9;" ++ rest
      else if Ascii.eqb c "010" then "&#xA;" ++ rest
      else if Ascii.eqb c "013" then "&#xD;" ++ rest
      else String c rest
  end%string.

Definition sanitizedData (n : Node) (preserveSpaces : bool) : string :=
  if preserveSpaces then Trim (Data n) (String "010" (String "009" EmptyString))
  else TrimSpace (Data n).

(** Modelled from the spec: [SelectAttr] is not among the sources; it
    returns the value of the attribute with the given qualified name, or
    the empty string. *)
Definition SelectAttr (n : Node) (space local : string) : string :=
  match List.find (fun a => bool_decide (Local (AName a) = local)
                            && bool_decide (Space (AName a) = space)) (Attrs n) with
  | Some a => AValue a
  | None => ""%string
  end.

Definition calculatePreserveSpaces (n : Node) (pastValue : bool) : bool :=
  let attr := SelectAttr n "xml" "space" in
  if decide (attr = "preserve"%string) then true
  else if decide (attr = "default"%string) then false
  else pastValue.

Definition outputAttr (a : Attr) : string :=
  ((if decide (Space (AName a) = "") then " " ++ Local (AName a) ++ "="
    else " " ++ Space (AName a) ++ ":" ++ Local (AName a) ++ "=")
   ++ String "034" (EscapeText (AValue a)) ++ String "034" EmptyString)%string.

Definition qualifiedName (n : Node) : string :=
  (if decide (Prefix n = "") then Data n else Prefix n ++ ":" ++ Data n)%string.

(** [outputXML(buf, n, preserveSpaces)], and with [siblings] set the loop
    [for child := ...; child != nil; child = child.NextSibling] that calls
    it on a node and all that follow it. *)
Fixpoint outputXML (fuel : nat) (h : heap) (c : ptr) (preserveSpaces siblings : bool)
    : option string :=
  match c with
  | None => Some EmptyString
  | Some a =>
      match fuel with
      | O => None
      | S f =>
          nd ← h !! a;
          let ps := calculatePreserveSpaces nd preserveSpaces in
          self ←
            match NType nd with
            | TextNode | CharDataNode => Some (EscapeText (sanitizedData nd ps))
            | CommentNode => Some ("<!--" ++ Data nd ++ "-->")%string
            | t =>
                kids ← outputXML f h (FirstChild nd) ps true;
                Some ((if decide (t = DeclarationNode) then "<?" ++ Data nd
                       else "<" ++ qualifiedName nd)
                      ++ String.concat "" (map outputAttr (Attrs nd))
                      ++ (if decide (t = DeclarationNode) then "?>" else ">")
                      ++ kids
                      ++ (if decide (t = DeclarationNode) then ""
                          else "</" ++ qualifiedName nd ++ ">"))%string
            end;
          if siblings then
            rest ← outputXML f h (NextSibling nd) preserveSpaces true;
            Some (self ++ rest)%string
          else Some self
      end
  end.

(** [n.OutputXML(self)]. *)
Definition OutputXML (h : heap) (n : nat) (self : bool) : option string :=
  if self then outputXML (S (length h)) h (Some n) false false
  else nd ← h !! n; outputXML (S (length h)) h (FirstChild nd) false true.

(** ** The path expressions of the streaming examples

    Modelled from the spec: the evaluator is an external collaborator.  The
    two expressions of the yield/prune and rejection examples are written
    directly as searches of the arena: "/AAA/BBB" selects the first element
    BBB that is a child of an element AAA child of the start node, and
    "/AAA/BBB[. != 'b1']" only those whose text is not b1. *)
Fixpoint findSibling (fuel : nat) (h : heap) (c : ptr) (ok : nat -> Node -> bool) : ptr :=
  match c, fuel with
  | Some a, S f =>
      match h !! a with
      | Some nd => if ok a nd then Some a else findSibling f h (NextSibling nd) ok
      | None => None
      end
  | _, _ => None
  end.

Definition findChild (h : heap) (n : nat) (ok : nat -> Node -> bool) : ptr :=
  nd ← h !! n; findSibling (length h) h (FirstChild nd) ok.

Definition isElementNamed (name : string) (nd : Node) : bool :=
  bool_decide (NType nd = ElementNode) && bool_decide (Data nd = name).

(** [InnerText] of a node whose children are text nodes only. *)
Fixpoint textFrom (fuel : nat) (h : heap) (c : ptr) : string :=
  match c, fuel with
  | Some a, S f =>
      match h !! a with
      | Some nd =>
          ((if bool_decide (NType nd = TextNode) || bool_decide (NType nd = CharDataNode)
            then Data nd else "") ++ textFrom f h (NextSibling nd))%string
      | None => EmptyString
      end
  | _, _ => EmptyString
  end.

Definition xpath_AAA_BBB_where (cond : heap -> Node -> bool) : Expr := fun h top =>
  a ← findChild h top (fun _ nd =>
         isElementNamed "AAA" nd
         && bool_decide (findSibling (length h) h (FirstChild nd)
                           (fun _ b => isElementNamed "BBB" b && cond h b) ≠ None));
  an ← h !! a;
  findSibling (length h) h (FirstChild an) (fun _ b => isElementNamed "BBB" b && cond h b).

Definition xpath_AAA_BBB : Expr := xpath_AAA_BBB_where (fun _ _ => true).

Definition xpath_AAA_BBB_not_b1 : Expr :=
  xpath_AAA_BBB_where (fun h b =>
    negb (bool_decide (textFrom (length h) h (FirstChild b) = "b1"%string))).

(** The token streams of the example documents, with the bytes each token
    fetch reads: a start tag is read up to its [>]; character data is read
    up to and including the [<] that ends it, which the decoder keeps as
    lookahead, so the following tag is cached without its [<]. *)
Definition start (local : string) : Token := StartElement (mkName "" local) [].
Definition stop (local : string) : Token := EndElement (mkName "" local).

Definition doc_AAA_BBB : list (Token * string) :=
  [ (start "AAA", "<AAA>"); (start "BBB", "<BBB>"); (CharData "b1", "b1<");
    (stop "BBB", "/BBB>"); (start "BBB", "<BBB>"); (CharData "b2", "b2<");
    (stop "BBB", "/BBB>"); (stop "AAA", "</AAA>") ]%string.

Definition doc_cdata : list (Token * string) :=
  [ (start "a", "<a>"); (CharData "x", "<![CDATA[x]]>"); (stop "a", "</a>") ]%string.

Definition doc_text : list (Token * string) :=
  [ (start "a", "<a>"); (CharData "x", "x<"); (stop "a", "/a>") ]%string.

(** ** The content-type gate of LoadURL

    [xmlMIMERegex] is a regular expression; it is kept as a syntax tree and
    run by a matcher on derivatives.  Go's [regexp] reads its input rune by
    rune, decoding UTF-8, and under the flag [(?i)] folds letter case as
    Unicode does.  [regexp.MatchString] reports whether some part of the
    input matches. *)

(** A Unicode code point, Go's [rune]. *)
Definition rune := Z.

Definition RuneError : rune := 65533.

Definition byteZ (c : ascii) : Z := Z.of_nat (nat_of_ascii c).

(** [utf8.DecodeRuneInString(s)] of the Go library: the first rune of [s]
    and its width in bytes.  A byte that starts no valid encoding is the
    rune [RuneError] of width 1.  The second byte of an encoding is bound
    by the first ([acceptRanges]): E0 is followed by A0..BF, ED by 80..9F,
    F0 by 90..BF, F4 by 80..8F, any other by 80..BF. *)
Definition DecodeRuneInString (s : list ascii) : rune * nat :=
  match s with
  | [] => (RuneError, 0%nat)
  | c0 :: t =>
      let s0 := byteZ c0 in
      if s0 <? 128 then (s0, 1%nat)
      else if (s0 <? 194) || (244 <? s0) then (RuneError, 1%nat)
      else
        let sz := if s0 <? 224 then 2 else if s0 <? 240 then 3 else 4 in
        let lo := if s0 =? 224 then 160 else if s0 =? 240 then 144 else 128 in
        let hi := if s0 =? 237 then 159 else if s0 =? 244 then 143 else 191 in
        if Z.of_nat (length s) <? sz then (RuneError, 1%nat)
        else
          match t with
          | c1 :: c2 :: c3 :: _ =>
              let s1 := byteZ c1 in let s2 := byteZ c2 in let s3 := byteZ c3 in
              if (s1 <? lo) || (hi <? s1) then (RuneError, 1%nat)
              else if sz <=? 2 then
                (Z.lor (Z.shiftl (Z.land s0 31) 6) (Z.land s1 63), 2%nat)
              else if (s2 <? 128) || (191 <? s2) then (RuneError, 1%nat)
              else if sz <=? 3 then
                (Z.lor (Z.lor (Z.shiftl (Z.land s0 15) 12) (Z.shiftl (Z.land s1 63) 6))
                       (Z.land s2 63), 3%nat)
              else if (s3 <? 128) || (191 <? s3) then (RuneError, 1%nat)
              else
                (Z.lor (Z.lor (Z.lor (Z.shiftl (Z.land s0 7) 18)
                                     (Z.shiftl (Z.land s1 63) 12))
                              (Z.shiftl (Z.land s2 63) 6))
                       (Z.land s3 63), 4%nat)
          | c1 :: c2 :: [] =>
              let s1 := byteZ c1 in let s2 := byteZ c2 in
              if (s1 <? lo) || (hi <? s1) then (RuneError, 1%nat)
              else if sz <=? 2 then
                (Z.lor (Z.shiftl (Z.land s0 31) 6) (Z.land s1 63), 2%nat)
              else if (s2 <? 128) || (191 <? s2) then (RuneError, 1%nat)
              else
                (Z.lor (Z.lor (Z.shiftl (Z.land s0 15) 12) (Z.shiftl (Z.land s1 63) 6))
                       (Z.land s2 63), 3%nat)
          | c1 :: [] =>
              let s1 := byteZ c1 in
              if (s1 <? lo) || (hi <? s1) then (RuneError, 1%nat)
              else (Z.lor (Z.shiftl (Z.land s0 31) 6) (Z.land s1 63), 2%nat)
          | [] => (RuneError, 1%nat)
          end
  end.

(** The runes of a string as the matcher steps through it; the fuel bounds
    the number of steps, and every step takes at least one byte. *)
Fixpoint runesFrom (fuel : nat) (s : list ascii) : list rune :=
  match fuel, s with
  | S f, _ :: _ =>
      let '(r, w) := DecodeRuneInString s in r :: runesFrom f (drop w s)
  | _, _ => []
  end.

Definition runes (s : string) : list rune :=
  runesFrom (String.length s) (list_ascii_of_string s).

Inductive regex :=
  | Empty
  | Eps
  | Sym (ok : rune -> bool)
  | Cat (r1 r2 : regex)
  | Alt (r1 r2 : regex)
  | Star (r : regex).

Definition Opt (r : regex) : regex := Alt r Eps.
Definition Plus (r : regex) : regex := Cat r (Star r).

(** [unicode.SimpleFold(r)] on the runes that fold to or from an ASCII
    rune: the next rune of the same letter, round in a circle.  K and S
    have three forms each, with the Kelvin sign U+212A and the long s
    U+017F; the other letters have two; a rune that is no letter is kept.
    (The runes of the expression are ASCII, so no other rune is asked
    for.) *)
Definition SimpleFold (r : rune) : rune :=
  if r =? 75 then 107 else if r =? 107 then 8490 else if r =? 8490 then 75
  else if r =? 83 then 115 else if r =? 115 then 383 else if r =? 383 then 83
  else if (65 <=? r) && (r <=? 90) then r + 32
  else if (97 <=? r) && (r <=? 122) then r - 32
  else r.

(** [for r1 := unicode.SimpleFold(r0); r1 != r0; r1 = unicode.SimpleFold(r1)
    { if r == r1 { return true } }]; the circle of a rune has at most three
    members, so the fuel 3 of [matchRune] lets the loop end by itself. *)
Fixpoint foldLoop (fuel : nat) (r0 r1 r : rune) : bool :=
  match fuel with
  | O => false
  | S f =>
      if r1 =? r0 then false
      else if r =? r1 then true
      else foldLoop f r0 (SimpleFold r1) r
  end.

(** Does the rune [r] match the literal rune [r0] under [(?i)]? *)
Definition matchRune (r0 r : rune) : bool :=
  (r =? r0) || foldLoop 3 r0 (SimpleFold r0) r.

(** A literal byte under the flag [(?i)]. *)
Definition ichar (c : ascii) : regex := Sym (matchRune (byteZ c)).

(** A literal string under the flag [(?i)]. *)
Fixpoint ilit (s : string) : regex :=
  match s with
  | EmptyString => Eps
  | String c r => Cat (ichar c) (ilit r)
  end.

(** The class [\w] as written: digits, letters and the underscore. *)
Definition perlWord (r : rune) : bool :=
  (48 <=? r) && (r <=? 57) || (65 <=? r) && (r <=? 90)
  || (97 <=? r) && (r <=? 122) || (r =? 95).

(** The class [\w] under [(?i)]: the parser closes a class under case
    folding, so a rune is in it when a rune of its circle is. *)
Definition wordRune (r : rune) : bool :=
  perlWord r || perlWord (SimpleFold r) || perlWord (SimpleFold (SimpleFold r)).

(** [(?i)((application|image|message|model)/((\w|\.|-)+\+?)?|text/)(wb)?xml] *)
Definition xmlMIMERegex : regex :=
  Cat (Alt (Cat (Alt (ilit "application")
                  (Alt (ilit "image") (Alt (ilit "message") (ilit "model"))))
             (Cat (ichar "/")
                  (Opt (Cat (Plus (Alt (Sym wordRune) (Alt (ichar ".") (ichar "-"))))
                            (Opt (ichar "+"))))))
           (ilit "text/"))
      (Cat (Opt (ilit "wb")) (ilit "xml")).

Fixpoint nullable (r : regex) : bool :=
  match r with
  | Empty => false
  | Eps => true
  | Sym _ => false
  | Cat r1 r2 => nullable r1 && nullable r2
  | Alt r1 r2 => nullable r1 || nullable r2
  | Star _ => true
  end.

Fixpoint deriv (c : rune) (r : regex) : regex :=
  match r with
  | Empty => Empty
  | Eps => Empty
  | Sym ok => if ok c then Eps else Empty
  | Cat r1 r2 =>
      if nullable r1 then Alt (Cat (deriv c r1) r2) (deriv c r2)
      else Cat (deriv c r1) r2
  | Alt r1 r2 => Alt (deriv c r1) (deriv c r2)
  | Star r1 => Cat (deriv c r1) (Star r1)
  end.

(** Does some prefix of [s] match [r]? *)
Fixpoint matchPrefix (r : regex) (s : list rune) : bool :=
  nullable r ||
  match s with
  | [] => false
  | c :: s' => matchPrefix (deriv c r) s'
  end.

(** Does some part of [s] match [r]? *)
Fixpoint matchAnywhere (r : regex) (s : list rune) : bool :=
  matchPrefix r s ||
  match s with
  | [] => false
  | _ :: s' => matchAnywhere r s'
  end.

(** [re.MatchString(s)]. *)
Definition MatchString (r : regex) (s : string) : bool :=
  matchAnywhere r (runes s).

(** What [http.Get] hands to [LoadURL]: a transport error, or a response
    with its Content-Type header and its body (as the decoder will report
    it). *)
Record Response := mkResponse {
  contentType : string;
  body : list (Token * string);
  bodyEnd : error
}.

(** [LoadURL(url)], given the outcome of [http.Get(url)]. *)
Definition LoadURL (got : error + Response) : result (nat * heap) :=
  match got with
  | inl err => Err err
  | inr resp =>
      if MatchString xmlMIMERegex (contentType resp)
      then Parse (body resp) (bodyEnd resp)
      else Err (ErrContentType (contentType resp))
  end.

(** ** The selector cache (cache.go)

    The compiler of path expressions and [groupcache/lru] are external.
    The compiler is a parameter; the LRU cache is a list of entries, most
    recently used first, bounded by [MaxEntries]. *)
Section SelectorCache.
Context {CompileOptions CompiledExpr : Type}.
(** [xpath.CompileWithOptions]. *)
Variable CompileWithOptions : string -> CompileOptions -> error + CompiledExpr.
(** [fmt.Sprintf("%#v", opts)]. *)
Variable formatOptions : CompileOptions -> string.

Record lruCache := mkLru {
  MaxEntries : Z;
  entries : list (string * CompiledExpr)
}.

Definition dropKey (key : string) (l : list (string * CompiledExpr))
    : list (string * CompiledExpr) :=
  filter (fun e => e.1 ≠ key) l.

Definition lookupKey (key : string) (l : list (string * CompiledExpr))
    : option CompiledExpr :=
  snd <$> List.find (fun e => bool_decide (e.1 = key)) l.

(** [c.Get(key)]: a hit moves the entry to the front. *)
Definition lruGet (c : lruCache) (key : string) : option CompiledExpr * lruCache :=
  match lookupKey key (entries c) with
  | Some v => (Some v, mkLru (MaxEntries c) ((key, v) :: dropKey key (entries c)))
  | None => (None, c)
  end.

(** [c.Add(key, value)]: the entry goes to the front; when the cache is
    over its bound the oldest entry is dropped. *)
Definition lruAdd (c : lruCache) (key : string) (v : CompiledExpr) : lruCache :=
  match lookupKey key (entries c) with
  | Some _ => mkLru (MaxEntries c) ((key, v) :: dropKey key (entries c))
  | None =>
      let l := (key, v) :: entries c in
      if decide (MaxEntries c ≠ 0 ∧ Z.of_nat (length l) > MaxEntries c)
      then mkLru (MaxEntries c) (removelast l)
      else mkLru (MaxEntries c) l
  end.

(** The package-level variables: the two settings, and the cache, which
    is nil until [cacheOnce] has run. *)
Record globals := mkGlobals {
  DisableSelectorCache : bool;
  SelectorCacheMaxEntries : Z;
  cache : option lruCache
}.

(** [getQuery(expr, opts)]. *)
Definition getQuery (g : globals) (expr : string) (opts : CompileOptions)
    : (error + CompiledExpr) * globals :=
  let key := (expr ++ formatOptions opts)%string in
  if DisableSelectorCache g || bool_decide (SelectorCacheMaxEntries g <= 0) then
    (CompileWithOptions expr opts, g)
  else
    let c := match cache g with
             | Some c => c
             | None => mkLru (SelectorCacheMaxEntries g) []
             end in
    match lruGet c key with
    | (Some v, c') =>
        (inr v, mkGlobals (DisableSelectorCache g) (SelectorCacheMaxEntries g) (Some c'))
    | (None, c') =>
        match CompileWithOptions expr opts with
        | inl err =>
            (inl err, mkGlobals (DisableSelectorCache g) (SelectorCacheMaxEntries g) (Some c'))
        | inr v =>
            (inr v, mkGlobals (DisableSelectorCache g) (SelectorCacheMaxEntries g)
                      (Some (lruAdd c' key v)))
        end
    end.
End SelectorCache.

(** ** Vocabulary of the statements

    [sibs h par pv cs nx]: the nodes [cs] are linked in this order as
    siblings under [par]; the first has [pv] as previous sibling and the
    last has [nx] as next sibling. *)
Definition headOr (l : list nat) (d : ptr) : ptr :=
  match l with [] => d | x :: _ => Some x end.

Definition lastOr (l : list nat) (d : ptr) : ptr :=
  match last l with Some x => Some x | None => d end.

Fixpoint sibs (h : heap) (par pv : ptr) (cs : list nat) (nx : ptr) : Prop :=
  match cs with
  | [] => True
  | c :: cs' =>
      ∃ nd, h !! c = Some nd ∧ Parent nd = par ∧ PrevSibling nd = pv
            ∧ NextSibling nd = headOr cs' nx ∧ sibs h par (Some c) cs' nx
  end.

(** [children_of h p cs]: the child list of [p] is exactly [cs], with all
    six kinds of link consistent (what [verifyNodePointers] of the tests
    checks around one parent). *)
Record children_of (h : heap) (p : nat) (cs : list nat) : Prop := mkChildren {
  co_first : ∃ pn, h !! p = Some pn ∧ FirstChild pn = head cs ∧ LastChild pn = last cs;
  co_sibs : sibs h (Some p) None cs None;
  co_nodup : NoDup cs;
  co_self : p ∉ cs
}.

(** The three links that [remove] clears. *)
Definition detached (nd : Node) : Node :=
  setNextSibling None (setPrevSibling None (setParent None nd)).

(** Two nodes that differ in their links at most. *)
Definition samePayload (a b : Node) : Prop :=
  NType a = NType b ∧ Data a = Data b ∧ Prefix a = Prefix b
  ∧ NamespaceURI a = NamespaceURI b ∧ Attrs a = Attrs b
  ∧ ProcInst a = ProcInst b ∧ level a = level b.

(** The arena after [n], a child of [p] with neighbours [q] and [m] (either
    may be nil), has been spliced out: the four cases of [remove] in one
    formula. *)
Definition spliceOut (h : heap) (p n : nat) (q m : ptr) : heap :=
  let h1 := alter (fun pn =>
              setLastChild (match m with None => q | Some _ => LastChild pn end)
                (setFirstChild (match q with None => m | Some _ => FirstChild pn end) pn)) p h in
  let h2 := match q with Some a => alter (setNextSibling m) a h1 | None => h1 end in
  let h3 := match m with Some a => alter (setPrevSibling q) a h2 | None => h2 end in
  alter detached n h3.

(** A small arena for the detach statement: a document with three children,
    the middle one with a child of its own. *)
Definition detach_example : heap :=
  [ mkNode None (Some 1%nat) (Some 3%nat) None None DocumentNode "" "" "" [] None 0;
    mkNode (Some 0%nat) None None None (Some 2%nat) CommentNode "c" "" "" [] None 1;
    mkNode (Some 0%nat) (Some 4%nat) (Some 4%nat) (Some 1%nat) (Some 3%nat)
           ElementNode "a" "" "" [] None 1;
    mkNode (Some 0%nat) None None (Some 2%nat) None CommentNode "d" "" "" [] None 1;
    mkNode (Some 2%nat) None None None None TextNode "t" "" "" [] None 2 ].

(** The stream parser of the yield/prune example. *)
Definition stream_AAA_BBB : StreamParser :=
  newStreamParser doc_AAA_BBB EOF (mkOptions None false) xpath_AAA_BBB None.

(** The same document with a line break before each BBB. *)
Definition doc_AAA_noise : list (Token * string) :=
  [ (start "AAA", "<AAA>"); (CharData (String "010" EmptyString), String "010" "<");
    (start "BBB", "BBB>"); (CharData "b1", "b1<"); (stop "BBB", "/BBB>");
    (CharData (String "010" EmptyString), String "010" "<");
    (start "BBB", "BBB>"); (CharData "b2", "b2<"); (stop "BBB", "/BBB>");
    (stop "AAA", "</AAA>") ]%string.

(** The serialized declaration that the parser synthesizes. *)
Definition xmlDecl : string :=
  ("<?xml version=" ++ String "034" "1.0" ++ String "034" "?>")%string.

(** The stream parser of the rejection example, on the document with line
    breaks: target "/AAA/BBB", filter "/AAA/BBB[. != 'b1']". *)
Definition stream_reject_b1 : StreamParser :=
  newStreamParser doc_AAA_noise EOF (mkOptions None false)
    xpath_AAA_BBB (Some xpath_AAA_BBB_not_b1).

(** The parser of that example stopped right before the end tag of the
    first BBB: the first four tokens have been consumed. *)
Definition before_reject : parser :=
  (parse (sp_p (newStreamParser (take 4 doc_AAA_noise) EOF (mkOptions None false)
                  xpath_AAA_BBB (Some xpath_AAA_BBB_not_b1)))).2.

(** [payloadKept h h']: same cells, and each node differs from what it was
    in its links at most. *)
Definition payloadKept (h h' : heap) : Prop :=
  length h' = length h
  ∧ ∀ a x, h !! a = Some x → ∃ x', h' !! a = Some x' ∧ samePayload x x'.

(** A function on nodes that writes links only. *)
Definition linkEdit (f : Node -> Node) : Prop := ∀ x, samePayload x (f x).

(** [sameLetter c d]: the bytes [c] and [d] are the same byte, or one is
    the capital and the other the small form of one of the 26 letters of
    ASCII ([k] counts from A). *)
Definition sameLetter (c d : ascii) : Prop :=
  c = d
  ∨ ∃ k, (k < 26)%nat
      ∧ ((nat_of_ascii c = 65 + k ∧ nat_of_ascii d = 97 + k)
         ∨ (nat_of_ascii c = 97 + k ∧ nat_of_ascii d = 65 + k))%nat.

(** [spells m marker]: [m] is [marker] byte for byte, letter case aside. *)
Inductive spells : string -> string -> Prop :=
  | spells_nil : spells EmptyString EmptyString
  | spells_cons c d m marker :
      sameLetter c d -> spells m marker -> spells (String c m) (String d marker).

(** [beginsWith cache marker]: the bytes of [cache] begin with [marker],
    letter case aside. *)
Definition beginsWith (cache marker : string) : Prop :=
  ∃ m rest, cache = (m ++ rest)%string ∧ spells m marker.

(** No small letter occurs in [s]. *)
Definition noSmallLetter (s : string) : Prop :=
  Forall (λ c, ¬ (97 ≤ nat_of_ascii c ≤ 122)%nat) (list_ascii_of_string s).

(** <a>![CDATA[hello</a>: plain text that begins like a CDATA section
    without its [<].  The bytes cached for the text are the text and the
    [<] that ends it. *)
Definition doc_bang : list (Token * string) :=
  [ (start "a", "<a>"); (CharData "![CDATA[hello", "![CDATA[hello<");
    (stop "a", "/a>") ]%string.

(** <a>![cDaTa[x</a>, and the parser at its text. *)
Definition doc_small : list (Token * string) :=
  [ (start "a", "<a>"); (CharData "![cDaTa[x", "![cDaTa[x<"); (stop "a", "/a>") ]%string.

Definition at_small : parser :=
  setReader "![cDaTa[x<" (parse (createParser (take 1 doc_small) EOF)).2.

Definition after_small : parser :=
  match step (CharData "![cDaTa[x") at_small 0 with
  | Continue p' _ => p'
  | _ => at_small
  end.

(** A default-namespace declaration [xmlns="uri"]. *)
Definition xmlnsDefault (uri : string) : xmlAttr := mkXmlAttr (mkName "" "xmlns") uri.

(** The table of the test of issue 67 inside [bk:books]: the URI is bound
    to the prefix bk at depth 1. *)
Definition books_table : gmap string xmlnsPrefix :=
  {[ "urn:loc.gov:books"%string := mkPrefix "bk" 1 ]}.

(** The document of the missing-namespace test, cut to one child:
    [<root><myns:child id="1">value 1</myns:child></root>].  The prefix
    myns is bound nowhere, so the decoder leaves it as the name space of
    the element. *)
Definition doc_missing_ns : list (Token * string) :=
  [ (start "root", "<root>");
    (StartElement (mkName "myns" "child") [mkXmlAttr (mkName "" "id") "1"],
     "<myns:child id=" ++ String "034" "1" ++ String "034" ">");
    (CharData "value 1", "value 1<");
    (EndElement (mkName "myns" "child"), "/myns:child>");
    (stop "root", "</root>") ]%string.

Definition tolerant : ParserOptions := mkOptions (Some (mkDecoderOptions false)) false.

(** The entries the selector cache holds; none before the cache exists. *)
Definition cacheEntries {CompiledExpr : Type} (g : @globals CompiledExpr)
    : list (string * CompiledExpr) :=
  match cache g with
  | Some c => entries c
  | None => []
  end.

(** The states of the package-level variables that a program can reach: it
    starts with no cache, may assign the two settings at will, and calls
    [getQuery]. *)
Inductive reachable {CompileOptions CompiledExpr : Type}
    (compile : string -> CompileOptions -> error + CompiledExpr)
    (format : CompileOptions -> string) : @globals CompiledExpr -> Prop :=
  | reach_init disable bound : reachable compile format (mkGlobals disable bound None)
  | reach_assign g disable bound :
      reachable compile format g →
      reachable compile format (mkGlobals disable bound (cache g))
  | reach_query g expr opts :
      reachable compile format g →
      reachable compile format (getQuery compile format g expr opts).2.

(** A toy compiler for the witness: the text "[" does not compile, any
    other text compiles to itself; there is one value of options. *)
Definition toyFormat (_ : unit) : string := "{}".
Definition toyCompile (expr : string) (opts : unit) : error + string :=
  if decide ((expr ++ toyFormat opts)%string = "[{}"%string)
  then inl (ErrCompile "expression must evaluate to a node-set")
  else inr (expr ++ toyFormat opts)%string.

(** The variables after one successful query with the cache on. *)
Definition toyGlobals : @globals string :=
  (getQuery toyCompile toyFormat (mkGlobals false 50 None) "/AAA/BBB" tt).2.

(** The strings a regular expression matches. *)
Inductive lang : regex -> list rune -> Prop :=
  | lang_eps : lang Eps []
  | lang_sym ok c : ok c = true -> lang (Sym ok) [c]
  | lang_cat r1 r2 s1 s2 : lang r1 s1 -> lang r2 s2 -> lang (Cat r1 r2) (s1 ++ s2)
  | lang_alt_l r1 r2 s : lang r1 s -> lang (Alt r1 r2) s
  | lang_alt_r r1 r2 s : lang r2 s -> lang (Alt r1 r2) s
  | lang_star_nil r : lang (Star r) []
  | lang_star_cons r s1 s2 : lang r s1 -> lang (Star r) s2 -> lang (Star r) (s1 ++ s2).

(** [sameCase r c]: the rune [r] is the byte [c] with letter case folded
    as Unicode folds it: [r] is [c] itself, or the small form of the
    capital letter [c], or the capital form of the small letter [c], or
    the Kelvin sign U+212A when [c] is K or k, or the long s U+017F when
    [c] is S or s. *)
Definition sameCase (r : rune) (c : ascii) : Prop :=
  r = byteZ c
  ∨ (65 ≤ byteZ c ≤ 90 ∧ r = byteZ c + 32)
  ∨ (97 ≤ byteZ c ≤ 122 ∧ r = byteZ c - 32)
  ∨ ((byteZ c = 75 ∨ byteZ c = 107) ∧ r = 8490)
  ∨ ((byteZ c = 83 ∨ byteZ c = 115) ∧ r = 383).

(** [ieq s lit]: the runes [s] spell [lit], letter case aside. *)
Definition ieq (s : list rune) (lit : string) : Prop :=
  Forall2 sameCase s (list_ascii_of_string lit).

(** A rune of the subtype part: a word character (a digit, a letter, the
    underscore, and with case folded the long s and the Kelvin sign), a
    dot or a hyphen. *)
Definition subtypeRune (r : rune) : Prop :=
  48 ≤ r ≤ 57 ∨ 65 ≤ r ≤ 90 ∨ 97 ≤ r ≤ 122 ∨ r = 95 ∨ r = 383 ∨ r = 8490
  ∨ r = 46 ∨ r = 45.

(** The XML family of media types, as the expression has it: "text/", or
    one of the four top-level types followed by nothing or by a run of
    subtype runes and an optional "+"; then "xml" or "wbxml". *)
Definition xmlFamily (m : list rune) : Prop :=
  ∃ head sub tail,
    m = head ++ sub ++ tail
    ∧ (ieq tail "xml" ∨ ieq tail "wbxml")
    ∧ ((ieq head "text/" ∧ sub = [])
       ∨ ((ieq head "application/" ∨ ieq head "image/" ∨ ieq head "message/"
           ∨ ieq head "model/")
          ∧ (sub = []
             ∨ ∃ w, w ≠ [] ∧ Forall subtypeRune w
                 ∧ (sub = w ∨ sub = w ++ [43])))).

(** A Content-Type passes when some part of it, read as UTF-8, is in the
    family. *)
Definition hasXmlFamily (ct : string) : Prop :=
  ∃ pre m post, runes ct = pre ++ m ++ post ∧ xmlFamily m.

(** A response with the body of [<a>x</a>] and the given Content-Type. *)
Definition respondWith (ct : string) : Response := mkResponse ct doc_text EOF.

(** The Content-Type "meſſage/xml", its two long s as the bytes C5 BF. *)
Definition long_s_type : string :=
  ("me" ++ String "197" (String "191" (String "197" (String "191" "age/xml"))))%string.

(** A node as [&Node{...}] makes it: no link set. *)
Definition fresh (nd : Node) : Prop :=
  Parent nd = None ∧ FirstChild nd = None ∧ LastChild nd = None
  ∧ PrevSibling nd = None ∧ NextSibling nd = None.

(** What the tree builder keeps true of the links in the arena: a next
    sibling is a later cell; a first child is a cell; a last child is a cell
    whose parent is this node and which has no next sibling; a parent is a
    cell. *)
Definition wfLinks (h : heap) : Prop :=
  ∀ a x, h !! a = Some x →
    (∀ b, NextSibling x = Some b → (a < b < length h)%nat)
    ∧ (∀ c, FirstChild x = Some c → (c < length h)%nat)
    ∧ (∀ l, LastChild x = Some l →
         ∃ ln, h !! l = Some ln ∧ Parent ln = Some a ∧ NextSibling ln = None)
    ∧ (∀ q, Parent x = Some q → (q < length h)%nat).

(** [stable h h']: what was built stays.  Every node of [h] is in [h'] with
    its type, data, attributes, level, parent and previous sibling, and its
    next sibling and first child once they are set. *)
Definition stable (h h' : heap) : Prop :=
  (length h ≤ length h')%nat
  ∧ ∀ a x, h !! a = Some x →
      ∃ x', h' !! a = Some x'
        ∧ NType x' = NType x ∧ Data x' = Data x ∧ Attrs x' = Attrs x
        ∧ level x' = level x ∧ Parent x' = Parent x
        ∧ PrevSibling x' = PrevSibling x
        ∧ (∀ b, NextSibling x = Some b → NextSibling x' = Some b)
        ∧ (∀ c, FirstChild x = Some c → FirstChild x' = Some c).

(** [reach h c a]: following next-sibling links from [c] leads to [a]. *)
Inductive reach (h : heap) : ptr -> nat -> Prop :=
  | reach_here a : reach h (Some a) a
  | reach_next b y a : h !! b = Some y -> reach h (NextSibling y) a -> reach h (Some b) a.

(** What the loop of [parse] keeps true of a parser that builds a whole
    document (no stream target): the links are well formed, the cursor and
    the document are cells of the arena, and no candidate is open. *)
Definition treeInv (p : parser) : Prop :=
  wfLinks (mem p)
  ∧ (∃ pv, prev p = Some pv ∧ (pv < length (mem p))%nat)
  ∧ (doc p < length (mem p))%nat
  ∧ streamElementXPath p = None ∧ streamNode p = None.

(** No cell of the arena is an element. *)
Definition noElement (h : heap) : Prop :=
  ∀ a x, h !! a = Some x → NType x ≠ ElementNode.

(** Some cell of the arena is an element. *)
Definition hasElement (h : heap) : bool :=
  existsb (fun nd => bool_decide (NType nd = ElementNode)) h.

(** An element is among the children of the document node. *)
Definition elementChild (p : parser) : Prop :=
  ∃ dn e en, mem p !! doc p = Some dn ∧ reach (mem p) (FirstChild dn) e
    ∧ mem p !! e = Some en ∧ NType en = ElementNode.

(** Before any start tag and any processing instruction: depth 0, the
    cursor on the document node, which has no child yet. *)
Definition atDocument (p : parser) (dn : Node) : Prop :=
  p_level p = 0 ∧ prev p = Some (doc p) ∧ FirstChild dn = None.

(** After a declaration or processing instruction and before any start
    tag: depth 1, the cursor on a declaration or processing instruction of
    level 1 among the children of the document node. *)
Definition atProlog (p : parser) (dn : Node) : Prop :=
  p_level p = 1
  ∧ ∃ q qn, prev p = Some q ∧ mem p !! q = Some qn ∧ level qn = 1
      ∧ isDeclOrProcInst (NType qn) = true ∧ reach (mem p) (FirstChild dn) q.

(** The parser before the first start tag. *)
Definition beforeRoot (p : parser) : Prop :=
  noElement (mem p)
  ∧ ∃ dn, mem p !! doc p = Some dn ∧ level dn = 0 ∧ NType dn = DocumentNode
      ∧ (atDocument p dn ∨ atProlog p dn).

(** The tokens as the decoder of encoding/xml reports them: it refuses an
    end tag that closes no open element, so in every prefix of its output
    the end tags are at most as many as the start tags.  [d] is the number
    of elements open. *)
Fixpoint balancedFrom (d : nat) (toks : list Token) : bool :=
  match toks with
  | [] => true
  | StartElement _ _ :: rest => balancedFrom (S d) rest
  | EndElement _ :: rest =>
      match d with
      | O => false
      | S d' => balancedFrom d' rest
      end
  | _ :: rest => balancedFrom d rest
  end.

(** The first child of the document node [d] is the declaration that the
    parser makes up for a document without one. *)
Definition declFirst (h : heap) (d : nat) : Prop :=
  ∃ dn k decl, h !! d = Some dn ∧ FirstChild dn = Some k ∧ h !! k = Some decl
    ∧ NType decl = DeclarationNode ∧ Data decl = "xml"%string
    ∧ Attrs decl = [mkAttr (mkName "" "version") "1.0" ""]
    ∧ level decl = 1 ∧ Parent decl = Some d ∧ PrevSibling decl = None.




(** A comment and nothing else. *)
Definition doc_comment_only : list (Token * string) :=
  [ (Comment " no element ", "<!-- no element -->"%string) ].

(** ** Line numbers (line_parser.go, and the annotator of parse.go)

    Positions and line numbers are Go ints; every index computed here is at
    most the length of the data, so none wraps around. *)

(** [for i, b := range data { if b == '\n' { lineStarts = append(lineStarts, i+1) } }],
    with [i] the index of the first byte of [data]. *)
Fixpoint lineStartsFrom (i : Z) (data : string) : list Z :=
  match data with
  | EmptyString => []
  | String b rest =>
      if Ascii.eqb b "010" then (i + 1) :: lineStartsFrom (i + 1) rest
      else lineStartsFrom (i + 1) rest
  end.

(** The line starts as both parsers with line numbers set them up:
    [[]int{0}] and then the loop. *)
Definition lineStartsOf (data : string) : list Z := 0 :: lineStartsFrom 0 data.

(** [for i, start := range p.lineStarts { if pos < start { return i }; line = i + 1 }]. *)
Fixpoint lineScan (pos : Z) (i : Z) (starts : list Z) (line : Z) : Z :=
  match starts with
  | [] => line
  | start :: rest => if decide (pos < start) then i else lineScan pos (i + 1) rest (i + 1)
  end.

(** [getLineForPosition(pos)]. *)
Definition getLineForPosition (lineStarts : list Z) (pos : Z) : Z :=
  if decide (pos < 0) then 1 else lineScan pos 0 lineStarts 1.

(** How often the byte [c] occurs in [s]. *)
Fixpoint countByte (c : ascii) (s : string) : nat :=
  match s with
  | EmptyString => O
  | String d r => (if Ascii.eqb d c then 1 else 0) + countByte c r
  end.

(** [bytes.Index(s, sep)] and [strings.Index]: the index of the first
    instance of [sep] in [s], or -1. *)
Fixpoint Index (s sep : string) : Z :=
  if HasPrefix s sep then 0
  else match s with
       | EmptyString => -1
       | String _ r => let k := Index r sep in if decide (k < 0) then -1 else k + 1
       end.

(** [len(s)]. *)
Definition len (s : string) : Z := Z.of_nat (String.length s).

(** The loop shared by [findNthTextLine] and [findNthCommentLine] (and by
    [findNthTextOccurrence] and [findNthCommentOccurrence] of the
    annotator): search from [pos], count the match, return its line when it
    is the [n]-th, otherwise go on behind it.  The fuel bounds the number of
    rounds. *)
Fixpoint findNthFrom (fuel : nat) (lineStarts : list Z) (data pattern : string)
    (n pos count : Z) : option Z :=
  match fuel with
  | O => None
  | S f =>
      let foundPos := Index (dropBytes (Z.to_nat pos) data) pattern in
      if decide (foundPos < 0) then Some 1
      else
        let count := count + 1 in
        let pos := pos + foundPos in
        if decide (count = n) then Some (getLineForPosition lineStarts pos)
        else findNthFrom f lineStarts data pattern n (pos + len pattern) count
  end.

(** [findNthTextLine(text, n, data)]. *)
Definition findNthTextLine (lineStarts : list Z) (text : string) (n : Z) (data : string)
    : option Z :=
  findNthFrom (S (String.length data)) lineStarts data text n 0 0.

(** [findNthCommentLine(content, n, data)]. *)
Definition findNthCommentLine (lineStarts : list Z) (content : string) (n : Z)
    (data : string) : option Z :=
  findNthFrom (S (String.length data)) lineStarts data ("<!--" ++ content ++ "-->") n 0 0.

(** [findDeclarationLine(data)]. *)
Definition findDeclarationLine (lineStarts : list Z) (data : string) : Z :=
  let pos := Index data "<?xml" in
  if decide (pos >= 0) then getLineForPosition lineStarts pos else 1.

(** [findProcessingInstructionPosition(target)] of the annotator. *)
Definition findProcessingInstructionPosition (lineStarts : list Z) (data target : string)
    : Z :=
  let pos := Index data ("<?" ++ target) in
  if decide (pos >= 0) then getLineForPosition lineStarts pos else 1.

(** [pattern] stands in [data] at index [k]. *)
Definition occursAt (data pattern : string) (k : Z) : Prop :=
  0 ≤ k ∧ HasPrefix (dropBytes (Z.to_nat k) data) pattern = true.

(** [k] is the first index from [from] on at which [pattern] stands. *)
Definition firstFrom (data pattern : string) (from k : Z) : Prop :=
  from ≤ k ∧ occursAt data pattern k
  ∧ ∀ j, from ≤ j < k → ¬ occursAt data pattern j.

(** [k] is where the [n]-th instance of [pattern] at or behind [from] stands
    in [data], the instances counted from the left without overlap: the
    first one is the first instance from [from] on, and the next ones are
    counted behind the end of the first. *)
Inductive nthOccurrenceFrom (data pattern : string) : Z → nat → Z → Prop :=
  | occ_first from k :
      firstFrom data pattern from k → nthOccurrenceFrom data pattern from 1 k
  | occ_next from j n k :
      firstFrom data pattern from j →
      nthOccurrenceFrom data pattern (j + len pattern) n k →
      nthOccurrenceFrom data pattern from (S n) k.

Definition nthOccurrence (data pattern : string) (n : nat) (k : Z) : Prop :=
  nthOccurrenceFrom data pattern 0 n k.

(** ** The cached reader (cached_reader.go) *)

Module CachedReader.

(** The [bufio.Reader] under the cached reader: the bytes it has still to
    deliver and the error that ends them ([io.EOF] on a complete input). *)
Record BufReader := mkBufReader { avail : list ascii; readErr : error }.

(** [buffer.ReadByte()]. *)
Definition bufReadByte (b : BufReader) : ascii * option error * BufReader :=
  match avail b with
  | [] => (zero, Some (readErr b), b)
  | x :: rest => (x, None, mkBufReader rest (readErr b))
  end.

(** [buffer.Read(p)] for a [p] of length [plen]: nothing is asked for when
    [plen] is 0; at the end of the input the error is returned with no
    byte; otherwise the reader hands over what it has at hand, at least
    one byte and at most [plen], [chunk] being what its one read of the
    underlying reader yields.  [early] is the case of a large read, which
    [bufio] passes straight to the underlying reader ([n, b.err =
    b.rd.Read(p); return n, b.readErr()]), when that reader returns its
    error together with the bytes: then [Read] returns both at once.  For
    a [p] of length 0, [early] says that the reader has its error at hand
    ([return 0, b.readErr()]). *)
Definition bufRead (b : BufReader) (plen chunk : nat) (early : bool)
    : list ascii * option error * BufReader :=
  match plen, avail b with
  | O, _ => ([], (if early then Some (readErr b) else None), b)
  | _, [] => ([], Some (readErr b), b)
  | _, _ =>
      let n := Nat.min plen (Nat.max 1 chunk) in
      (take n (avail b), (if early then Some (readErr b) else None),
       mkBufReader (drop n (avail b)) (readErr b))
  end.

Record t := mk {
  buffer : BufReader;
  cache : list ascii;
  cacheCap : Z;
  cacheLen : Z;
  caching : bool
}.

(** [NewCachedReader(r)]. *)
Definition NewCachedReader (r : BufReader) : t :=
  mk r (replicate 4096 zero) 4096 0 false.

Definition StartCaching (c : t) : t :=
  mk (buffer c) (cache c) (cacheCap c) 0 true.

Definition StopCaching (c : t) : t :=
  mk (buffer c) (cache c) (cacheCap c) (cacheLen c) false.

(** [c.cache[c.cacheLen] = b; c.cacheLen++]; an index outside the slice is
    a panic of the Go runtime, here [None]. *)
Definition store (c : t) (b : ascii) : option t :=
  if decide (0 ≤ cacheLen c < Z.of_nat (length (cache c))) then
    Some (mk (buffer c) (<[Z.to_nat (cacheLen c) := b]> (cache c)) (cacheCap c)
             (cacheLen c + 1) (caching c))
  else None.

Definition setBuffer (b : BufReader) (c : t) : t :=
  mk b (cache c) (cacheCap c) (cacheLen c) (caching c).

(** [ReadByte()]: the byte and the error returned, and the reader after
    the call. *)
Definition ReadByte (c : t) : option (ascii * option error * t) :=
  let '(b, err, buf) := bufReadByte (buffer c) in
  let c := setBuffer buf c in
  if negb (caching c) then Some (b, err, c)
  else
    match err with
    | Some _ => Some (b, err, c)
    | None =>
        if decide (cacheLen c < cacheCap c) then
          c' ← store c b; Some (b, None, c')
        else Some (b, None, c)
    end.

(** [Cache()]: [c.cache[:c.cacheLen]]; a bound outside the slice is a
    panic. *)
Definition Cache (c : t) : option (list ascii) :=
  if decide (0 ≤ cacheLen c ≤ Z.of_nat (length (cache c))) then
    Some (take (Z.to_nat (cacheLen c)) (cache c))
  else None.

(** The loop of [Read]: [for i := 0; i < n; i++ { ...; if c.cacheLen >= c.cacheCap { break } }]. *)
Fixpoint storeAll (c : t) (p : list ascii) : option t :=
  match p with
  | [] => Some c
  | b :: rest =>
      c' ← store c b;
      if decide (cacheLen c' >= cacheCap c') then Some c' else storeAll c' rest
  end.

(** [Read(p)]: the bytes put into [p], the error, and the reader after
    the call. *)
Definition Read (c : t) (plen chunk : nat) (early : bool)
    : option (list ascii * option error * t) :=
  let '(p, err, buf) := bufRead (buffer c) plen chunk early in
  let c := setBuffer buf c in
  match err with
  | Some _ => Some (p, err, c)
  | None =>
      if caching c && bool_decide (cacheLen c < cacheCap c) then
        c' ← storeAll c p; Some (p, None, c')
      else Some (p, None, c)
  end.

(** A call that reads. *)
Inductive readOp :=
  | OpReadByte
  | OpRead (plen chunk : nat) (early : bool).

(** A run of reads: what each call returns, the bytes it hands over and
    its error, in order, and the reader after the run.  A call that fails
    hands over what it read before the error; the run goes on after it. *)
Fixpoint reads (ops : list readOp) (c : t)
    : option (list (list ascii * option error) * t) :=
  match ops with
  | [] => Some ([], c)
  | OpReadByte :: rest =>
      '(b, err, c') ← ReadByte c;
      '(tr, c'') ← reads rest c';
      Some ((if err is None then [b] else [], err) :: tr, c'')
  | OpRead plen chunk early :: rest =>
      '(p, err, c') ← Read c plen chunk early;
      '(tr, c'') ← reads rest c';
      Some ((p, err) :: tr, c'')
  end.

(** The bytes a run hands over, and those of them that come from calls
    that return no error. *)
Definition delivered (tr : list (list ascii * option error)) : list ascii :=
  concat (fst <$> tr).

Definition deliveredClean (tr : list (list ascii * option error)) : list ascii :=
  concat ((λ r, if r.2 is None then r.1 else []) <$> tr).

(** The bounds the constructor sets up: the counter is within the capacity,
    and the capacity is the length of the slice. *)
Definition bounded (c : t) : Prop :=
  0 ≤ cacheLen c ≤ cacheCap c ∧ cacheCap c = Z.of_nat (length (cache c)).

End CachedReader.

(** The bound of the selector cache is kept: the cache was made with a
    positive bound, holds at most that many entries, and no key twice. *)
Definition cacheBounded {CompiledExpr : Type} (g : @globals CompiledExpr) : Prop :=
  ∀ c, cache g = Some c →
    0 < MaxEntries c ∧ Z.of_nat (length (entries c)) ≤ MaxEntries c
    ∧ NoDup (fst <$> entries c).

(** The arena of the detach statement with one more node, not linked
    yet, in cell 5. *)
Definition grow_example : heap :=
  detach_example ++ [newNode CommentNode "new" "" [] 1].

(** The candidate that is open, if any, is an Element of the arena. *)
Definition candidateIsElement (p : parser) : Prop :=
  ∀ sn, streamNode p = Some sn →
    ∃ nd, mem p !! sn = Some nd ∧ NType nd = ElementNode.

(** Every node of [h] is in [h'] with its type. *)
Definition typesKept (h h' : heap) : Prop :=
  ∀ a x, h !! a = Some x → ∃ x', h' !! a = Some x' ∧ NType x' = NType x.

(** The "simple sort" of [findNthElementLine]:
    [for i := 0; i < len(s); i++ { for j := i + 1; j < len(s); j++ {
       if s[i] > s[j] { s[i], s[j] = s[j], s[i] } } }].
    The inner loop from [j] on; the fuel bounds its rounds. *)
Fixpoint sortInner (fuel : nat) (s : list Z) (i j : nat) : list Z :=
  match fuel with
  | O => s
  | S f =>
      if decide (j < length s)%nat then
        let s' :=
          match s !! i, s !! j with
          | Some a, Some b => if decide (a > b) then <[i := b]> (<[j := a]> s) else s
          | _, _ => s
          end in
        sortInner f s' i (S j)
      else s
  end.

(** The outer loop from [i] on. *)
Fixpoint sortOuter (fuel : nat) (s : list Z) (i : nat) : list Z :=
  match fuel with
  | O => s
  | S f =>
      if decide (i < length s)%nat then sortOuter f (sortInner (length s) s i (S i)) (S i)
      else s
  end.

Definition simpleSort (s : list Z) : list Z := sortOuter (length s) s 0.

(** The first three loops of [findNthElementLine], one for each pattern:
    every instance of the pattern is recorded and the search goes on behind
    it. *)
Fixpoint findAllFrom (fuel : nat) (data pattern : string) (pos : Z) : option (list Z) :=
  match fuel with
  | O => None
  | S f =>
      let foundPos := Index (dropBytes (Z.to_nat pos) data) pattern in
      if decide (foundPos < 0) then Some []
      else
        rest ← findAllFrom f data pattern (pos + foundPos + len pattern);
        Some ((pos + foundPos) :: rest)
  end.

(** [dataStr[i]]; an index outside the string is a panic, here [None]. *)
Definition byteAt (s : string) (i : nat) : option ascii := String.get i s.

(** [for i := absolutePos - 1; i >= 0; i-- { ... }]: back to the nearest
    [<], which is recorded, unless a [>] comes first. *)
Fixpoint scanBack (data : string) (i : nat) : option (list Z) :=
  b ← byteAt data i;
  if Ascii.eqb b "<" then Some [Z.of_nat i]
  else if Ascii.eqb b ">" then Some []
  else match i with
       | O => Some []
       | S k => scanBack data k
       end.

(** The loop over the instances of ":name". *)
Fixpoint findPrefixedFrom (fuel : nat) (data prefixPattern : string) (pos : Z)
    : option (list Z) :=
  match fuel with
  | O => None
  | S f =>
      let foundPos := Index (dropBytes (Z.to_nat pos) data) prefixPattern in
      if decide (foundPos < 0) then Some []
      else
        let absolutePos := pos + foundPos in
        here ← (if decide (absolutePos > 0) then
                  b ← byteAt data (Z.to_nat (absolutePos - 1));
                  if negb (Ascii.eqb b "<") then scanBack data (Z.to_nat (absolutePos - 1))
                  else Some []
                else Some []);
        rest ← findPrefixedFrom f data prefixPattern (pos + foundPos + len prefixPattern);
        Some (here ++ rest)
  end.

(** [allPositions] of [findNthElementLine]. *)
Definition collectElementPositions (name data : string) : option (list Z) :=
  p1 ← findAllFrom (S (String.length data)) data ("<" ++ name ++ ":") 0;
  p2 ← findAllFrom (S (String.length data)) data ("<" ++ name ++ ">") 0;
  p3 ← findAllFrom (S (String.length data)) data ("<" ++ name ++ " ") 0;
  p4 ← findPrefixedFrom (S (String.length data)) data (":" ++ name) 0;
  Some (p1 ++ p2 ++ p3 ++ p4).

(** [findNthElementLine(name, n, data)].  The positions go through a map to
    drop duplicates, and [for pos := range uniquePositions] yields its keys
    in an order that Go leaves open: [order] is that order.  An index
    [n - 1] below 0 is a panic. *)
Definition findNthElementLine (lineStarts : list Z) (name : string) (n : Z)
    (data : string) (order : list Z) : option Z :=
  allPositions ← collectElementPositions name data;
  if decide (length allPositions = 0%nat) then Some 1
  else
    let sortedPositions := simpleSort order in
    if decide (n ≤ Z.of_nat (length sortedPositions)) then
      if decide (0 ≤ n - 1) then
        k ← sortedPositions !! Z.to_nat (n - 1); Some (getLineForPosition lineStarts k)
      else None
    else Some 1.

(** ** The formatter (format.go) *)

Record formatter := mkFormatter { Ident : string; XMLDeclaration : bool }.

(** The options of [Format]: functions that write one field. *)
Definition FormatOptionIndent (s : string) (t : formatter) : formatter :=
  mkFormatter s (XMLDeclaration t).
Definition FormatOptionDeclaration (b : bool) (t : formatter) : formatter :=
  mkFormatter (Ident t) b.


(** [t.increment(n, level)]. *)
Definition increment (nd : Node) (lvl : Z) : Z :=
  match NType nd with
  | DocumentNode => lvl
  | _ => lvl + 1
  end.

(** [t.isText(n)]. *)
Definition isText (h : heap) (n : ptr) : option bool :=
  match n with
  | None => Some false
  | Some a =>
      nd ← h !! a;
      Some match NType nd with
           | CharDataNode | TextNode =>
               negb (String.eqb
                       (Trim (Data nd) (String "010" (String "009" (String "013" EmptyString))))
                       "")
           | _ => false
           end
  end.

(** [strings.Repeat(s, count)]; a negative count is a panic. *)
Fixpoint repeatString (s : string) (count : nat) : string :=
  match count with
  | O => EmptyString
  | S k => (s ++ repeatString s k)%string
  end.

Definition Repeat (s : string) (count : Z) : option string :=
  if decide (count < 0) then None else Some (repeatString s (Z.to_nat count)).

(** [t.output(buf, n, level, preserve)], and with [siblings] set the loop
    of [t.recurse] that calls it on a node and all that follow it. *)
Fixpoint fmtOutput (fuel : nat) (t : formatter) (h : heap) (c : ptr) (lvl : Z)
    (preserve siblings : bool) : option string :=
  match c with
  | None => Some EmptyString
  | Some a =>
      match fuel with
      | O => None
      | S f =>
          nd ← h !! a;
          let preserveSpaces := calculatePreserveSpaces nd preserve in
          self ←
            match NType nd with
            | TextNode => Some (EscapeText (sanitizedData nd preserveSpaces))
            | CharDataNode =>
                Some ("<![CDATA[" ++ EscapeText (sanitizedData nd preserveSpaces) ++ "]]>")%string
            | CommentNode => Some ("<!--" ++ Data nd ++ "-->")%string
            | DeclarationNode =>
                Some (if XMLDeclaration t then "<?" ++ Data nd ++ "?>" else "")%string
            | _ =>
                let named := bool_decide (0 < String.length (Data nd))%nat in
                opening ←
                  (if named then
                     indent ←
                       (if bool_decide (0 < String.length (Ident t))%nat
                           && bool_decide (0 < lvl)
                        then r ← Repeat (Ident t) lvl; Some (String "010" r)
                        else Some EmptyString);
                     Some (indent ++ "<" ++ qualifiedName nd)%string
                   else Some EmptyString);
                kids ← fmtOutput f t h (FirstChild nd) (increment nd lvl) preserveSpaces true;
                closing ←
                  (if named then
                     indent ←
                       (if bool_decide (0 < String.length (Ident t))%nat
                        then
                          txt ← isText h (LastChild nd);
                          if txt : bool then Some EmptyString
                          else r ← Repeat (Ident t) lvl; Some (String "010" r)
                        else Some EmptyString);
                     Some (indent ++ "</" ++ qualifiedName nd ++ ">")%string
                   else Some EmptyString);
                Some (opening
                      ++ String.concat "" (map outputAttr (Attrs nd))
                      ++ (if named then ">" else "")
                      ++ kids ++ closing)%string
            end;
          if siblings then
            rest ← fmtOutput f t h (NextSibling nd) lvl preserve true;
            Some (self ++ rest)%string
          else Some self
      end
  end.



(** No colon occurs in [s]. *)
Definition noColon (s : string) : Prop := ":"%char ∉ list_ascii_of_string s.

(** [backLinks h]: every link of the arena is answered by the node it
    points to.  The next sibling of a node has that node as previous
    sibling and the same parent; the previous sibling of a node has it as
    next sibling; the first child of a node has it as parent and has no
    previous sibling; the parent of a node has children; a node without
    first child has no last child. *)
Definition backLinks (h : heap) : Prop :=
  ∀ a x, h !! a = Some x →
    (∀ b, NextSibling x = Some b →
       ∃ y, h !! b = Some y ∧ PrevSibling y = Some a ∧ Parent y = Parent x)
    ∧ (∀ b, PrevSibling x = Some b → ∃ y, h !! b = Some y ∧ NextSibling y = Some a)
    ∧ (∀ c, FirstChild x = Some c →
         ∃ y, h !! c = Some y ∧ Parent y = Some a ∧ PrevSibling y = None)
    ∧ (∀ q, Parent x = Some q → ∃ y, h !! q = Some y ∧ FirstChild y ≠ None)
    ∧ (FirstChild x = None → LastChild x = None).

(** * Properties *)

(** ** The arena and sibling chains *)
Section Heap.
Implicit Types (h : heap) (a n p : nat) (nd : Node) (cs : list nat).

Lemma upd_Some h a f nd : h !! a = Some nd → upd h a f = Some (<[a := f nd]> h).
Proof. intros E. unfold upd. rewrite E. reflexivity. Qed.

Lemma upd_inv h a f h' :
  upd h a f = Some h' → ∃ nd, h !! a = Some nd ∧ h' = <[a := f nd]> h.
Proof.
  unfold upd. destruct (h !! a) as [nd|] eqn:E; simpl; [|discriminate].
  intros [= <-]. eauto.
Qed.

Lemma sibs_frame h h' par pv cs nx :
  (∀ c, c ∈ cs → h' !! c = h !! c) →
  sibs h par pv cs nx → sibs h' par pv cs nx.
Proof.
  revert pv. induction cs as [|c cs IH]; intros pv Hf; simpl; [done|].
  intros (nd & E & ? & ? & ? & S). exists nd. rewrite Hf by set_solver.
  repeat split; try done. apply IH; [|done]. intros; apply Hf; set_solver.
Qed.

Lemma sibs_app h par pv l1 l2 nx :
  sibs h par pv (l1 ++ l2) nx ↔
  sibs h par pv l1 (headOr l2 nx) ∧ sibs h par (lastOr l1 pv) l2 nx.
Proof.
  revert pv. induction l1 as [|c l1 IH]; intros pv; simpl.
  - unfold lastOr; simpl. tauto.
  - assert (Hh : headOr (l1 ++ l2) nx = headOr l1 (headOr l2 nx)) by (by destruct l1).
    assert (Hl : lastOr (c :: l1) pv = lastOr l1 (Some c)).
    { unfold lastOr. rewrite last_cons. by destruct (last l1). }
    rewrite Hh, Hl. split.
    + intros (nd & ? & ? & ? & ? & S). apply IH in S as [S1 S2]. split; [|done].
      exists nd. done.
    + intros [(nd & ? & ? & ? & ? & S1) S2]. exists nd. repeat split; try done.
      apply IH. done.
Qed.

Lemma sibs_elem h par pv cs nx c :
  sibs h par pv cs nx → c ∈ cs → ∃ nd, h !! c = Some nd ∧ Parent nd = par.
Proof.
  revert pv. induction cs as [|d cs IH]; intros pv; simpl; [set_solver|].
  intros (nd & ? & ? & ? & ? & S) [->|Hin]%elem_of_cons; eauto.
Qed.

Lemma sibs_set_next h h' par pv cs q nx nx' :
  sibs h par pv (cs ++ [q]) nx →
  (∀ c, c ∈ cs → h' !! c = h !! c) →
  h' !! q = setNextSibling nx' <$> h !! q →
  sibs h' par pv (cs ++ [q]) nx'.
Proof.
  intros S Hf E. apply sibs_app in S as [S1 S2]. apply sibs_app. split.
  - by apply (sibs_frame h).
  - simpl in *. destruct S2 as (nd & E' & ? & ? & ? & _).
    rewrite E' in E. exists (setNextSibling nx' nd). done.
Qed.

Lemma sibs_set_prev h h' par pv pv' cs m nx :
  sibs h par pv (m :: cs) nx →
  (∀ c, c ∈ cs → h' !! c = h !! c) →
  h' !! m = setPrevSibling pv' <$> h !! m →
  sibs h' par pv' (m :: cs) nx.
Proof.
  intros S Hf E. simpl in *. destruct S as (nd & E' & ? & ? & ? & S).
  rewrite E' in E. exists (setPrevSibling pv' nd).
  repeat split; try done. by apply (sibs_frame h).
Qed.
End Heap.

(** ** Removal as a splice *)
Lemma headOr_None l : headOr l None = head l.
Proof. by destruct l. Qed.
Lemma lastOr_None l : lastOr l None = last l.
Proof. unfold lastOr. by destruct (last l). Qed.

Lemma set_first_eta v nd : FirstChild nd = v → setFirstChild v nd = nd.
Proof. intros <-. by destruct nd. Qed.
Lemma set_last_eta v nd : LastChild nd = v → setLastChild v nd = nd.
Proof. intros <-. by destruct nd. Qed.

Lemma insert_as_alter (h : heap) a f nd : h !! a = Some nd → <[a := f nd]> h = alter f a h.
Proof.
  intros E. apply list_eq. intros i. destruct (decide (a = i)) as [->|Hne].
  - rewrite list_lookup_insert_eq by (by eapply lookup_lt_Some).
    by rewrite list_lookup_alter_eq, E.
  - by rewrite list_lookup_insert_ne, list_lookup_alter_ne.
Qed.

Lemma upd_alter (h : heap) a f : is_Some (h !! a) → upd h a f = Some (alter f a h).
Proof. intros [nd E]. rewrite (upd_Some _ _ _ nd E). f_equal. by apply insert_as_alter. Qed.

(** What the list says about the node in focus and its parent. *)
Lemma children_focus h p l1 n l2 :
  children_of h p (l1 ++ n :: l2) →
  ∃ pn nd, h !! p = Some pn ∧ h !! n = Some nd ∧ n ≠ p
    ∧ Parent nd = Some p ∧ PrevSibling nd = last l1 ∧ NextSibling nd = head l2
    ∧ FirstChild pn = head (l1 ++ n :: l2) ∧ LastChild pn = last (l1 ++ n :: l2)
    ∧ ((FirstChild pn = Some n) ↔ (l1 = [])) ∧ ((LastChild pn = Some n) ↔ (l2 = []))
    ∧ (∀ q, last l1 = Some q → q ≠ n ∧ q ≠ p ∧ (q ∉ l2) ∧ is_Some (h !! q))
    ∧ (∀ m, head l2 = Some m → m ≠ n ∧ m ≠ p ∧ (m ∉ l1) ∧ is_Some (h !! m)).
Proof.
  intros [(pn & Ep & Hf & Hl) S ND Hp].
  apply sibs_app in S as [S1 S2]. simpl in S2.
  destruct S2 as (nd & En & Hpar & Hpv & Hnx & S2).
  rewrite lastOr_None in Hpv. rewrite headOr_None in Hnx.
  apply NoDup_app in ND as (ND1 & Hd & ND2). apply NoDup_cons in ND2 as [Hn2 ND2].
  assert (Hn1 : n ∉ l1) by (intros Hin; apply (Hd _ Hin); left).
  exists pn, nd. repeat split; try done.
  - intros ->. apply Hp. set_solver.
  - rewrite Hf, head_app. destruct l1 as [|x l1]; [done|]. simpl. intros [= ->]. set_solver.
  - intros ->. by rewrite Hf.
  - rewrite Hl, last_app_cons. destruct l2 as [|x l2 _] using rev_ind; [done|].
    rewrite app_comm_cons, last_snoc. intros [= ->]. set_solver.
  - intros ->. rewrite Hl. apply last_snoc.
  - intros ->. apply last_Some_elem_of in H. done.
  - intros ->. apply last_Some_elem_of in H. apply Hp. set_solver.
  - intros Hin. apply last_Some_elem_of in H. apply (Hd _ H). by right.
  - apply last_Some_elem_of in H. destruct (sibs_elem _ _ _ _ _ _ S1 H) as (x & -> & _). eauto.
  - intros ->. apply head_Some_elem_of in H. done.
  - intros ->. apply head_Some_elem_of in H. apply Hp. set_solver.
  - intros Hin. apply head_Some_elem_of in H. apply (Hd _ Hin). by right.
  - apply head_Some_elem_of in H. destruct (sibs_elem _ _ _ _ _ _ S2 H) as (x & -> & _). eauto.
Qed.

Lemma alter_is_Some (h : heap) f a b : is_Some (h !! b) → is_Some (alter f a h !! b).
Proof.
  intros [x E]. rewrite list_lookup_alter. case_decide; subst; rewrite E; eauto.
Qed.

Lemma remove_no_parent (h : heap) n nd :
  h !! n = Some nd → Parent nd = None → remove h n = Some h.
Proof. intros E P. unfold remove. rewrite E. simpl. by rewrite P. Qed.

Lemma remove_eq h p l1 n l2 :
  children_of h p (l1 ++ n :: l2) →
  remove h n = Some (spliceOut h p n (last l1) (head l2)).
Proof.
  intros C. destruct (children_focus _ _ _ _ _ C)
    as (pn & nd & Ep & En & Hnp & Hpar & Hpv & Hnx & Hf & Hl & Hf' & Hl' & Hq & Hm).
  assert (Hn : ∀ h0 : heap, is_Some (h0 !! n) →
     (h2 ← upd h0 n (setParent None); h3 ← upd h2 n (setPrevSibling None);
      upd h3 n (setNextSibling None)) = Some (alter detached n h0)).
  { intros h0 Hs. rewrite upd_alter by done. simpl.
    rewrite upd_alter by (by apply alter_is_Some). simpl.
    rewrite upd_alter by (by do 2 apply alter_is_Some).
    by rewrite !list_alter_alter_eq. }
  unfold remove. rewrite En. simpl. rewrite Hpar, Ep. simpl.
  unfold spliceOut.
  destruct (last l1) as [q|] eqn:Eq; destruct (head l2) as [m|] eqn:Em.
  - (* in the middle *)
    destruct (Hq q eq_refl) as (Hqn & Hqp & Hq2 & Hqs).
    destruct (Hm m eq_refl) as (Hmn & Hmp & Hm1 & Hms).
    rewrite decide_False by (rewrite Hf'; intros ->; discriminate).
    rewrite decide_False by (rewrite Hl'; intros ->; discriminate).
    rewrite Hpv, Hnx. simpl. rewrite upd_alter by done. simpl.
    rewrite list_lookup_alter_ne, En by done. simpl. rewrite Hnx, Hpv. simpl.
    rewrite upd_alter by (by apply alter_is_Some). simpl.
    rewrite Hn by (do 2 apply alter_is_Some; eauto).
    apply (f_equal Some). do 3 apply (f_equal (alter _ _)).
    symmetry. apply list_alter_id. intros x. by destruct x.
  - (* last child *)
    destruct (Hq q eq_refl) as (Hqn & Hqp & Hq2 & Hqs).
    rewrite decide_False by (rewrite Hf'; intros ->; discriminate).
    rewrite decide_True by (by apply Hl', head_None).
    rewrite Hpv. simpl. rewrite upd_alter by eauto. simpl.
    rewrite upd_alter by (by apply alter_is_Some). simpl.
    rewrite Hn by (do 2 apply alter_is_Some; eauto).
    apply (f_equal Some). do 2 apply (f_equal (alter _ _)).
    apply list_alter_ext; [|done]. intros x _. by destruct x.
  - (* first child *)
    destruct (Hm m eq_refl) as (Hmn & Hmp & Hm1 & Hms).
    rewrite decide_True by (by apply Hf', last_None).
    rewrite decide_False by (rewrite Hl'; intros ->; discriminate).
    rewrite Hnx. simpl. rewrite upd_alter by eauto. simpl.
    rewrite upd_alter by (by apply alter_is_Some). simpl.
    rewrite Hn by (do 2 apply alter_is_Some; eauto).
    apply (f_equal Some). do 2 apply (f_equal (alter _ _)).
    apply list_alter_ext; [|done]. intros x _. by destruct x.
  - (* only child *)
    rewrite decide_True by (by apply Hf', last_None).
    rewrite decide_True by (by apply Hl', head_None).
    rewrite upd_alter by eauto. simpl.
    rewrite upd_alter by (apply alter_is_Some; eauto). simpl.
    rewrite Hn by (do 2 apply alter_is_Some; eauto).
    by rewrite list_alter_alter_eq.
Qed.

Lemma spliceOut_length h p n q m : length (spliceOut h p n q m) = length h.
Proof. unfold spliceOut. destruct q, m; by rewrite ?length_alter. Qed.

Lemma spliceOut_lookup h p n q m a :
  n ≠ p → q ≠ Some n → q ≠ Some p → m ≠ Some n → m ≠ Some p →
  (∀ x, q = Some x → m ≠ Some x) →
  spliceOut h p n q m !! a =
    if decide (a = n) then detached <$> h !! a
    else if decide (m = Some a) then setPrevSibling q <$> h !! a
    else if decide (q = Some a) then setNextSibling m <$> h !! a
    else if decide (a = p) then
      (fun pn => setLastChild (match m with None => q | Some _ => LastChild pn end)
         (setFirstChild (match q with None => m | Some _ => FirstChild pn end) pn)) <$> h !! a
    else h !! a.
Proof.
  intros Hnp Hqn Hqp Hmn Hmp Hqm. unfold spliceOut.
  rewrite list_lookup_alter. destruct (decide (n = a)) as [->|Hna].
  - rewrite decide_True by done. f_equal.
    destruct m as [m|]; [rewrite list_lookup_alter_ne by congruence|];
    (destruct q as [q|]; [rewrite list_lookup_alter_ne by congruence|]);
    by rewrite list_lookup_alter_ne.
  - rewrite decide_False by done.
    destruct m as [m|].
    + rewrite list_lookup_alter. destruct (decide (m = a)) as [->|Hma].
      * rewrite decide_True by done. f_equal.
        (destruct q as [q|]; [rewrite list_lookup_alter_ne by (intros ->; by eapply Hqm)|]);
        rewrite list_lookup_alter_ne; congruence.
      * rewrite decide_False by congruence.
        destruct q as [q|]; [rewrite list_lookup_alter; destruct (decide (q = a)) as [->|Hqa]|].
        -- rewrite decide_True by done. f_equal. rewrite list_lookup_alter_ne; congruence.
        -- rewrite decide_False by congruence. rewrite list_lookup_alter.
           destruct (decide (p = a)) as [->|]; [by rewrite decide_True|by rewrite decide_False].
        -- rewrite decide_False by congruence. rewrite list_lookup_alter.
           destruct (decide (p = a)) as [->|]; [by rewrite decide_True|by rewrite decide_False].
    + rewrite decide_False by congruence.
      destruct q as [q|]; [rewrite list_lookup_alter; destruct (decide (q = a)) as [->|Hqa]|].
      * rewrite decide_True by done. f_equal. rewrite list_lookup_alter_ne; congruence.
      * rewrite decide_False by congruence. rewrite list_lookup_alter.
        destruct (decide (p = a)) as [->|]; [by rewrite decide_True|by rewrite decide_False].
      * rewrite decide_False by congruence. rewrite list_lookup_alter.
        destruct (decide (p = a)) as [->|]; [by rewrite decide_True|by rewrite decide_False].
Qed.

(** The hypotheses of [spliceOut_lookup], from the child list. *)
Lemma children_distinct h p l1 n l2 :
  children_of h p (l1 ++ n :: l2) →
  n ≠ p ∧ last l1 ≠ Some n ∧ last l1 ≠ Some p ∧ head l2 ≠ Some n ∧ head l2 ≠ Some p
  ∧ (∀ x, last l1 = Some x → head l2 ≠ Some x).
Proof.
  intros C. destruct (children_focus _ _ _ _ _ C)
    as (pn & nd & Ep & En & Hnp & Hpar & Hpv & Hnx & Hf & Hl & Hf' & Hl' & Hq & Hm).
  repeat split; try done.
  - intros E. by destruct (Hq _ E) as (? & _).
  - intros E. by destruct (Hq _ E) as (_ & ? & _).
  - intros E. by destruct (Hm _ E) as (? & _).
  - intros E. by destruct (Hm _ E) as (_ & ? & _).
  - intros x E E'. destruct (Hq _ E) as (_ & _ & Hx & _). apply Hx.
    by apply head_Some_elem_of.
Qed.

Lemma splice_children h p l1 n l2 :
  children_of h p (l1 ++ n :: l2) →
  children_of (spliceOut h p n (last l1) (head l2)) p (l1 ++ l2).
Proof.
  intros C. pose proof (children_distinct _ _ _ _ _ C) as (Hnp & Hqn & Hqp & Hmn & Hmp & Hqm).
  pose proof (λ a, spliceOut_lookup h p n _ _ a Hnp Hqn Hqp Hmn Hmp Hqm) as L.
  destruct C as [(pn & Ep & Hf & Hl) S ND Hp].
  apply NoDup_app in ND as (ND1 & Hd & ND2). apply NoDup_cons in ND2 as [Hn2 ND2].
  assert (Hn1 : n ∉ l1) by (intros Hin; apply (Hd _ Hin); left).
  apply sibs_app in S as [S1 S2]. simpl in S1, S2.
  destruct S2 as (nd & En & Hpar & Hpv & Hnx & S2).
  split.
  - eexists. split.
    { rewrite L. rewrite decide_False by done. rewrite decide_False by done.
      rewrite decide_False by done. rewrite decide_True by done. by rewrite Ep. }
    simpl. split.
    + rewrite head_app. destruct (last l1) eqn:E.
      * rewrite Hf, head_app. destruct l1; [simpl in E; discriminate|done].
      * apply last_None in E as ->. done.
    + rewrite last_app. destruct (head l2) eqn:E.
      * rewrite Hl, last_app_cons, last_cons. destruct l2; [simpl in E; discriminate|].
        rewrite last_cons. by destruct (last l2).
      * apply head_None in E as ->. done.
  - apply sibs_app. split.
    + destruct l1 as [|q l1 _] using rev_ind; [done|].
      rewrite last_snoc in *. apply (sibs_set_next h _ _ _ _ _ (Some n)); [done| |].
      * intros c Hc. rewrite L. rewrite decide_False by set_solver.
        rewrite decide_False.
        2:{ intros E. apply head_Some_elem_of in E. apply (Hd c); set_solver. }
        rewrite decide_False.
        2:{ intros [= ->]. apply NoDup_app in ND1 as (_ & Hx & _). apply (Hx c Hc). left. }
        rewrite decide_False; [done|]. intros ->. apply Hp. set_solver.
      * rewrite L. rewrite decide_False by congruence.
        rewrite decide_False by (intros E; eapply Hqm; done).
        rewrite decide_True by done. by rewrite headOr_None.
    + rewrite lastOr_None. destruct l2 as [|m l2]; [done|]. simpl in Hqm, Hmn, Hmp, L.
      apply (sibs_set_prev h _ _ (Some n)); [done| |].
      * intros c Hc. rewrite L. rewrite decide_False by set_solver.
        rewrite decide_False.
        2:{ intros [= ->]. apply NoDup_cons in ND2 as [? _]. done. }
        rewrite decide_False.
        2:{ intros E. apply last_Some_elem_of in E. apply (Hd c); set_solver. }
        rewrite decide_False; [done|]. intros ->. apply Hp. set_solver.
      * rewrite L. rewrite decide_False by congruence. by rewrite decide_True.
  - apply NoDup_app. repeat split; try done. intros x Hx Hx'. apply (Hd x Hx). by right.
  - set_solver.
Qed.

(** What [remove] leaves alone: the payload of every node, the parent of
    every node but the removed one, the child pointers of every node but
    the parent, and everything about nodes other than the removed node, its
    parent and its two neighbours. *)
Lemma splice_frame h p l1 n l2 a x :
  children_of h p (l1 ++ n :: l2) →
  h !! a = Some x →
  ∃ x', spliceOut h p n (last l1) (head l2) !! a = Some x'
    ∧ samePayload x x'
    ∧ (a = n → x' = detached x)
    ∧ (a ≠ n → Parent x' = Parent x)
    ∧ (a ≠ p → FirstChild x' = FirstChild x ∧ LastChild x' = LastChild x)
    ∧ (a ≠ n → last l1 ≠ Some a → head l2 ≠ Some a →
       PrevSibling x' = PrevSibling x ∧ NextSibling x' = NextSibling x)
    ∧ (a ≠ n → a ≠ p → last l1 ≠ Some a → head l2 ≠ Some a → x' = x).
Proof.
  intros C E. pose proof (children_distinct _ _ _ _ _ C) as (Hnp & Hqn & Hqp & Hmn & Hmp & Hqm).
  rewrite (spliceOut_lookup h p n _ _ a Hnp Hqn Hqp Hmn Hmp Hqm), E. simpl.
  repeat case_decide; eexists; (split; [reflexivity|]); subst;
    repeat split; try done; try congruence.
Qed.

Lemma sibs_frame_links (h h' : heap) par pv cs nx :
  (∀ c x, c ∈ cs → h !! c = Some x →
     ∃ x', h' !! c = Some x' ∧ Parent x' = Parent x
           ∧ PrevSibling x' = PrevSibling x ∧ NextSibling x' = NextSibling x) →
  sibs h par pv cs nx → sibs h' par pv cs nx.
Proof.
  revert pv. induction cs as [|c cs IH]; intros pv Hf; simpl; [done|].
  intros (nd & E & Hp & Hv & Hx & S).
  destruct (Hf c nd) as (x' & E' & Hp' & Hv' & Hx'); [left|done|].
  exists x'. rewrite Hp', Hv', Hx'. repeat split; try done.
  apply IH; [|done]. intros c' y Hc. apply Hf. by right.
Qed.

(** The children of the removed node stay its children. *)
Lemma splice_keeps_kids h p l1 n l2 kids :
  children_of h p (l1 ++ n :: l2) → children_of h n kids →
  children_of (spliceOut h p n (last l1) (head l2)) n kids.
Proof.
  intros C [(nd & En & Hf & Hl) S ND Hs].
  pose proof (children_distinct _ _ _ _ _ C) as (Hnp & _).
  assert (Hout : ∀ c, c ∈ kids → c ∉ l1 ++ n :: l2).
  { intros c Hc Hin. destruct (sibs_elem _ _ _ _ _ _ S Hc) as (x & Ex & Px).
    destruct (sibs_elem _ _ _ _ _ _ (co_sibs _ _ _ C) Hin) as (y & Ey & Py). congruence. }
  split; try done.
  - destruct (splice_frame _ _ _ _ _ _ _ C En) as (x' & E' & _ & Hd & _ & Hc & _).
    rewrite (Hd eq_refl) in E'. exists (detached nd). by repeat split.
  - apply (sibs_frame_links h); [|done]. intros c x Hc Ex.
    destruct (splice_frame _ _ _ _ _ _ _ C Ex) as (x' & E' & _ & _ & Hp & _ & Hl' & _).
    assert (c ≠ n) by (intros ->; done).
    exists x'. split; [done|]. split; [by apply Hp|]. apply Hl'; try done.
    + intros E. apply last_Some_elem_of in E. apply (Hout c Hc). set_solver.
    + intros E. apply head_Some_elem_of in E. apply (Hout c Hc). set_solver.
Qed.


(** C9 — Detach semantics. [remove] on a node without parent returns the
    arena as it was.  On a node [n] that sits in the child list
    [l1 ++ n :: l2] of its parent [p], it succeeds and leaves [l1 ++ l2] as
    the child list of [p], with FirstChild, LastChild and the Prev/Next
    links of the neighbours consistent; [n] has lost its Parent,
    PrevSibling and NextSibling; and the child list of [n] itself is as
    before. *)
Theorem remove_detach :
  (∀ (h : heap) n nd, h !! n = Some nd → Parent nd = None → remove h n = Some h)
  ∧ (∀ (h : heap) p l1 n l2 nd kids,
       children_of h p (l1 ++ n :: l2) → h !! n = Some nd → children_of h n kids →
       ∃ h' nd', remove h n = Some h'
         ∧ children_of h' p (l1 ++ l2)
         ∧ h' !! n = Some nd'
         ∧ Parent nd' = None ∧ PrevSibling nd' = None ∧ NextSibling nd' = None
         ∧ FirstChild nd' = FirstChild nd ∧ LastChild nd' = LastChild nd
         ∧ samePayload nd nd'
         ∧ children_of h' n kids).
Proof.
  split.
  - apply remove_no_parent.
  - intros h p l1 n l2 nd kids C En K.
    destruct (splice_frame _ _ _ _ _ _ _ C En) as (x' & E' & Hpay & Hd & _).
    exists (spliceOut h p n (last l1) (head l2)), x'.
    rewrite (Hd eq_refl) in *.
    split; [by apply remove_eq|]. split; [by apply splice_children|].
    repeat (split; [done|]). by apply splice_keeps_kids.
Qed.

Lemma remove_detach_witness :
  ∃ h' nd', remove detach_example 2 = Some h'
    ∧ children_of h' 0 ([1%nat] ++ [3%nat])
    ∧ h' !! 2%nat = Some nd'
    ∧ Parent nd' = None ∧ PrevSibling nd' = None ∧ NextSibling nd' = None
    ∧ FirstChild nd' = Some 4%nat ∧ LastChild nd' = Some 4%nat
    ∧ samePayload (mkNode (Some 0%nat) (Some 4%nat) (Some 4%nat) (Some 1%nat) (Some 3%nat)
           ElementNode "a" "" "" [] None 1) nd'
    ∧ children_of h' 2 [4%nat].
Proof.
  apply (proj2 remove_detach detach_example 0%nat [1%nat] 2%nat [3%nat]
           (mkNode (Some 0%nat) (Some 4%nat) (Some 4%nat) (Some 1%nat) (Some 3%nat)
              ElementNode "a" "" "" [] None 1) [4%nat]).
  - split; simpl.
    + eexists; repeat split; reflexivity.
    + eexists; repeat split; try reflexivity.
      eexists; repeat split; try reflexivity.
      eexists; repeat split; reflexivity.
    + refine (bool_decide_unpack _ _); vm_compute; exact I.
    + refine (bool_decide_unpack _ _); vm_compute; exact I.
  - reflexivity.
  - split; simpl.
    + eexists; repeat split; reflexivity.
    + eexists; repeat split; reflexivity.
    + refine (bool_decide_unpack _ _); vm_compute; exact I.
    + refine (bool_decide_unpack _ _); vm_compute; exact I.
Defined.

(** ** The clean-up of [Read] *)

Lemma samePayload_refl x : samePayload x x.
Proof. by repeat split. Qed.

Lemma samePayload_trans x y z : samePayload x y → samePayload y z → samePayload x z.
Proof. unfold samePayload. intuition congruence. Qed.

Lemma nodup_bounded_length (l : list nat) (n : nat) :
  NoDup l → (∀ x, x ∈ l → (x < n)%nat) → (length l ≤ n)%nat.
Proof.
  intros ND Hb. rewrite <-(length_seq n 0%nat). apply submseteq_length.
  apply NoDup_submseteq; [done|]. intros x Hx. apply elem_of_seq. specialize (Hb x Hx). lia.
Qed.

Lemma children_length h p cs : children_of h p cs → (length cs ≤ length h)%nat.
Proof.
  intros C. apply nodup_bounded_length; [apply C|]. intros x Hx.
  destruct (sibs_elem _ _ _ _ _ _ (co_sibs _ _ _ C) Hx) as (nd & E & _).
  by eapply lookup_lt_Some.
Qed.

(** Removing every sibling before [sn], last first, as [Read] does. *)
Lemma removePrevSiblings_spec l1 : ∀ (h : heap) fuel par sn l2,
  children_of h par (l1 ++ sn :: l2) → (length l1 < fuel)%nat →
  ∃ h', removePrevSiblings fuel h sn = Some h'
    ∧ children_of h' par (sn :: l2)
    ∧ length h' = length h
    ∧ (∀ a, a ∈ l1 → ∃ x, h' !! a = Some x ∧ Parent x = None)
    ∧ (∀ a x, h !! a = Some x →
         ∃ x', h' !! a = Some x' ∧ samePayload x x'
               ∧ (a ∉ l1 → Parent x' = Parent x)
               ∧ (a ≠ par → FirstChild x' = FirstChild x ∧ LastChild x' = LastChild x)).
Proof.
  induction l1 as [|q l1 IH] using rev_ind; intros h fuel par sn l2 C Hfuel.
  - destruct fuel as [|fuel]; [simpl in Hfuel; lia|].
    destruct (children_focus h par [] sn l2 C) as (pn & nd & _ & En & _ & _ & Hpv & _).
    exists h. simpl. rewrite En. simpl. rewrite Hpv. simpl.
    split; [done|]. split; [exact C|]. split; [done|]. split.
    + intros a Ha. by apply elem_of_nil in Ha.
    + intros a x E. exists x. by repeat split.
  - destruct fuel as [|fuel]; [simpl in Hfuel; lia|].
    rewrite length_app in Hfuel. simpl in Hfuel.
    destruct (children_focus h par (l1 ++ [q]) sn l2 C)
      as (pn & nd & _ & En & _ & _ & Hpv & _).
    rewrite last_snoc in Hpv.
    rewrite <-app_assoc in C. simpl in C.
    pose proof (remove_eq _ _ _ _ _ C) as Hrm.
    pose proof (splice_children _ _ _ _ _ C) as C1.
    set (h1 := spliceOut h par q (last l1) (head (sn :: l2))) in *.
    destruct (IH h1 fuel par sn l2 C1) as (h' & Hr & C' & Hlen & Hdet & Hfr); [lia|].
    exists h'. simpl. rewrite En. simpl. rewrite Hpv, Hrm. simpl.
    split; [done|]. split; [done|].
    split; [unfold h1 in Hlen; by rewrite spliceOut_length in Hlen|].
    assert (Hq1 : q ∉ l1).
    { intros Hin. pose proof (co_nodup _ _ _ C) as ND.
      apply NoDup_app in ND as (_ & Hd & _). apply (Hd q Hin). left. }
    split.
    + intros a [Ha| ->%list_elem_of_singleton]%elem_of_app; [by apply Hdet|].
      destruct (children_focus _ _ _ _ _ C) as (_ & qn & _ & Eq & _).
      destruct (splice_frame _ _ _ _ _ _ _ C Eq) as (y & Ey & _ & Hy & _).
      rewrite (Hy eq_refl) in Ey.
      destruct (Hfr _ _ Ey) as (x' & Ex' & _ & Hp & _).
      exists x'. split; [done|]. by rewrite Hp.
    + intros a x Ex.
      destruct (splice_frame _ _ _ _ _ _ _ C Ex) as (y & Ey & Hpay & _ & Hp & Hc & _).
      destruct (Hfr _ _ Ey) as (x' & Ex' & Hpay' & Hp' & Hc').
      exists x'. split; [done|]. split; [by eapply samePayload_trans|]. split.
      * intros Ha. rewrite Hp' by set_solver. apply Hp. set_solver.
      * intros Ha. destruct (Hc Ha) as [E1 E2]. destruct (Hc' Ha) as [E3 E4].
        split; congruence.
Qed.

(** The whole clean-up: with the yielded node [sn] in the child list
    [l1 ++ sn :: l2] of [par], nothing of [l1] and [sn] stays in the list,
    every removed node has lost its parent, and the cursor is on [par]. *)
Lemma releaseYielded_spec p par l1 sn l2 :
  children_of (mem p) par (l1 ++ sn :: l2) →
  ∃ h', releaseYielded p sn = Some (setStream None None (setPrev (Some par) (setMem h' p)))
    ∧ children_of h' par l2
    ∧ length h' = length (mem p)
    ∧ (∀ a, a ∈ l1 ++ [sn] → ∃ x, h' !! a = Some x ∧ Parent x = None)
    ∧ (∀ a x, mem p !! a = Some x →
         ∃ x', h' !! a = Some x' ∧ samePayload x x'
               ∧ (a ∉ l1 ++ [sn] → Parent x' = Parent x)
               ∧ (a ≠ par → FirstChild x' = FirstChild x ∧ LastChild x' = LastChild x)).
Proof.
  intros C.
  destruct (removePrevSiblings_spec l1 (mem p) (S (length (mem p))) par sn l2 C)
    as (h1 & Hr & C1 & Hlen & Hdet & Hfr).
  { pose proof (children_length _ _ _ C) as Hl. rewrite length_app in Hl. lia. }
  destruct (children_focus h1 par [] sn l2 C1) as (pn & nd & _ & En & _ & Hpar & _).
  pose proof (remove_eq h1 par [] sn l2 C1) as Hrm.
  pose proof (splice_children h1 par [] sn l2 C1) as C2.
  set (h2 := spliceOut h1 par sn (last []) (head l2)) in *.
  exists h2. unfold releaseYielded. rewrite Hr. simpl. rewrite En. simpl.
  rewrite Hrm. simpl. rewrite Hpar.
  split; [done|]. split; [done|].
  split; [unfold h2; by rewrite spliceOut_length|].
  split.
  - intros a [Ha| ->%list_elem_of_singleton]%elem_of_app.
    + destruct (Hdet a Ha) as (x & Ex & Px).
      destruct (splice_frame h1 par [] sn l2 _ _ C1 Ex) as (y & Ey & _ & _ & Hp & _).
      exists y. split; [done|]. rewrite Hp; [done|].
      intros ->. pose proof (co_nodup _ _ _ C) as ND.
      apply NoDup_app in ND as (_ & Hd & _). apply (Hd sn Ha). left.
    + destruct (splice_frame h1 par [] sn l2 _ _ C1 En) as (y & Ey & _ & Hy & _).
      exists y. split; [done|]. by rewrite (Hy eq_refl).
  - intros a x Ex.
    destruct (Hfr _ _ Ex) as (y & Ey & Hpay & Hp & Hc).
    destruct (splice_frame h1 par [] sn l2 _ _ C1 Ey) as (z & Ez & Hpay' & _ & Hp' & Hc' & _).
    exists z. split; [done|]. split; [by eapply samePayload_trans|]. split.
    + intros Ha. rewrite Hp' by set_solver. apply Hp. set_solver.
    + intros Ha. destruct (Hc Ha) as [E1 E2]. destruct (Hc' Ha) as [E3 E4].
      split; congruence.
Qed.


(** C1 — Streaming yield/prune.  On the document of the example, with the
    target "/AAA/BBB": the first [Read] returns a node that serializes to
    <BBB>b1</BBB>, the tree then being the declaration and
    <AAA><BBB>b1</BBB></AAA>; the clean-up at the start of the second
    [Read] leaves AAA without children and the cursor on AAA; the second
    [Read] returns <BBB>b2</BBB>; the third returns io.EOF.  In general,
    when the yielded node [sn] sits in the child list [l1 ++ sn :: l2] of
    [par], [Read] first turns that list into [l2], leaves [sn] and every
    node of [l1] without parent, puts the cursor on [par], forgets the
    candidate, and then parses on. *)
Theorem stream_yield_prune :
  (let sp1 := (Read stream_AAA_BBB).2 in
   let sp2 := (Read sp1).2 in
   ∃ n1 n2,
     (Read stream_AAA_BBB).1 = Ok n1
     ∧ OutputXML (mem (sp_p sp1)) n1 true = Some "<BBB>b1</BBB>"%string
     ∧ OutputXML (mem (sp_p sp1)) (doc (sp_p sp1)) false
       = Some (xmlDecl ++ "<AAA><BBB>b1</BBB></AAA>")%string
     ∧ (p' ← releaseYielded (sp_p sp1) n1; OutputXML (mem p') (doc p') false)
       = Some (xmlDecl ++ "<AAA></AAA>")%string
     ∧ (p' ← releaseYielded (sp_p sp1) n1; nd ← prev p' ≫= (mem p' !!.); Some (Data nd))
       = Some "AAA"%string
     ∧ (Read sp1).1 = Ok n2
     ∧ OutputXML (mem (sp_p sp2)) n2 true = Some "<BBB>b2</BBB>"%string
     ∧ (Read sp2).1 = Err EOF)
  ∧ (∀ sp par l1 sn l2,
       streamNode (sp_p sp) = Some sn →
       children_of (mem (sp_p sp)) par (l1 ++ sn :: l2) →
       ∃ p', releaseYielded (sp_p sp) sn = Some p'
         ∧ Read sp = (let '(r, q) := parse p' in (r, mkStreamParser q))
         ∧ children_of (mem p') par l2
         ∧ (∀ a, a ∈ l1 ++ [sn] → ∃ x, mem p' !! a = Some x ∧ Parent x = None)
         ∧ prev p' = Some par
         ∧ streamNode p' = None ∧ streamNodePrev p' = None).
Proof.
  split.
  - exists 3%nat, 5%nat. repeat split; vm_compute; reflexivity.
  - intros [p] par l1 sn l2 Hs C. simpl in *.
    destruct (releaseYielded_spec p par l1 sn l2 C) as (h' & Hr & C' & _ & Hdet & _).
    eexists. split; [exact Hr|]. unfold Read. simpl. rewrite Hs, Hr.
    split; [reflexivity|]. split; [exact C'|]. split; [exact Hdet|]. by repeat split.
Qed.

Lemma stream_yield_prune_witness :
  let sp := (Read (newStreamParser doc_AAA_noise EOF (mkOptions None false)
                     xpath_AAA_BBB None)).2 in
  ∃ p', releaseYielded (sp_p sp) 4 = Some p'
    ∧ Read sp = (let '(r, q) := parse p' in (r, mkStreamParser q))
    ∧ children_of (mem p') 2 []
    ∧ (∀ a, a ∈ [3%nat] ++ [4%nat] → ∃ x, mem p' !! a = Some x ∧ Parent x = None)
    ∧ prev p' = Some 2%nat
    ∧ streamNode p' = None ∧ streamNodePrev p' = None.
Proof.
  intros sp.
  apply (proj2 stream_yield_prune sp 2%nat [3%nat] 4%nat []).
  - vm_compute. reflexivity.
  - split.
    + vm_compute. eexists; repeat split; reflexivity.
    + vm_compute. eexists; repeat split; try reflexivity.
      eexists; repeat split; reflexivity.
    + refine (bool_decide_unpack _ _); vm_compute; exact I.
    + refine (bool_decide_unpack _ _); vm_compute; exact I.
Defined.


(** ** The reject path of the stream filter *)

(** C2 — Two-phase filter, reject path.  At an end tag that brings the
    counter of the candidate [sn] to zero (it was 1), with a filter that
    selects nothing in the document: the step does not return; [sn] is
    removed from the child list [l1 ++ sn :: l2] of its parent at once and
    has no parent or siblings any more; the cursor is the saved
    [streamNodePrev]; the candidate is forgotten; and every other node,
    so every sibling consumed before the candidate, keeps its parent: the
    child list is [l1 ++ l2].  On the example with line breaks the first
    [Read] skips b1 and returns <BBB>b2</BBB> while both line-break text
    nodes are still children of AAA. *)
Theorem filter_reject_path :
  (∀ p f sn par l1 l2 nm,
     streamNode p = Some sn → streamElementFilter p = Some f →
     QuerySelector (mem p) (doc p) f = None →
     children_of (mem p) par (l1 ++ sn :: l2) →
     ∃ h',
       step (EndElement nm) p 1
       = Continue (setStream None None
                     (setPrev (streamNodePrev p) (setMem h' (setLevel (p_level p - 1) p)))) 0
       ∧ remove (mem p) sn = Some h'
       ∧ children_of h' par (l1 ++ l2)
       ∧ (∃ x, h' !! sn = Some x ∧ Parent x = None ∧ PrevSibling x = None
               ∧ NextSibling x = None)
       ∧ (∀ a x, a ≠ sn → mem p !! a = Some x →
            ∃ x', h' !! a = Some x' ∧ Parent x' = Parent x ∧ samePayload x x'))
  ∧ ((Read stream_reject_b1).1 = Ok 7%nat
     ∧ OutputXML (mem (sp_p (Read stream_reject_b1).2)) 7 true = Some "<BBB>b2</BBB>"%string
     ∧ children_of (mem (sp_p (Read stream_reject_b1).2)) 2 [3%nat; 6%nat; 7%nat]
     ∧ (Parent <$> mem (sp_p (Read stream_reject_b1).2) !! 4%nat) = Some None).
Proof.
  split.
  - intros p f sn par l1 l2 nm Hs Hf Hq C.
    exists (spliceOut (mem p) par sn (last l1) (head l2)).
    pose proof (remove_eq _ _ _ _ _ C) as Hrm.
    split.
    { simpl. unfold endElement. simpl. rewrite Hs. simpl. rewrite Hf, Hq. simpl.
      by rewrite Hrm. }
    split; [done|]. split; [by apply splice_children|]. split.
    + destruct (children_focus _ _ _ _ _ C) as (_ & nd & _ & En & _).
      destruct (splice_frame _ _ _ _ _ _ _ C En) as (x' & E' & _ & Hd & _).
      rewrite (Hd eq_refl) in E'. exists (detached nd). by repeat split.
    + intros a x Ha Ex.
      destruct (splice_frame _ _ _ _ _ _ _ C Ex) as (x' & E' & Hpay & _ & Hp & _).
      exists x'. split; [done|]. split; [by apply Hp|done].
  - split; [vm_compute; reflexivity|]. split; [vm_compute; reflexivity|]. split.
    + split.
      * vm_compute. eexists; repeat split; reflexivity.
      * vm_compute. eexists; repeat split; try reflexivity.
        eexists; repeat split; try reflexivity.
        eexists; repeat split; reflexivity.
      * refine (bool_decide_unpack _ _); vm_compute; exact I.
      * refine (bool_decide_unpack _ _); vm_compute; exact I.
    + vm_compute; reflexivity.
Qed.

Lemma filter_reject_path_witness :
  ∃ h',
    step (EndElement (mkName "" "BBB")) before_reject 1
    = Continue (setStream None None
                  (setPrev (streamNodePrev before_reject)
                     (setMem h' (setLevel (p_level before_reject - 1) before_reject)))) 0
    ∧ remove (mem before_reject) 4 = Some h'
    ∧ children_of h' 2 ([3%nat] ++ [])
    ∧ (∃ x, h' !! 4%nat = Some x ∧ Parent x = None ∧ PrevSibling x = None
            ∧ NextSibling x = None)
    ∧ (∀ a x, a ≠ 4%nat → mem before_reject !! a = Some x →
         ∃ x', h' !! a = Some x' ∧ Parent x' = Parent x ∧ samePayload x x').
Proof.
  apply (proj1 filter_reject_path before_reject xpath_AAA_BBB_not_b1 4%nat 2%nat
           [3%nat] [] (mkName "" "BBB")).
  - vm_compute; reflexivity.
  - reflexivity.
  - vm_compute; reflexivity.
  - split.
    + vm_compute. eexists; repeat split; reflexivity.
    + vm_compute. eexists; repeat split; try reflexivity.
      eexists; repeat split; reflexivity.
    + refine (bool_decide_unpack _ _); vm_compute; exact I.
    + refine (bool_decide_unpack _ _); vm_compute; exact I.
Defined.


(** ** What attaching a node changes *)

Lemma payloadKept_refl h : payloadKept h h.
Proof. split; [done|]. intros a x E. exists x. split; [done|apply samePayload_refl]. Qed.

Lemma payloadKept_trans h1 h2 h3 :
  payloadKept h1 h2 → payloadKept h2 h3 → payloadKept h1 h3.
Proof.
  intros [L1 F1] [L2 F2]. split; [congruence|]. intros a x E.
  destruct (F1 a x E) as (y & Ey & Py). destruct (F2 a y Ey) as (z & Ez & Pz).
  exists z. split; [done|]. by eapply samePayload_trans.
Qed.

Lemma payloadKept_alter f a h : linkEdit f → payloadKept h (alter f a h).
Proof.
  intros Hf. split; [apply length_alter|]. intros b x E.
  rewrite list_lookup_alter. case_decide; subst; rewrite E; simpl; eexists; split; try done.
Qed.

Lemma linkEdit_setParent v : linkEdit (setParent v).
Proof. by intros []. Qed.
Lemma linkEdit_setFirstChild v : linkEdit (setFirstChild v).
Proof. by intros []. Qed.
Lemma linkEdit_setLastChild v : linkEdit (setLastChild v).
Proof. by intros []. Qed.
Lemma linkEdit_setPrevSibling v : linkEdit (setPrevSibling v).
Proof. by intros []. Qed.
Lemma linkEdit_setNextSibling v : linkEdit (setNextSibling v).
Proof. by intros []. Qed.

Lemma upd_Some_alter (h : heap) a f h' : upd h a f = Some h' → is_Some (h !! a) ∧ h' = alter f a h.
Proof.
  intros H. destruct (upd_inv _ _ _ _ H) as (nd & E & ->). split; [eauto|].
  by apply insert_as_alter.
Qed.

(** [addChild] as one formula. *)
Lemma addChild_inv (h : heap) parent n h' :
  addChild h parent n = Some h' →
  ∃ pn, alter (setParent (Some parent)) n h !! parent = Some pn ∧ is_Some (h !! n)
    ∧ ((FirstChild pn = None
        ∧ h' = alter (setLastChild (Some n)) parent
                 (alter (setFirstChild (Some n)) parent
                    (alter (setParent (Some parent)) n h)))
       ∨ (∃ l, FirstChild pn ≠ None ∧ LastChild pn = Some l
            ∧ is_Some (h !! l)
            ∧ h' = alter (setLastChild (Some n)) parent
                     (alter (setPrevSibling (Some l)) n
                        (alter (setNextSibling (Some n)) l
                           (alter (setParent (Some parent)) n h))))).
Proof.
  unfold addChild. intros H.
  apply bind_Some in H as (h1 & H1 & H). apply upd_Some_alter in H1 as [Hn ->].
  apply bind_Some in H as (pn & Ep & H).
  apply bind_Some in H as (h2 & H2 & H). apply upd_Some_alter in H as [_ ->].
  exists pn. split; [done|]. split; [done|].
  destruct (FirstChild pn) as [c|] eqn:Ef.
  - right. apply bind_Some in H2 as (l & El & H2).
    apply bind_Some in H2 as (h3 & H3 & H2).
    apply upd_Some_alter in H3 as [Hl ->]. apply upd_Some_alter in H2 as [_ ->].
    exists l. split; [done|]. split; [done|]. split; [|done].
    rewrite list_lookup_alter in Hl. case_decide; subst; [|done].
    destruct Hn as [x ->]. by eexists.
  - left. apply upd_Some_alter in H2 as [_ ->]. done.
Qed.

(** [addSibling] as one formula. *)
Lemma addSibling_inv (h : heap) s n h' :
  addSibling h s n = Some h' →
  ∃ t tn, lastSibling (length h) h s = Some t ∧ h !! t = Some tn ∧ is_Some (h !! n)
    ∧ h' = match Parent tn with
           | Some pp => alter (setLastChild (Some n)) pp
           | None => id
           end (alter (setPrevSibling (Some t)) n
                  (alter (setNextSibling (Some n)) t
                     (alter (setParent (Parent tn)) n h))).
Proof.
  unfold addSibling. intros H.
  apply bind_Some in H as (t & Ht & H). apply bind_Some in H as (tn & Et & H).
  apply bind_Some in H as (h1 & H1 & H). apply upd_Some_alter in H1 as [Hn ->].
  apply bind_Some in H as (h2 & H2 & H). apply upd_Some_alter in H2 as [_ ->].
  apply bind_Some in H as (h3 & H3 & H). apply upd_Some_alter in H3 as [_ ->].
  apply bind_Some in H as (s3 & E3 & H).
  exists t, tn. split; [done|]. split; [done|]. split; [done|].
  assert (Hp : Parent s3 = Parent tn).
  { destruct (decide (n = t)) as [->|Hne].
    - rewrite !list_lookup_alter_eq, Et in E3. simpl in E3. by injection E3 as <-.
    - rewrite list_lookup_alter_ne, list_lookup_alter_eq, list_lookup_alter_ne, Et in E3
        by done. simpl in E3. by injection E3 as <-. }
  rewrite Hp in H. destruct (Parent tn) as [pp|].
  - apply upd_Some_alter in H as [_ ->]. done.
  - by injection H as <-.
Qed.

Lemma addChild_payloadKept (h : heap) parent n h' :
  addChild h parent n = Some h' → payloadKept h h'.
Proof.
  intros H. destruct (addChild_inv _ _ _ _ H) as (pn & _ & _ & [[_ ->]|(l & _ & _ & _ & ->)]);
    repeat (eapply payloadKept_trans; [|apply payloadKept_alter]);
    auto using payloadKept_refl, linkEdit_setParent, linkEdit_setFirstChild,
      linkEdit_setLastChild, linkEdit_setPrevSibling, linkEdit_setNextSibling.
Qed.

Lemma addSibling_payloadKept (h : heap) s n h' :
  addSibling h s n = Some h' → payloadKept h h'.
Proof.
  intros H. destruct (addSibling_inv _ _ _ _ H) as (t & tn & _ & _ & _ & ->).
  destruct (Parent tn); simpl;
    repeat (eapply payloadKept_trans; [|apply payloadKept_alter]);
    auto using payloadKept_refl, linkEdit_setParent, linkEdit_setFirstChild,
      linkEdit_setLastChild, linkEdit_setPrevSibling, linkEdit_setNextSibling.
Qed.

(** Attaching reads the parser and writes links: the level, the decoder,
    the namespace table and the stream fields stay, and so does the payload
    of every node. *)
Lemma attachNode_frame p n p' :
  attachNode p n = Some p' →
  payloadKept (mem p) (mem p')
  ∧ p_level p' = p_level p ∧ decoder p' = decoder p ∧ doc p' = doc p
  ∧ space2prefix p' = space2prefix p ∧ once p' = once p ∧ reader p' = reader p
  ∧ streamElementXPath p' = streamElementXPath p
  ∧ streamElementFilter p' = streamElementFilter p
  ∧ streamNode p' = streamNode p ∧ streamNodePrev p' = streamNodePrev p.
Proof.
  unfold attachNode. intros H.
  apply bind_Some in H as (pv & Epv & H). apply bind_Some in H as (pvn & En & H).
  repeat case_decide.
  - apply bind_Some in H as (h & Hh & [= <-]). simpl.
    split; [by eapply addSibling_payloadKept|done].
  - apply bind_Some in H as (h & Hh & [= <-]). simpl.
    split; [by eapply addChild_payloadKept|done].
  - apply bind_Some in H as (pv' & Hw & H). apply bind_Some in H as (a & Ea & H).
    apply bind_Some in H as (an & Ean & H). apply bind_Some in H as (s & Es & H).
    apply bind_Some in H as (h & Hh & [= <-]). simpl.
    split; [by eapply addSibling_payloadKept|done].
Qed.


(** ** CDATA or text *)

(** Upper-casing a byte gives a byte that is no small letter exactly when
    the two are the same letter. *)
Lemma upperByte_sameLetter d c :
  ¬ (97 ≤ nat_of_ascii c ≤ 122)%nat → upperByte d = c ↔ sameLetter d c.
Proof.
  intros Hc. unfold upperByte, sameLetter.
  pose proof (nat_ascii_bounded d) as Hd.
  destruct ((97 <=? nat_of_ascii d)%nat && (nat_of_ascii d <=? 122)%nat) eqn:E.
  - apply andb_true_iff in E as [E1 E2].
    apply Nat.leb_le in E1. apply Nat.leb_le in E2. split.
    + intros <-. right. exists (nat_of_ascii d - 97)%nat. split; [lia|]. right.
      rewrite nat_ascii_embedding by lia. lia.
    + intros [->|(k & Hk & [[H1 H2]|[H1 H2]])]; [lia|lia|].
      rewrite <-(ascii_nat_embedding c), H2. f_equal. lia.
  - apply andb_false_iff in E. rewrite !Nat.leb_gt in E. split.
    + intros ->. by left.
    + intros [->|(k & Hk & [[H1 H2]|[H1 H2]])]; [done|lia|lia].
Qed.

(** The prefix test on the upper-cased, cut cache is the case-blind prefix
    test on the cache itself, whenever the marker has no small letter and
    fits in the cut. *)
Lemma hasPrefix_upper_take marker : ∀ n s,
  noSmallLetter marker → (String.length marker ≤ n)%nat →
  HasPrefix (ToUpper (takeBytes n s)) marker = true ↔ beginsWith s marker.
Proof.
  unfold HasPrefix, beginsWith, noSmallLetter.
  induction marker as [|c marker IH]; intros n s Hm Hn.
  - split; [|by destruct (ToUpper (takeBytes n s))].
    intros _. exists EmptyString, s. split; [done|constructor].
  - simpl in Hn, Hm. apply Forall_cons in Hm as [Hc Hm].
    destruct n as [|n]; [lia|].
    destruct s as [|d s]; simpl.
    + split; [done|]. intros (m & rest & E & U). inversion U; subst. done.
    + destruct (ascii_dec c (upperByte d)) as [->|Hne].
      * rewrite IH by (done || lia). split.
        -- intros (m & rest & -> & U). exists (String d m), rest. split; [done|].
           constructor; [by apply upperByte_sameLetter|done].
        -- intros (m & rest & E & U). inversion U as [|d' c' m' k' Hs U']; subst.
           simpl in E. injection E as -> ->. by exists m', rest.
      * split; [done|]. intros (m & rest & E & U).
        inversion U as [|d' c' m' k' Hs U']; subst.
        simpl in E. injection E as -> ->.
        apply upperByte_sameLetter in Hs; [|done]. by destruct Hne.
Qed.

Lemma noSmallLetter_markers : noSmallLetter cdataMarker ∧ noSmallLetter cdataMarkerTail.
Proof.
  split; unfold noSmallLetter, cdataMarker, cdataMarkerTail; simpl;
    repeat (apply List.Forall_cons; [intros [H _]; vm_compute in H; lia|]); apply List.Forall_nil.
Qed.

Lemma charDataType_spec cache :
  (charDataType cache = CharDataNode
   ↔ beginsWith cache cdataMarker ∨ beginsWith cache cdataMarkerTail)
  ∧ (charDataType cache = TextNode
     ↔ ¬ (beginsWith cache cdataMarker ∨ beginsWith cache cdataMarkerTail)).
Proof.
  unfold charDataType, CacheWithLimit.
  destruct noSmallLetter_markers as [M1 M2].
  rewrite <-(hasPrefix_upper_take cdataMarker 9 cache) by (done || simpl; lia).
  rewrite <-(hasPrefix_upper_take cdataMarkerTail 9 cache) by (done || simpl; lia).
  destruct (HasPrefix _ cdataMarker), (HasPrefix _ cdataMarkerTail); simpl;
    intuition congruence.
Qed.

(** A leaf token, when its step goes through, leaves one new node in the
    arena, in the cell after the last, with the given type and data and the
    depth of the parser. *)
Lemma addLeaf_new_node p t data c p' c' :
  addLeaf p t data c = Continue p' c' →
  c' = c ∧ length (mem p') = S (length (mem p))
  ∧ ∃ nd, mem p' !! length (mem p) = Some nd
      ∧ NType nd = t ∧ Data nd = data ∧ level nd = p_level p.
Proof.
  unfold addLeaf, alloc.
  destruct (attachNode _ _) as [p1|] eqn:Ha; [|done]. intros [= <- <-].
  destruct (attachNode_frame _ _ _ Ha) as ([Hlen Hk] & _). simpl in *.
  split; [done|]. split; [by rewrite Hlen, length_app, Nat.add_comm|].
  destruct (Hk (length (mem p)) (newNode t data "" [] (p_level p))) as (x' & E & P).
  { by rewrite lookup_app_r, Nat.sub_diag by done. }
  exists x'. split; [done|]. destruct P as (? & ? & _ & _ & _ & _ & ?). by repeat split.
Qed.

(** The text of <a>![CDATA[hello</a> is no CDATA section, and the bytes
    cached for it do not begin with "<![CDATA[" in any letter case; its
    node is a CharData node all the same. *)
Lemma cdata_marker_without_bracket :
  ¬ beginsWith "![CDATA[hello<" cdataMarker
  ∧ match Parse doc_bang EOF with
    | Ok (d, h) =>
        children_of h 2 [3%nat]
        ∧ ((λ n, (NType n, Data n, FirstChild n)) <$> h !! 3%nat)
          = Some (CharDataNode, "![CDATA[hello"%string, None)
    | _ => False
    end.
Proof.
  split.
  - intros (m & rest & E & U). unfold cdataMarker in U.
    inversion U as [|c d m' k' Hs U']; subst. simpl in E. injection E as <- _.
    destruct Hs as [Hs|(k & Hk & [[H1 H2]|[H1 H2]])]; [discriminate Hs| |];
      vm_compute in H1; lia.
  - vm_compute. split; [|done]. split.
    + eexists; repeat split; reflexivity.
    + eexists; repeat split; reflexivity.
    + repeat constructor; intros H; repeat (inversion H as [|? ? ? H']; clear H; rename H' into H).
    + intros H; repeat (inversion H as [|? ? ? H']; clear H; rename H' into H).
Qed.

(** C3 — CDATA or text.  For every character-data token whose step goes
    through, the new node carries the data of the token and is a CharData
    node exactly when the cached bytes of the token begin, letter case
    aside, with the CDATA opening marker "<![CDATA[" or with that marker
    less its "<", "![CDATA[", and a Text node exactly when they do not;
    both markers fit in the 9 bytes the parser looks at.  Parsing
    <a><![CDATA[x]]></a> gives [a] the single child CharData "x"; parsing
    <a>x</a> gives it the single child Text "x". *)
Theorem cdata_or_text :
  (∀ p data c p' c',
     step (CharData data) p c = Continue p' c' →
     ∃ nd, mem p' !! length (mem p) = Some nd
       ∧ length (mem p') = S (length (mem p))
       ∧ Data nd = data
       ∧ ((NType nd = CharDataNode)
          ↔ (beginsWith (reader p) cdataMarker ∨ beginsWith (reader p) cdataMarkerTail))
       ∧ ((NType nd = TextNode)
          ↔ ¬ (beginsWith (reader p) cdataMarker ∨ beginsWith (reader p) cdataMarkerTail)))
  ∧ match Parse doc_cdata EOF with
    | Ok (d, h) =>
        children_of h 2 [3%nat]
        ∧ ((λ n, (NType n, Data n, FirstChild n)) <$> h !! 3%nat)
          = Some (CharDataNode, "x"%string, None)
        ∧ (Data <$> h !! 2%nat) = Some "a"%string
    | _ => False
    end
  ∧ match Parse doc_text EOF with
    | Ok (d, h) =>
        children_of h 2 [3%nat]
        ∧ ((λ n, (NType n, Data n, FirstChild n)) <$> h !! 3%nat)
          = Some (TextNode, "x"%string, None)
        ∧ (Data <$> h !! 2%nat) = Some "a"%string
    | _ => False
    end.
Proof.
  split; [|split].
  - intros p data c p' c' H. simpl in H.
    destruct (addLeaf_new_node _ _ _ _ _ _ H) as (_ & Hlen & nd & E & Ht & Hd & _).
    exists nd. split; [done|]. split; [done|]. split; [done|].
    rewrite Ht. apply charDataType_spec.
  - vm_compute. split; [|done]. split.
    + eexists; repeat split; reflexivity.
    + eexists; repeat split; reflexivity.
    + repeat constructor; intros H; repeat (inversion H as [|? ? ? H']; clear H; rename H' into H).
    + intros H; repeat (inversion H as [|? ? ? H']; clear H; rename H' into H).
  - vm_compute. split; [|done]. split.
    + eexists; repeat split; reflexivity.
    + eexists; repeat split; reflexivity.
    + repeat constructor; intros H; repeat (inversion H as [|? ? ? H']; clear H; rename H' into H).
    + intros H; repeat (inversion H as [|? ? ? H']; clear H; rename H' into H).
Qed.

Lemma cdata_or_text_witness :
  ∃ nd, mem after_small !! length (mem at_small) = Some nd
    ∧ Data nd = "![cDaTa[x"%string
    ∧ NType nd = CharDataNode.
Proof.
  destruct (proj1 cdata_or_text at_small "![cDaTa[x"%string 0 after_small 0)
    as (nd & E & _ & D & I & _); [vm_compute; reflexivity|].
  exists nd. split; [exact E|]. split; [exact D|]. apply I. right.
  exists "![cDaTa["%string, "x<"%string. split; [vm_compute; reflexivity|].
  unfold cdataMarkerTail.
  repeat (constructor;
          [first [by left
                 | right; exists 2%nat; split; [lia|]; vm_compute; lia
                 | right; exists 3%nat; split; [lia|]; vm_compute; lia
                 | right; exists 0%nat; split; [lia|]; vm_compute; lia
                 | right; exists 19%nat; split; [lia|]; vm_compute; lia]|]).
  constructor.
Defined.


(** ** The default-namespace rule *)

(** A declaration at depth 2 of a URI bound at the strictly greater depth 5
    does overwrite the binding. *)
Lemma xmlns_deeper_binding_overwritten :
  let m : gmap string xmlnsPrefix := {[ "urn:x"%string := mkPrefix "p" 5 ]} in
  m !! "urn:x"%string = Some (mkPrefix "p" 5)
  ∧ 5 > 2
  ∧ bindAttr 2 m (xmlnsDefault "urn:x") !! "urn:x"%string = Some (mkPrefix "" 2)
  ∧ bindAttr 2 m (xmlnsDefault "urn:x") ≠ m.
Proof.
  intros m. split; [done|]. split; [lia|].
  assert (E : bindAttr 2 m (xmlnsDefault "urn:x") !! "urn:x"%string = Some (mkPrefix "" 2)).
  { unfold bindAttr, m. simpl. rewrite lookup_singleton_eq. simpl.
    by rewrite lookup_insert_eq. }
  split; [done|]. intros Heq. rewrite Heq in E. unfold m in E.
  rewrite lookup_singleton_eq in E. discriminate.
Qed.

(** C4 (amended) — Default-namespace rule.  For an attribute whose local
    name is "xmlns", at current depth [lvl]: a URI not yet bound is bound to
    the empty prefix at [lvl]; a URI already bound is re-bound to the empty
    prefix at [lvl] exactly when the depth recorded in its binding is at
    least [lvl]; a binding recorded at a strictly smaller depth is left as
    it is; no other entry of the table changes. *)
Theorem xmlns_binding_rule (lvl : Z) (m : gmap string xmlnsPrefix) (att : xmlAttr) :
  Local (xName att) = "xmlns"%string →
  (m !! xValue att = None →
     bindAttr lvl m att = <[xValue att := mkPrefix "" lvl]> m)
  ∧ (∀ b, m !! xValue att = Some b → ns_level b >= lvl →
       bindAttr lvl m att = <[xValue att := mkPrefix "" lvl]> m)
  ∧ (∀ b, m !! xValue att = Some b → ns_level b < lvl → bindAttr lvl m att = m)
  ∧ (∀ uri, uri ≠ xValue att → bindAttr lvl m att !! uri = m !! uri).
Proof.
  intros Hl. unfold bindAttr. rewrite decide_True by done.
  split; [by intros ->|]. split; [|split].
  - intros b -> Hb. by rewrite decide_True.
  - intros b -> Hb. rewrite decide_False; [done|lia].
  - intros uri Hne. destruct (m !! xValue att) as [b|]; [case_decide|];
      by rewrite ?lookup_insert_ne.
Qed.

Lemma xmlns_binding_rule_witness :
  (books_table !! "urn:loc.gov:books"%string = None →
     bindAttr 3 books_table (xmlnsDefault "urn:loc.gov:books")
     = <["urn:loc.gov:books"%string := mkPrefix "" 3]> books_table)
  ∧ (∀ b, books_table !! "urn:loc.gov:books"%string = Some b → ns_level b >= 3 →
       bindAttr 3 books_table (xmlnsDefault "urn:loc.gov:books")
       = <["urn:loc.gov:books"%string := mkPrefix "" 3]> books_table)
  ∧ (∀ b, books_table !! "urn:loc.gov:books"%string = Some b → ns_level b < 3 →
       bindAttr 3 books_table (xmlnsDefault "urn:loc.gov:books") = books_table)
  ∧ (∀ uri, uri ≠ "urn:loc.gov:books"%string →
       bindAttr 3 books_table (xmlnsDefault "urn:loc.gov:books") !! uri = books_table !! uri).
Proof.
  apply (xmlns_binding_rule 3 books_table (xmlnsDefault "urn:loc.gov:books")).
  reflexivity.
Defined.


(** ** Unresolved namespaces *)

Lemma synthDecl_frame p p1 :
  synthDecl p = Some p1 →
  decoder p1 = decoder p ∧ space2prefix p1 = space2prefix p ∧ once p1 = once p
  ∧ doc p1 = doc p ∧ reader p1 = reader p
  ∧ streamElementXPath p1 = streamElementXPath p
  ∧ streamElementFilter p1 = streamElementFilter p
  ∧ streamNode p1 = streamNode p ∧ streamNodePrev p1 = streamNodePrev p
  ∧ p_level p1 = (if decide (p_level p = 0) then 1 else p_level p).
Proof.
  unfold synthDecl, alloc. case_decide as Hl.
  - intros H. apply bind_Some in H as (pv & _ & H). apply bind_Some in H as (h & _ & [= <-]).
    done.
  - by intros [= <-].
Qed.

(** C6 — Unresolved namespace.  At a start tag whose name has a non-empty
    name space that is not bound once the declarations of the tag itself
    are in the table: the step fails with the error "namespace ... is
    missing" exactly when the decoder is strict; with a tolerant decoder no
    error is raised by the step.  On the document of the missing-namespace
    test, [Parse] with the default (strict) decoder returns that error, and
    with a tolerant decoder it returns the tree, in which the child
    element carries the unresolved name space. *)
Theorem unresolved_namespace :
  (∀ p name attr c p1,
     synthDecl p = Some p1 →
     Space name ≠ ""%string →
     bindAttrs (p_level p1) (space2prefix p1) attr !! Space name = None →
     (Strict (decoder p) = true →
      step (StartElement name attr) p c
      = Fail (ErrNamespaceMissing (Space name))
             (setSpaces (once p1) (bindAttrs (p_level p1) (space2prefix p1) attr) p1))
     ∧ (Strict (decoder p) = false → ∀ e q, step (StartElement name attr) p c ≠ Fail e q)
     ∧ ((∃ q, step (StartElement name attr) p c = Fail (ErrNamespaceMissing (Space name)) q)
        ↔ Strict (decoder p) = true))
  ∧ Parse doc_missing_ns EOF = Err (ErrNamespaceMissing "myns")
  ∧ errorString (ErrNamespaceMissing "myns")
    = "xmlquery: invalid XML document, namespace myns is missing"%string
  ∧ match ParseWithOptions doc_missing_ns EOF tolerant with
    | Ok (d, h) =>
        ((λ n, (NType n, Data n, NamespaceURI n, Parent n)) <$> h !! 3%nat)
        = Some (ElementNode, "child"%string, "myns"%string, Some 2%nat)
    | _ => False
    end.
Proof.
  split; [|split; [|split]]; try (vm_compute; reflexivity).
  intros p name attr c p1 Hs Hn Hb.
  destruct (synthDecl_frame _ _ Hs) as (Hd & _).
  assert (Hstrict : Strict (decoder p) = true →
    step (StartElement name attr) p c
    = Fail (ErrNamespaceMissing (Space name))
           (setSpaces (once p1) (bindAttrs (p_level p1) (space2prefix p1) attr) p1)).
  { intros Hst. simpl. unfold startElement. rewrite Hs. simpl.
    rewrite bool_decide_eq_true_2 by done. rewrite bool_decide_eq_true_2 by done.
    rewrite Hd, Hst. done. }
  assert (Htol : Strict (decoder p) = false → ∀ e q, step (StartElement name attr) p c ≠ Fail e q).
  { intros Hst e q. simpl. unfold startElement. rewrite Hs. simpl.
    rewrite Hd, Hst, andb_false_r. unfold alloc.
    destruct (attachNode _ _) as [p3|]; [|done].
    destruct (rederivePrefix _ _) as [p4|]; [|done].
    by destruct (markStream _ _ _). }
  split; [done|]. split; [done|]. split.
  - intros [q Hq]. destruct (Strict (decoder p)) eqn:E; [done|].
    exfalso. exact (Htol eq_refl _ q Hq).
  - intros Hst. eexists. by apply Hstrict.
Qed.

Lemma unresolved_namespace_witness :
  let p := createParser doc_missing_ns EOF in
  let name := mkName "myns" "child" in
  (Strict (decoder p) = true →
   step (StartElement name []) p 0
   = Fail (ErrNamespaceMissing "myns")
          (setSpaces (once (default p (synthDecl p)))
             (bindAttrs (p_level (default p (synthDecl p)))
                (space2prefix (default p (synthDecl p))) [])
             (default p (synthDecl p))))
  ∧ (Strict (decoder p) = false → ∀ e q, step (StartElement name []) p 0 ≠ Fail e q)
  ∧ ((∃ q, step (StartElement name []) p 0 = Fail (ErrNamespaceMissing "myns") q)
     ↔ Strict (decoder p) = true).
Proof.
  intros p name.
  apply (proj1 unresolved_namespace p name [] 0 (default p (synthDecl p))).
  - vm_compute. reflexivity.
  - discriminate.
  - vm_compute. reflexivity.
Defined.


(** ** The selector cache *)
Section CacheProperties.
Context {CompileOptions CompiledExpr : Type}.
Variable compile : string -> CompileOptions -> error + CompiledExpr.
Variable format : CompileOptions -> string.

(** The cache key decides the outcome of compilation: two calls with the
    same key text ask for the same compilation. *)
Hypothesis key_decides : ∀ e o e' o',
  (e ++ format o)%string = (e' ++ format o')%string → compile e o = compile e' o'.

Lemma lookupKey_elem key (l : list (string * CompiledExpr)) v :
  lookupKey key l = Some v → (key, v) ∈ l.
Proof.
  unfold lookupKey. destruct (List.find _ l) as [[k w]|] eqn:E; [|done].
  intros [= <-]. apply find_some in E as [Hin Hk]. simpl in Hk.
  apply bool_decide_eq_true in Hk as ->. by apply list_elem_of_In.
Qed.

Lemma dropKey_elem key (l : list (string * CompiledExpr)) x : x ∈ dropKey key l → x ∈ l.
Proof. unfold dropKey. rewrite list_elem_of_filter. tauto. Qed.

Lemma removelast_elem (l : list (string * CompiledExpr)) x : x ∈ removelast l → x ∈ l.
Proof.
  induction l as [|y l IH]; [done|]. simpl. destruct l as [|z l]; [by intros ?%elem_of_nil|].
  intros [->|H]%elem_of_cons; [left|right; by apply IH].
Qed.

Lemma lruGet_elem (c : @lruCache CompiledExpr) key r c' x :
  lruGet c key = (r, c') → x ∈ entries c' → x ∈ entries c.
Proof.
  unfold lruGet. destruct (lookupKey key (entries c)) as [v|] eqn:E.
  - intros [= <- <-]. simpl. intros [->|H]%elem_of_cons.
    + by apply lookupKey_elem.
    + by eapply dropKey_elem.
  - by intros [= <- <-].
Qed.

Lemma lruAdd_elem (c : @lruCache CompiledExpr) key v x :
  x ∈ entries (lruAdd c key v) → x = (key, v) ∨ x ∈ entries c.
Proof.
  unfold lruAdd. destruct (lookupKey key (entries c)) as [w|] eqn:E.
  - cbn [entries]. intros [->|H]%elem_of_cons; [by left|right; by eapply dropKey_elem].
  - case_decide as Hd; cbn [entries].
    + intros H%removelast_elem. apply elem_of_cons in H as [->|H]; [by left|by right].
    + intros [->|H]%elem_of_cons; [by left|by right].
Qed.

(** Every entry of the cache holds the compiled form of every expression
    that has its key. *)
Lemma reachable_sound g :
  reachable compile format g →
  ∀ k v, (k, v) ∈ cacheEntries g →
    (∃ e o, k = (e ++ format o)%string ∧ compile e o = inr v)
    ∧ (∀ e o, k = (e ++ format o)%string → compile e o = inr v).
Proof.
  assert (Hboth : ∀ e o v, compile e o = inr v →
    (∃ e' o', (e ++ format o)%string = (e' ++ format o')%string ∧ compile e' o' = inr v)
    ∧ (∀ e' o', (e ++ format o)%string = (e' ++ format o')%string → compile e' o' = inr v)).
  { intros e o v Hc. split; [by exists e, o|]. intros e' o' Hk.
    by rewrite <-(key_decides _ _ _ _ Hk). }
  induction 1 as [disable bound|g disable bound Hr IH|g expr opts Hr IH]; intros k v.
  - by intros ?%elem_of_nil.
  - apply IH.
  - unfold getQuery. case_match; [apply IH|].
    set (c := match cache g with Some c => c | None => _ end).
    assert (Hc : ∀ x, x ∈ entries c → x ∈ cacheEntries g).
    { unfold c, cacheEntries. destruct (cache g); [done|]. by intros x ?%elem_of_nil. }
    destruct (lruGet c _) as [[w|] c'] eqn:Eg; simpl.
    + unfold cacheEntries. simpl. intros Hin. apply IH, Hc. by eapply lruGet_elem.
    + destruct (compile expr opts) as [err|w] eqn:Ec; unfold cacheEntries; simpl.
      * intros Hin. apply IH, Hc. by eapply lruGet_elem.
      * intros [[= -> ->]|Hin]%lruAdd_elem; [by apply Hboth|].
        apply IH, Hc. by eapply lruGet_elem.
Qed.

Lemma getQuery_result g expr opts :
  reachable compile format g →
  (getQuery compile format g expr opts).1 = compile expr opts.
Proof.
  intros Hr. unfold getQuery. case_match; [done|].
  set (c := match cache g with Some c => c | None => _ end).
  assert (Hc : ∀ x, x ∈ entries c → x ∈ cacheEntries g).
  { unfold c, cacheEntries. destruct (cache g); [done|]. by intros x ?%elem_of_nil. }
  unfold lruGet. destruct (lookupKey _ (entries c)) as [v|] eqn:El; simpl.
  - apply lookupKey_elem, Hc in El.
    destruct (reachable_sound g Hr _ _ El) as [_ Hs]. symmetry. by apply Hs.
  - by destruct (compile expr opts).
Qed.

Lemma getQuery_failure_not_stored g expr opts err :
  reachable compile format g →
  compile expr opts = inl err →
  cacheEntries (getQuery compile format g expr opts).2 = cacheEntries g.
Proof.
  intros Hr Hc. unfold getQuery. case_match; [done|].
  set (c := match cache g with Some c => c | None => _ end).
  assert (Hc' : entries c = cacheEntries g).
  { unfold c, cacheEntries. by destruct (cache g). }
  unfold lruGet. destruct (lookupKey _ (entries c)) as [v|] eqn:El; simpl.
  - apply lookupKey_elem in El. rewrite Hc' in El.
    destruct (reachable_sound g Hr _ _ El) as [_ Hs].
    specialize (Hs expr opts eq_refl). congruence.
  - rewrite Hc. done.
Qed.
End CacheProperties.

(** C10 — The selector cache is transparent.  Provided the key text decides
    the compilation (two calls with equal key ask for the same thing), in
    every state of the package variables that a program can reach:
    [getQuery] returns exactly what compiling directly returns, success or
    error; so its outcome is the same whatever the settings and the content
    of the cache; a failed compilation leaves the entries of the cache as
    they were; and every entry of the cache is a successful compilation of
    an expression with that key. *)
Theorem selector_cache_transparent {CompileOptions CompiledExpr : Type}
    (compile : string -> CompileOptions -> error + CompiledExpr)
    (format : CompileOptions -> string) :
  (∀ e o e' o', (e ++ format o)%string = (e' ++ format o')%string →
     compile e o = compile e' o') →
  ∀ g, reachable compile format g →
  ∀ expr opts,
    (getQuery compile format g expr opts).1 = compile expr opts
    ∧ (∀ g', reachable compile format g' →
         (getQuery compile format g' expr opts).1 = (getQuery compile format g expr opts).1)
    ∧ (∀ err, compile expr opts = inl err →
         cacheEntries (getQuery compile format g expr opts).2 = cacheEntries g)
    ∧ (∀ k v, (k, v) ∈ cacheEntries (getQuery compile format g expr opts).2 →
         ∃ e o, k = (e ++ format o)%string ∧ compile e o = inr v).
Proof.
  intros Hk g Hr expr opts.
  split; [by apply getQuery_result|]. split; [|split].
  - intros g' Hr'. by rewrite !getQuery_result.
  - intros err. by apply getQuery_failure_not_stored.
  - intros k v Hin.
    by destruct (reachable_sound compile format Hk _ (reach_query _ _ g expr opts Hr) k v Hin).
Qed.

Lemma selector_cache_transparent_witness :
  (getQuery toyCompile toyFormat toyGlobals "[" tt).1 = toyCompile "[" tt
  ∧ (∀ g', reachable toyCompile toyFormat g' →
       (getQuery toyCompile toyFormat g' "[" tt).1
       = (getQuery toyCompile toyFormat toyGlobals "[" tt).1)
  ∧ (∀ err, toyCompile "[" tt = inl err →
       cacheEntries (getQuery toyCompile toyFormat toyGlobals "[" tt).2
       = cacheEntries toyGlobals)
  ∧ (∀ k v, (k, v) ∈ cacheEntries (getQuery toyCompile toyFormat toyGlobals "[" tt).2 →
       ∃ e o, k = (e ++ toyFormat o)%string ∧ toyCompile e o = inr v).
Proof.
  apply (selector_cache_transparent toyCompile toyFormat).
  - intros e o e' o' H. unfold toyCompile. rewrite H. reflexivity.
  - apply reach_query, reach_init.
Defined.


(** ** The matcher and the language of an expression *)

Lemma nullable_lang r : nullable r = true ↔ lang r [].
Proof.
  induction r as [| |ok|r1 IH1 r2 IH2|r1 IH1 r2 IH2|r IH]; simpl.
  - split; [done|]. inversion 1.
  - split; [constructor|done].
  - split; [done|]. inversion 1.
  - rewrite andb_true_iff, IH1, IH2. split.
    + intros [H1 H2]. by apply (lang_cat _ _ [] []).
    + inversion 1 as [| |? ? s1 s2 H1 H2 E1 E2| | | |]. apply app_eq_nil in E2 as [-> ->]. done.
  - rewrite orb_true_iff, IH1, IH2. split.
    + intros [H|H]; [by apply lang_alt_l|by apply lang_alt_r].
    + inversion 1; auto.
  - split; [constructor|done].
Qed.

Lemma deriv_lang r : ∀ c s, lang (deriv c r) s ↔ lang r (c :: s).
Proof.
  induction r as [| |ok|r1 IH1 r2 IH2|r1 IH1 r2 IH2|r IH]; intros c s; simpl.
  - split; inversion 1.
  - split; inversion 1.
  - destruct (ok c) eqn:E; split.
    + inversion 1. by constructor.
    + inversion 1. constructor.
    + inversion 1.
    + inversion 1; congruence.
  - assert (Hcat : lang (Cat (deriv c r1) r2) s ↔
        ∃ s1 s2, s = s1 ++ s2 ∧ lang r1 (c :: s1) ∧ lang r2 s2).
    { split.
      - inversion 1 as [| |? ? s1 s2 H1 H2| | | |]; subst. exists s1, s2. by rewrite <-IH1.
      - intros (s1 & s2 & -> & H1 & H2). constructor; [by apply IH1|done]. }
    assert (Hall : lang (Cat r1 r2) (c :: s) ↔
        (∃ s1 s2, s = s1 ++ s2 ∧ lang r1 (c :: s1) ∧ lang r2 s2)
        ∨ (lang r1 [] ∧ lang r2 (c :: s))).
    { split.
      - inversion 1 as [| |? ? s1 s2 H1 H2 E1 E2| | | |]; subst.
        destruct s1 as [|d s1]; simpl in E2.
        + right. by subst.
        + injection E2 as E2a E2b. subst. left. by exists s1, s2.
      - intros [(s1 & s2 & -> & H1 & H2)|[H1 H2]].
        + by apply (lang_cat _ _ (c :: s1) s2).
        + by apply (lang_cat _ _ [] (c :: s)). }
    rewrite Hall. destruct (nullable r1) eqn:En.
    + apply nullable_lang in En. split.
      * inversion 1; subst; [left; by apply Hcat|right; split; [done|by apply IH2]].
      * intros [H|[_ H]]; [apply lang_alt_l; by apply Hcat|apply lang_alt_r; by apply IH2].
    + rewrite Hcat. split; [by left|]. intros [H|[H _]]; [done|].
      apply nullable_lang in H. congruence.
  - split.
    + inversion 1; subst; [apply lang_alt_l; by apply IH1|apply lang_alt_r; by apply IH2].
    + inversion 1; subst; [apply lang_alt_l; by apply IH1|apply lang_alt_r; by apply IH2].
  - split.
    + inversion 1 as [| |? ? s1 s2 H1 H2| | | |]; subst.
      apply (lang_star_cons _ (c :: s1) s2); [by apply IH|done].
    + remember (Star r) as r' eqn:Er. remember (c :: s) as cs eqn:Ecs.
      intros H. revert c s Er Ecs.
      induction H as [| | | | | |r0 s1 s2 H1 _ H2 IH2']; intros c' s' Er Ecs; try done.
      injection Er as ->. destruct s1 as [|d s1]; simpl in Ecs.
      * by apply IH2'.
      * injection Ecs as Ea Eb. subst. constructor; [by apply IH|done].
Qed.

Lemma matchPrefix_lang r : ∀ s,
  matchPrefix r s = true ↔ ∃ s1 s2, s = s1 ++ s2 ∧ lang r s1.
Proof.
  intros s. revert r. induction s as [|c s IH]; intros r; simpl.
  - rewrite orb_false_r, nullable_lang. split.
    + intros H. by exists [], [].
    + intros (s1 & s2 & E & H). symmetry in E. by apply app_eq_nil in E as [-> _].
  - rewrite orb_true_iff, nullable_lang, IH. split.
    + intros [H|(s1 & s2 & -> & H)].
      * by exists [], (c :: s).
      * exists (c :: s1), s2. split; [done|]. by apply deriv_lang.
    + intros (s1 & s2 & E & H). destruct s1 as [|d s1]; simpl in E.
      * by left.
      * injection E as Ea Eb. subst. right. exists s1, s2. split; [done|]. by apply deriv_lang.
Qed.

Lemma matchAnywhere_lang r : ∀ s,
  matchAnywhere r s = true ↔ ∃ s0 s1 s2, s = s0 ++ s1 ++ s2 ∧ lang r s1.
Proof.
  induction s as [|c s IH]; cbn [matchAnywhere].
  - rewrite orb_false_r, matchPrefix_lang. split.
    + intros (s1 & s2 & E & H). by exists [], s1, s2.
    + intros (s0 & s1 & s2 & E & H). symmetry in E.
      apply app_eq_nil in E as [_ E]. exists s1, s2. by rewrite E.
  - rewrite orb_true_iff, IH, matchPrefix_lang. split.
    + intros [(s1 & s2 & E & H)|(s0 & s1 & s2 & -> & H)].
      * exists [], s1, s2. by rewrite E.
      * by exists (c :: s0), s1, s2.
    + intros (s0 & s1 & s2 & E & H). destruct s0 as [|d s0]; simpl in E.
      * left. by exists s1, s2.
      * injection E as Ea Eb. subst. right. by exists s0, s1, s2.
Qed.


(** ** The language of [xmlMIMERegex] *)

Lemma lang_cat_iff r1 r2 s :
  lang (Cat r1 r2) s ↔ ∃ s1 s2, s = s1 ++ s2 ∧ lang r1 s1 ∧ lang r2 s2.
Proof.
  split.
  - inversion 1; subst. eauto.
  - intros (s1 & s2 & -> & H1 & H2). by constructor.
Qed.

Lemma lang_alt_iff r1 r2 s : lang (Alt r1 r2) s ↔ lang r1 s ∨ lang r2 s.
Proof.
  split.
  - inversion 1; subst; auto.
  - intros [H|H]; [by apply lang_alt_l|by apply lang_alt_r].
Qed.

Lemma lang_eps_iff s : lang Eps s ↔ s = [].
Proof. split; [by inversion 1|intros ->; constructor]. Qed.

Lemma lang_sym_iff ok s : lang (Sym ok) s ↔ ∃ c, s = [c] ∧ ok c = true.
Proof.
  split.
  - inversion 1; subst. eauto.
  - intros (c & -> & H). by constructor.
Qed.

Lemma lang_opt_iff r s : lang (Opt r) s ↔ lang r s ∨ s = [].
Proof. unfold Opt. by rewrite lang_alt_iff, lang_eps_iff. Qed.

Lemma byteZ_bounded c : 0 ≤ byteZ c < 256.
Proof. unfold byteZ. pose proof (nat_ascii_bounded c). lia. Qed.

Ltac split_tests :=
  repeat match goal with
         | |- context [?a =? ?b] => destruct (Z.eqb_spec a b); simpl in *
         | |- context [?a <=? ?b] => destruct (Z.leb_spec a b); simpl in *
         end.

Lemma SimpleFold_capital n : 65 ≤ n ≤ 90 → n ≠ 75 → n ≠ 83 → SimpleFold n = n + 32.
Proof. intros. unfold SimpleFold. split_tests; lia. Qed.

Lemma SimpleFold_small n : 97 ≤ n ≤ 122 → n ≠ 107 → n ≠ 115 → SimpleFold n = n - 32.
Proof. intros. unfold SimpleFold. split_tests; lia. Qed.

Lemma SimpleFold_other n :
  0 ≤ n < 256 → ¬ 65 ≤ n ≤ 90 → ¬ 97 ≤ n ≤ 122 → SimpleFold n = n.
Proof. intros. unfold SimpleFold. split_tests; lia. Qed.

(** The loop over the circle of a literal byte finds exactly the runes of
    the same letter. *)
Lemma matchRune_sameCase c r : matchRune (byteZ c) r = true ↔ sameCase r c.
Proof.
  unfold sameCase. pose proof (byteZ_bounded c) as Hb.
  generalize dependent (byteZ c). intros n Hb.
  assert (Hn : n = 75 ∨ n = 107 ∨ n = 83 ∨ n = 115
               ∨ (65 ≤ n ≤ 90 ∧ n ≠ 75 ∧ n ≠ 83)
               ∨ (97 ≤ n ≤ 122 ∧ n ≠ 107 ∧ n ≠ 115)
               ∨ (¬ 65 ≤ n ≤ 90 ∧ ¬ 97 ≤ n ≤ 122)) by lia.
  unfold matchRune. cbn [foldLoop].
  destruct Hn as [->|[->|[->|[->|[(H1 & H2 & H3)|[(H1 & H2 & H3)|[H1 H2]]]]]]].
  - cbn. split_tests; (split; [intros HH; first [discriminate HH|lia]|intros HH; first [reflexivity|exfalso; lia]]).
  - cbn. split_tests; (split; [intros HH; first [discriminate HH|lia]|intros HH; first [reflexivity|exfalso; lia]]).
  - cbn. split_tests; (split; [intros HH; first [discriminate HH|lia]|intros HH; first [reflexivity|exfalso; lia]]).
  - cbn. split_tests; (split; [intros HH; first [discriminate HH|lia]|intros HH; first [reflexivity|exfalso; lia]]).
  - rewrite (SimpleFold_capital n) by done.
    rewrite (SimpleFold_small (n + 32)) by lia.
    split_tests; (split; [intros HH; first [discriminate HH|lia]|intros HH; first [reflexivity|exfalso; lia]]).
  - rewrite (SimpleFold_small n) by done.
    rewrite (SimpleFold_capital (n - 32)) by lia.
    split_tests; (split; [intros HH; first [discriminate HH|lia]|intros HH; first [reflexivity|exfalso; lia]]).
  - rewrite (SimpleFold_other n) by done.
    split_tests; (split; [intros HH; first [discriminate HH|lia]|intros HH; first [reflexivity|exfalso; lia]]).
Qed.

Lemma lang_ichar c s : lang (ichar c) s ↔ ieq s (String c EmptyString).
Proof.
  unfold ichar, ieq. rewrite lang_sym_iff. simpl. split.
  - intros (r & -> & H). constructor; [by apply matchRune_sameCase|constructor].
  - intros H. apply Forall2_cons_inv_r in H as (r & t & Hr & Ht & ->).
    apply Forall2_nil_inv_r in Ht as ->. exists r. split; [done|].
    by apply matchRune_sameCase.
Qed.

Lemma lang_ilit lit : ∀ s, lang (ilit lit) s ↔ ieq s lit.
Proof.
  induction lit as [|c lit IH]; intros s; simpl.
  - rewrite lang_eps_iff. unfold ieq. simpl. split.
    + intros ->. constructor.
    + by intros ->%Forall2_nil_inv_r.
  - rewrite lang_cat_iff. unfold ieq in *. simpl. split.
    + intros (s1 & s2 & -> & H1 & H2). apply lang_ichar in H1. apply IH in H2.
      unfold ieq in H1. simpl in H1.
      apply Forall2_cons_inv_r in H1 as (r & t & Hr & Ht & ->).
      apply Forall2_nil_inv_r in Ht as ->. simpl. by constructor.
    + intros H. apply Forall2_cons_inv_r in H as (r & t & Hr & Ht & ->).
      exists [r], t. split; [done|]. split; [|by apply IH].
      apply lang_ichar. unfold ieq. simpl. constructor; [done|constructor].
Qed.

Lemma ieq_app s1 s2 l1 l2 : ieq s1 l1 → ieq s2 l2 → ieq (s1 ++ s2) (l1 ++ l2).
Proof.
  unfold ieq. intros H1 H2.
  replace (list_ascii_of_string (l1 ++ l2))
    with (list_ascii_of_string l1 ++ list_ascii_of_string l2).
  - by apply Forall2_app.
  - clear. induction l1 as [|c l1 IH]; simpl; [done|]. by rewrite IH.
Qed.

Lemma ieq_app_inv s l1 l2 :
  ieq s (l1 ++ l2) → ∃ s1 s2, s = s1 ++ s2 ∧ ieq s1 l1 ∧ ieq s2 l2.
Proof.
  unfold ieq. intros H.
  replace (list_ascii_of_string (l1 ++ l2))
    with (list_ascii_of_string l1 ++ list_ascii_of_string l2) in H.
  - apply Forall2_app_inv_r in H as (s1 & s2 & H1 & H2 & ->). by exists s1, s2.
  - clear. induction l1 as [|c l1 IH]; simpl; [done|]. by rewrite IH.
Qed.

Lemma lang_star_class r (cls : rune → Prop) :
  (∀ s, lang r s ↔ ∃ c, s = [c] ∧ cls c) →
  ∀ s, lang (Star r) s ↔ Forall cls s.
Proof.
  intros Hr s. split.
  - remember (Star r) as r' eqn:Er. intros H. revert Er.
    induction H as [| | | | | |r0 s1 s2 H1 _ H2 IH2]; intros Er; try done.
    injection Er as ->. apply Hr in H1 as (c & -> & Hc). simpl. constructor; [done|by apply IH2].
  - induction 1 as [|c s Hc _ IH]; [constructor|].
    apply (lang_star_cons _ [c] s); [|done]. apply Hr. eauto.
Qed.

Lemma lang_plus_class r (cls : rune → Prop) :
  (∀ s, lang r s ↔ ∃ c, s = [c] ∧ cls c) →
  ∀ s, lang (Plus r) s ↔ s ≠ [] ∧ Forall cls s.
Proof.
  intros Hr s. unfold Plus. rewrite lang_cat_iff. split.
  - intros (s1 & s2 & -> & H1 & H2). apply Hr in H1 as (c & -> & Hc).
    apply (lang_star_class _ _ Hr) in H2. split; [done|]. by constructor.
  - intros [Hne H]. destruct H as [|c s Hc H]; [done|].
    exists [c], s. split; [done|]. split; [apply Hr; eauto|by apply (lang_star_class _ _ Hr)].
Qed.

(** The folded class [\w] holds the word characters of ASCII, the long s
    and the Kelvin sign. *)
Lemma wordRune_spec r :
  wordRune r = true
  ↔ 48 ≤ r ≤ 57 ∨ 65 ≤ r ≤ 90 ∨ 97 ≤ r ≤ 122 ∨ r = 95 ∨ r = 383 ∨ r = 8490.
Proof.
  assert (Hr : r = 75 ∨ r = 107 ∨ r = 8490 ∨ r = 83 ∨ r = 115 ∨ r = 383
               ∨ (65 ≤ r ≤ 90 ∧ r ≠ 75 ∧ r ≠ 83)
               ∨ (97 ≤ r ≤ 122 ∧ r ≠ 107 ∧ r ≠ 115)
               ∨ (¬ 65 ≤ r ≤ 90 ∧ ¬ 97 ≤ r ≤ 122 ∧ r ≠ 8490 ∧ r ≠ 383)) by lia.
  unfold wordRune.
  destruct Hr as [->|[->|[->|[->|[->|[->|[(H1 & H2 & H3)|[(H1 & H2 & H3)|(H1 & H2 & H3 & H4)]]]]]]]];
    try (split; [intros _; lia|intros _; reflexivity]).
  - rewrite (SimpleFold_capital r) by done.
    unfold perlWord. split_tests;
      (split; [intros HH; first [discriminate HH|lia]|intros HH; first [reflexivity|exfalso; lia]]).
  - rewrite (SimpleFold_small r) by done.
    unfold perlWord. split_tests;
      (split; [intros HH; first [discriminate HH|lia]|intros HH; first [reflexivity|exfalso; lia]]).
  - assert (E : SimpleFold r = r) by (unfold SimpleFold; split_tests; lia).
    rewrite !E. unfold perlWord. split_tests;
      (split; [intros HH; first [discriminate HH|lia]|intros HH; first [reflexivity|exfalso; lia]]).
Qed.

Ltac byte_bounds :=
  match goal with
  | |- context [byteZ ?c] =>
      let v := eval vm_compute in (byteZ c) in change (byteZ c) with v
  end; lia.

Lemma sameCase_plain r c :
  ¬ 65 ≤ byteZ c ≤ 90 → ¬ 97 ≤ byteZ c ≤ 122 → sameCase r c ↔ r = byteZ c.
Proof. unfold sameCase. lia. Qed.

Lemma subtype_class s :
  lang (Alt (Sym wordRune) (Alt (ichar ".") (ichar "-"))) s
  ↔ ∃ c, s = [c] ∧ subtypeRune c.
Proof.
  rewrite !lang_alt_iff. unfold ichar. rewrite !lang_sym_iff.
  unfold subtypeRune. split.
  - intros [(c & -> & H)|[(c & -> & H)|(c & -> & H)]]; exists c; (split; [done|]).
    + apply wordRune_spec in H. lia.
    + apply matchRune_sameCase, sameCase_plain in H; [|byte_bounds..].
      change (byteZ ".") with 46 in H. lia.
    + apply matchRune_sameCase, sameCase_plain in H; [|byte_bounds..].
      change (byteZ "-") with 45 in H. lia.
  - intros (c & -> & H).
    destruct (decide (c = 46)) as [->|].
    { right; left. exists 46. split; [done|].
      apply matchRune_sameCase, sameCase_plain; [byte_bounds..|done]. }
    destruct (decide (c = 45)) as [->|].
    { right; right. exists 45. split; [done|].
      apply matchRune_sameCase, sameCase_plain; [byte_bounds..|done]. }
    left. exists c. split; [done|]. apply wordRune_spec. lia.
Qed.

(** The expression matches exactly the strings of the family. *)
Lemma xmlMIMERegex_lang m : lang xmlMIMERegex m ↔ xmlFamily m.
Proof.
  unfold xmlMIMERegex, xmlFamily.
  rewrite lang_cat_iff. setoid_rewrite lang_cat_iff.
  split.
  - intros (s1 & s2 & -> & H1 & (t1 & t2 & -> & Hwb & Hxml)).
    apply lang_ilit in Hxml.
    assert (Htail : ieq (t1 ++ t2) "xml" ∨ ieq (t1 ++ t2) "wbxml").
    { apply lang_opt_iff in Hwb as [Hwb| ->]; [|by left].
      right. apply lang_ilit in Hwb. by apply (ieq_app _ _ "wb" "xml"). }
    apply lang_alt_iff in H1 as [H1|H1].
    + apply lang_cat_iff in H1 as (ty & rest & -> & Hty & Hrest).
      apply lang_cat_iff in Hrest as (sl & sub & -> & Hsl & Hsub).
      exists (ty ++ sl), sub, (t1 ++ t2). split; [by rewrite <-!app_assoc|]. split; [done|].
      right. split.
      * apply lang_ichar in Hsl.
        rewrite !lang_alt_iff, !lang_ilit in Hty.
        destruct Hty as [H|[H|[H|H]]].
        -- left. by apply (ieq_app _ _ "application" "/").
        -- right; left. by apply (ieq_app _ _ "image" "/").
        -- right; right; left. by apply (ieq_app _ _ "message" "/").
        -- right; right; right. by apply (ieq_app _ _ "model" "/").
      * apply lang_opt_iff in Hsub as [Hsub| ->]; [|by left]. right.
        apply lang_cat_iff in Hsub as (w & pl & -> & Hw & Hpl).
        apply (lang_plus_class _ _ subtype_class) in Hw as [Hne Hw].
        exists w. split; [done|]. split; [done|].
        apply lang_opt_iff in Hpl as [Hpl| ->]; [|left; by rewrite app_nil_r].
        right. unfold ichar in Hpl. apply lang_sym_iff in Hpl as (c & -> & Hc).
        apply matchRune_sameCase, sameCase_plain in Hc; [|byte_bounds..].
        by rewrite Hc.
    + exists s1, [], (t1 ++ t2). split; [done|]. split; [done|]. left.
      split; [|done]. by apply lang_ilit.
  - intros (head & sub & tail & -> & Htail & Hhead).
    exists (head ++ sub).
    assert (Ht : ∃ t1 t2, tail = t1 ++ t2 ∧ lang (Opt (ilit "wb")) t1 ∧ lang (ilit "xml") t2).
    { destruct Htail as [H|H].
      - exists [], tail. split; [done|]. split; [apply lang_opt_iff; by right|by apply lang_ilit].
      - apply (ieq_app_inv _ "wb" "xml") in H as (t1 & t2 & -> & Ha & Hb).
        exists t1, t2. split; [done|]. split.
        + apply lang_opt_iff. left. by apply lang_ilit.
        + by apply lang_ilit. }
    destruct Ht as (t1 & t2 & -> & Ht1 & Ht2).
    exists (t1 ++ t2). split; [by rewrite <-app_assoc|]. split; [|by exists t1, t2].
    apply lang_alt_iff. destruct Hhead as [[Hh ->]|[Hh Hsub]].
    + right. rewrite app_nil_r. by apply lang_ilit.
    + left.
      assert (Hsplit : ∃ ty sl, head = ty ++ sl ∧ ieq sl "/" ∧
         (ieq ty "application" ∨ ieq ty "image" ∨ ieq ty "message" ∨ ieq ty "model")).
      { destruct Hh as [H|[H|[H|H]]].
        - apply (ieq_app_inv _ "application" "/") in H as (ty & sl & -> & ? & ?).
          exists ty, sl. split; [done|]. split; [done|]. by left.
        - apply (ieq_app_inv _ "image" "/") in H as (ty & sl & -> & ? & ?).
          exists ty, sl. split; [done|]. split; [done|]. right; by left.
        - apply (ieq_app_inv _ "message" "/") in H as (ty & sl & -> & ? & ?).
          exists ty, sl. split; [done|]. split; [done|]. right; right; by left.
        - apply (ieq_app_inv _ "model" "/") in H as (ty & sl & -> & ? & ?).
          exists ty, sl. split; [done|]. split; [done|]. by do 3 right. }
      destruct Hsplit as (ty & sl & -> & Hsl & Hty).
      apply lang_cat_iff. exists ty, (sl ++ sub). split; [by rewrite <-app_assoc|]. split.
      * rewrite !lang_alt_iff, !lang_ilit. done.
      * apply lang_cat_iff. exists sl, sub. split; [done|]. split; [by apply lang_ichar|].
        apply lang_opt_iff. destruct Hsub as [->|(w & Hne & Hw & Hs)]; [by right|left].
        apply lang_cat_iff. destruct Hs as [->| ->].
        -- exists w, []. split; [by rewrite app_nil_r|].
           split; [by apply (lang_plus_class _ _ subtype_class)|apply lang_opt_iff; by right].
        -- exists w, [43]. split; [done|].
           split; [by apply (lang_plus_class _ _ subtype_class)|].
           apply lang_opt_iff. left. unfold ichar. apply lang_sym_iff. by exists 43.
Qed.


(** ** LoadURL *)

Lemma MatchString_family ct : MatchString xmlMIMERegex ct = true ↔ hasXmlFamily ct.
Proof.
  unfold MatchString, hasXmlFamily. rewrite matchAnywhere_lang.
  by setoid_rewrite xmlMIMERegex_lang.
Qed.

(** "text/html" is a text type and is turned away; "application/ATXML" has
    a subtype that neither is "xml" nor ends in "+xml" and is let through
    (both as in the tests of LoadURL). *)
Lemma text_html_is_rejected :
  HasPrefix "text/html" "text/" = true
  ∧ LoadURL (inr (respondWith "text/html")) = Err (ErrContentType "text/html")
  ∧ MatchString xmlMIMERegex "application/ATXML" = true
  ∧ LoadURL (inr (respondWith "application/ATXML")) = Parse doc_text EOF.
Proof. repeat split; vm_compute; reflexivity. Qed.

(** C8 (amended) — The content-type gate of LoadURL.  The body is parsed
    exactly when some part of the Content-Type, read as UTF-8, is "text/"
    or one of "application/", "image/", "message/", "model/" followed by
    nothing or by one or more word characters, dots or hyphens and an
    optional "+", and then "xml" or "wbxml"; letter case is folded as
    Unicode folds it, so that the long s U+017F also stands for s and the
    Kelvin sign U+212A for k, and both are word characters.  Any other
    Content-Type gives the error "invalid XML document(<content-type>)";
    an error of the transport is returned as it is. *)
Theorem LoadURL_content_type_gate :
  (∀ resp, hasXmlFamily (contentType resp) →
     LoadURL (inr resp) = Parse (body resp) (bodyEnd resp))
  ∧ (∀ resp, ¬ hasXmlFamily (contentType resp) →
       LoadURL (inr resp) = Err (ErrContentType (contentType resp)))
  ∧ (∀ ct, errorString (ErrContentType ct) = ("invalid XML document(" ++ ct ++ ")")%string)
  ∧ (∀ err, LoadURL (inl err) = Err err).
Proof.
  split; [|split; [|split]]; try done.
  - intros resp H. apply MatchString_family in H. simpl. by rewrite H.
  - intros resp H. simpl. destruct (MatchString _ _) eqn:E; [|done].
    by apply MatchString_family in E.
Qed.

Lemma LoadURL_content_type_gate_witness :
  LoadURL (inr (respondWith "image/svg+xml")) = Parse doc_text EOF
  ∧ LoadURL (inr (respondWith long_s_type)) = Parse doc_text EOF
  ∧ LoadURL (inr (respondWith "text/css")) = Err (ErrContentType "text/css").
Proof.
  split; [|split].
  - apply (proj1 LoadURL_content_type_gate (respondWith "image/svg+xml")).
    apply MatchString_family. vm_compute. reflexivity.
  - apply (proj1 LoadURL_content_type_gate (respondWith long_s_type)).
    apply MatchString_family. vm_compute. reflexivity.
  - apply (proj1 (proj2 LoadURL_content_type_gate) (respondWith "text/css")).
    intros H. apply MatchString_family in H. vm_compute in H. discriminate.
Defined.


(** ** Links under construction *)

Lemma stable_refl h : stable h h.
Proof. split; [done|]. intros a x E. exists x. by repeat split. Qed.

Lemma stable_trans h1 h2 h3 : stable h1 h2 → stable h2 h3 → stable h1 h3.
Proof.
  intros [L1 F1] [L2 F2]. split; [lia|]. intros a x E.
  destruct (F1 a x E) as (y & Ey & ? & ? & ? & ? & ? & ? & Hn & Hf).
  destruct (F2 a y Ey) as (z & Ez & ? & ? & ? & ? & ? & ? & Hn' & Hf').
  exists z. split; [done|]. repeat split; try congruence.
  - intros b Hb. by apply Hn', Hn.
  - intros c Hc. by apply Hf', Hf.
Qed.

Lemma reach_stable h h' c a : stable h h' → reach h c a → reach h' c a.
Proof.
  intros [_ F]. induction 1 as [a|b y a E _ IH]; [constructor|].
  destruct (F b y E) as (y' & E' & _ & _ & _ & _ & _ & _ & Hn & _).
  apply (reach_next _ b y'); [done|].
  destruct (NextSibling y) as [d|] eqn:Ey; [by rewrite (Hn d eq_refl)|inversion IH].
Qed.

Lemma reach_trans h c b a y :
  reach h c b → h !! b = Some y → reach h (NextSibling y) a → reach h c a.
Proof.
  induction 1 as [b|d z b E _ IH]; intros Ey Hr.
  - by apply (reach_next _ b y).
  - apply (reach_next _ d z); [done|]. by apply IH.
Qed.

(** The walk of [addSibling] from a cell of [h], in [h] extended by a fresh
    node: it ends on a cell of [h] without next sibling that is reached
    from the start. *)
Lemma lastSibling_fresh h nd : ∀ fuel s t,
  wfLinks h → (s < length h)%nat →
  lastSibling fuel (h ++ [nd]) s = Some t →
  ∃ tn, (t < length h)%nat ∧ h !! t = Some tn ∧ NextSibling tn = None
        ∧ (t = s ∨ ∃ sn, h !! s = Some sn ∧ reach h (NextSibling sn) t).
Proof.
  induction fuel as [|fuel IH]; intros s t W Hs; [done|]. simpl.
  rewrite lookup_app_l by done.
  destruct (h !! s) as [sn|] eqn:Es; [|done]. simpl.
  destruct (NextSibling sn) as [b|] eqn:En.
  - intros H. destruct (W s sn Es) as (W1 & _). destruct (W1 b En) as [? ?].
    destruct (IH b t W ltac:(done) H) as (tn & ? & Et & ? & Hr).
    exists tn. repeat split; try done. right. exists sn. split; [done|]. rewrite En.
    destruct Hr as [->|(bn & Eb & Hr)]; [constructor|].
    by apply (reach_next _ b bn).
  - intros [= <-]. exists sn. repeat split; try done. by left.
Qed.

(** [addSibling] of the fresh last cell, cell by cell. *)
Lemma addSibling_fresh h nd s h' :
  wfLinks h → fresh nd → (s < length h)%nat →
  addSibling (h ++ [nd]) s (length h) = Some h' →
  ∃ t tn, (t < length h)%nat ∧ h !! t = Some tn ∧ NextSibling tn = None
    ∧ (t = s ∨ ∃ sn, h !! s = Some sn ∧ reach h (NextSibling sn) t)
    ∧ length h' = S (length h)
    ∧ h' !! length h = Some (setPrevSibling (Some t) (setParent (Parent tn) nd))
    ∧ ∀ a x, h !! a = Some x →
        h' !! a = Some ((if decide (Parent tn = Some a) then setLastChild (Some (length h)) else id)
                          ((if decide (a = t) then setNextSibling (Some (length h)) else id) x)).
Proof.
  intros W Hfr Hs H.
  destruct (addSibling_inv _ _ _ _ H) as (t & tn' & Hl & Et' & _ & ->).
  destruct (lastSibling_fresh _ _ _ _ _ W Hs Hl) as (tn & Ht & Et & Hnx & Hr).
  rewrite lookup_app_l, Et in Et' by done. injection Et' as <-.
  exists t, tn. do 4 (split; [done|]).
  assert (Hpp : ∀ pp, Parent tn = Some pp → (pp < length h)%nat).
  { intros pp Hp. by destruct (W t tn Et) as (_ & _ & _ & W4); apply W4. }
  split; [|split].
  - destruct (Parent tn); simpl; rewrite ?length_alter, length_app; simpl; lia.
  - assert (E : alter (setPrevSibling (Some t)) (length h)
        (alter (setNextSibling (Some (length h))) t
           (alter (setParent (Parent tn)) (length h) (h ++ [nd]))) !! length h
      = Some (setPrevSibling (Some t) (setParent (Parent tn) nd))).
    { rewrite list_lookup_alter_eq, list_lookup_alter_ne, list_lookup_alter_eq by lia.
      by rewrite lookup_app_r, Nat.sub_diag by done. }
    destruct (Parent tn) as [pp|] eqn:Ep; simpl; [|done].
    rewrite list_lookup_alter_ne; [done|]. specialize (Hpp pp eq_refl). lia.
  - intros a x Ea. assert (Ha : (a < length h)%nat) by (by eapply lookup_lt_Some).
    assert (E : alter (setPrevSibling (Some t)) (length h)
        (alter (setNextSibling (Some (length h))) t
           (alter (setParent (Parent tn)) (length h) (h ++ [nd]))) !! a
      = Some ((if decide (a = t) then setNextSibling (Some (length h)) else id) x)).
    { rewrite list_lookup_alter_ne by lia. destruct (decide (a = t)) as [->|Hat].
      - rewrite list_lookup_alter_eq, list_lookup_alter_ne, lookup_app_l by lia.
        by rewrite Ea.
      - rewrite list_lookup_alter_ne by congruence.
        rewrite list_lookup_alter_ne by lia. by rewrite lookup_app_l. }
    destruct (Parent tn) as [pp|] eqn:Ep; simpl.
    + rewrite list_lookup_alter. destruct (decide (pp = a)) as [->|Hne].
      * rewrite (decide_True (P := Some a = Some a)) by done. by rewrite E.
      * rewrite (decide_False (P := Some pp = Some a)) by congruence. by rewrite E.
    + by rewrite E.
Qed.

(** [addChild] of the fresh last cell, cell by cell. *)
Lemma addChild_fresh h nd parent h' :
  wfLinks h → fresh nd → (parent < length h)%nat →
  addChild (h ++ [nd]) parent (length h) = Some h' →
  ∃ pn, h !! parent = Some pn ∧ length h' = S (length h)
    ∧ ((FirstChild pn = None
        ∧ h' !! length h = Some (setParent (Some parent) nd)
        ∧ ∀ a x, h !! a = Some x →
            h' !! a = Some (if decide (a = parent)
                            then setLastChild (Some (length h))
                                   (setFirstChild (Some (length h)) x)
                            else x))
       ∨ (∃ l ln, FirstChild pn ≠ None ∧ LastChild pn = Some l
            ∧ (l < length h)%nat ∧ h !! l = Some ln
            ∧ NextSibling ln = None ∧ Parent ln = Some parent
            ∧ h' !! length h
              = Some (setPrevSibling (Some l) (setParent (Some parent) nd))
            ∧ ∀ a x, h !! a = Some x →
                h' !! a
                = Some ((if decide (a = parent) then setLastChild (Some (length h)) else id)
                          ((if decide (a = l) then setNextSibling (Some (length h)) else id)
                             x)))).
Proof.
  intros W Hfr Hp H.
  destruct (addChild_inv _ _ _ _ H) as (pn & Epn & _ & Hcases).
  rewrite list_lookup_alter_ne, lookup_app_l in Epn by lia.
  exists pn. split; [done|].
  assert (Hn : (h ++ [nd]) !! length h = Some nd).
  { by rewrite lookup_app_r, Nat.sub_diag by done. }
  destruct Hcases as [[Hf ->]|(l & Hf & Hl & _ & ->)].
  - split; [by rewrite !length_alter, length_app, Nat.add_comm|]. left. split; [done|].
    split.
    + rewrite !list_lookup_alter_ne by lia. by rewrite list_lookup_alter_eq, Hn.
    + intros a x Ea. assert (Ha : (a < length h)%nat) by (by eapply lookup_lt_Some).
      destruct (decide (a = parent)) as [->|Hne].
      * rewrite !list_lookup_alter_eq, list_lookup_alter_ne, lookup_app_l, Ea by lia. done.
      * rewrite !list_lookup_alter_ne, lookup_app_l by (congruence || lia). done.
  - split; [by rewrite !length_alter, length_app, Nat.add_comm|]. right.
    destruct (W parent pn Epn) as (_ & _ & W3 & _).
    destruct (W3 l Hl) as (ln & El & Hpl & Hnl).
    assert (Hll : (l < length h)%nat) by (by eapply lookup_lt_Some).
    exists l, ln. do 6 (split; [done|]). split.
    + rewrite list_lookup_alter_ne, list_lookup_alter_eq, list_lookup_alter_ne,
        list_lookup_alter_eq, Hn by lia. done.
    + intros a x Ea. assert (Ha : (a < length h)%nat) by (by eapply lookup_lt_Some).
      rewrite list_lookup_alter. destruct (decide (parent = a)) as [->|Hne].
      * rewrite (decide_True (P := a = a)) by done.
        rewrite list_lookup_alter_ne by lia. rewrite list_lookup_alter.
        destruct (decide (l = a)) as [->|Hne'].
        -- rewrite (decide_True (P := a = a)) by done.
           rewrite list_lookup_alter_ne, lookup_app_l, Ea by lia. done.
        -- rewrite (decide_False (P := a = l)) by congruence.
           rewrite list_lookup_alter_ne, lookup_app_l, Ea by lia. done.
      * rewrite (decide_False (P := a = parent)) by congruence.
        rewrite list_lookup_alter_ne by lia. rewrite list_lookup_alter.
        destruct (decide (l = a)) as [->|Hne'].
        -- rewrite (decide_True (P := a = a)) by done.
           rewrite list_lookup_alter_ne, lookup_app_l, Ea by lia. done.
        -- rewrite (decide_False (P := a = l)) by congruence.
           rewrite list_lookup_alter_ne, lookup_app_l, Ea by lia. done.
Qed.

Lemma heap_cases (h h' : heap) a (x' : Node) :
  length h' = S (length h) → h' !! a = Some x' →
  a = length h ∨ ∃ x, h !! a = Some x.
Proof.
  intros Hl E. apply lookup_lt_Some in E. rewrite Hl in E.
  destruct (decide (a = length h)) as [->|Hne]; [by left|right].
  apply lookup_lt_is_Some. lia.
Qed.

(** Attaching a fresh node as a sibling keeps the links well formed and
    what was built stable. *)
Lemma addSibling_fresh_wf h nd s h' :
  wfLinks h → fresh nd → (s < length h)%nat →
  addSibling (h ++ [nd]) s (length h) = Some h' →
  wfLinks h' ∧ stable h h'.
Proof.
  intros W Hfr Hs H.
  destruct (addSibling_fresh _ _ _ _ W Hfr Hs H)
    as (t & tn & Ht & Et & Hnx & _ & Hlen & En & Hold).
  destruct Hfr as (Fp & Ff & Fl & Fv & Fx).
  split.
  - intros a x' Ea. destruct (heap_cases _ _ _ _ Hlen Ea) as [->|[x Ex]].
    + rewrite En in Ea. injection Ea as <-. simpl. rewrite Ff, Fl, Fx.
      repeat split; try done.
      intros q Hq. destruct (W t tn Et) as (_ & _ & _ & W4). specialize (W4 q Hq). lia.
    + rewrite (Hold a x Ex) in Ea. injection Ea as <-.
      destruct (W a x Ex) as (W1 & W2 & W3 & W4).
      assert (Ha : (a < length h)%nat) by (by eapply lookup_lt_Some).
      refine (conj _ (conj _ (conj _ _))).
      * intros b. rewrite Hlen.
        destruct (decide (a = t)) as [->|Hat]; destruct (decide (Parent tn = Some _)); simpl;
          intros Hb; try (injection Hb as <-; lia); specialize (W1 _ Hb); lia.
      * intros c Hc. rewrite Hlen. enough (c < length h)%nat by lia. apply W2.
        by destruct (decide (a = t)), (decide (Parent tn = Some a)).
      * intros l Hl. destruct (decide (Parent tn = Some a)) as [Hp|Hp].
        -- assert (l = length h) as ->.
           { by destruct (decide (a = t)); simpl in Hl; injection Hl as <-. }
           eexists. split; [exact En|]. simpl. by rewrite Fx.
        -- assert (Hl' : LastChild x = Some l) by (by destruct (decide (a = t))).
           destruct (W3 l Hl') as (ln & El & Hpl & Hnl).
           assert (l ≠ t).
           { intros E0. subst l. rewrite Et in El. injection El as E1. subst ln. done. }
           eexists. split; [by apply Hold|].
           destruct (decide (l = t)); [done|].
           destruct (decide (Parent tn = Some l)); simpl; done.
      * intros q Hq. rewrite Hlen. enough (q < length h)%nat by lia. apply W4.
        by destruct (decide (a = t)), (decide (Parent tn = Some a)).
  - split; [lia|]. intros a x Ex. eexists. split; [by apply Hold|].
    destruct (decide (a = t)) as [->|Hat]; destruct (decide (Parent tn = Some _));
      simpl; repeat split; try done; congruence.
Qed.

(** And so does attaching it as a child. *)
Lemma addChild_fresh_wf h nd parent h' :
  wfLinks h → fresh nd → (parent < length h)%nat →
  addChild (h ++ [nd]) parent (length h) = Some h' →
  wfLinks h' ∧ stable h h'.
Proof.
  intros W Hfr Hp H.
  destruct (addChild_fresh _ _ _ _ W Hfr Hp H) as (pn & Epn & Hlen & Hcases).
  destruct Hfr as (Fp & Ff & Fl & Fv & Fx).
  destruct Hcases as [(Hf & En & Hold)|(l & ln & Hf & Hl & Hll & El & Hnl & Hpl & En & Hold)].
  - split.
    + intros a x' Ea. destruct (heap_cases _ _ _ _ Hlen Ea) as [->|[x Ex]].
      * rewrite En in Ea. injection Ea as <-. simpl. rewrite Ff, Fl, Fx.
        repeat split; try done. intros q [= <-]. lia.
      * rewrite (Hold a x Ex) in Ea. injection Ea as <-.
        destruct (W a x Ex) as (W1 & W2 & W3 & W4).
        refine (conj _ (conj _ (conj _ _))).
        -- intros b Hb. rewrite Hlen. enough (a < b < length h)%nat by lia. apply W1.
           by destruct (decide (a = parent)).
        -- intros c Hc. rewrite Hlen. destruct (decide (a = parent)) as [->|].
           ++ simpl in Hc. injection Hc as <-. lia.
           ++ specialize (W2 c Hc). lia.
        -- intros l Hl. destruct (decide (a = parent)) as [->|Hne].
           ++ simpl in Hl. injection Hl as <-. eexists. split; [exact En|]. simpl.
              by rewrite Fx.
           ++ destruct (W3 l Hl) as (ln & El & Hpl & Hnl).
              eexists. split; [by apply Hold|]. by destruct (decide (l = parent)).
        -- intros q Hq. rewrite Hlen. enough (q < length h)%nat by lia. apply W4.
           by destruct (decide (a = parent)).
    + split; [lia|]. intros a x Ex. eexists. split; [by apply Hold|].
      destruct (decide (a = parent)) as [->|]; simpl; repeat split; try done.
      rewrite Epn in Ex. injection Ex as <-. congruence.
  - split.
    + intros a x' Ea. destruct (heap_cases _ _ _ _ Hlen Ea) as [->|[x Ex]].
      * rewrite En in Ea. injection Ea as <-. simpl. rewrite Ff, Fl, Fx.
        repeat split; try done. intros q [= <-]. lia.
      * rewrite (Hold a x Ex) in Ea. injection Ea as <-.
        destruct (W a x Ex) as (W1 & W2 & W3 & W4).
        assert (Ha : (a < length h)%nat) by (by eapply lookup_lt_Some).
        refine (conj _ (conj _ (conj _ _))).
        -- intros b. rewrite Hlen.
           destruct (decide (a = l)) as [->|]; destruct (decide (_ = parent)); simpl;
             intros Hb; try (injection Hb as <-; lia); specialize (W1 _ Hb); lia.
        -- intros c Hc. rewrite Hlen. enough (c < length h)%nat by lia. apply W2.
           by destruct (decide (a = l)), (decide (a = parent)).
        -- intros l' Hl'. destruct (decide (a = parent)) as [->|Hne].
           ++ assert (l' = length h) as ->.
              { by destruct (decide (parent = l)); simpl in Hl'; injection Hl' as <-. }
              eexists. split; [exact En|]. simpl. by rewrite Fx.
           ++ assert (Hl'' : LastChild x = Some l') by (by destruct (decide (a = l))).
              destruct (W3 l' Hl'') as (ln' & El' & Hpl' & Hnl').
              assert (l' ≠ l).
              { intros E0. subst l'. rewrite El in El'. injection El' as E1. subst ln'. congruence. }
              eexists. split; [by apply Hold|].
              destruct (decide (l' = l)); [done|].
              by destruct (decide (l' = parent)).
        -- intros q Hq. rewrite Hlen. enough (q < length h)%nat by lia. apply W4.
           by destruct (decide (a = l)), (decide (a = parent)).
    + split; [lia|]. intros a x Ex. eexists. split; [by apply Hold|].
      destruct (decide (a = l)) as [->|]; destruct (decide (_ = parent));
        simpl; repeat split; try done; congruence.
Qed.


(** The walk up the parents stays among the cells of the arena. *)
Lemma walkUp_in_arena h nd : ∀ i pv r,
  wfLinks h → (∀ a, pv = Some a → (a < length h)%nat) →
  walkUp i (h ++ [nd]) pv = Some r → ∀ a, r = Some a → (a < length h)%nat.
Proof.
  induction i as [|i IH]; intros pv r W Hpv; simpl.
  - by intros [= <-].
  - destruct pv as [b|]; [|done]. simpl. specialize (Hpv b eq_refl).
    rewrite lookup_app_l by done.
    destruct (h !! b) as [bn|] eqn:Eb; [|done]. simpl.
    apply IH; [done|]. intros a Ha. by apply (W b bn Eb).
Qed.

(** The attach rule on a freshly allocated node. *)
Lemma attachNode_fresh p nd p' :
  wfLinks (mem p) → fresh nd →
  (∃ pv, prev p = Some pv ∧ (pv < length (mem p))%nat) →
  attachNode (setMem (mem p ++ [nd]) p) (length (mem p)) = Some p' →
  wfLinks (mem p') ∧ stable (mem p) (mem p')
  ∧ length (mem p') = S (length (mem p))
  ∧ (∃ pv', prev p' = Some pv' ∧ (pv' < length (mem p))%nat).
Proof.
  intros W Hfr (pv & Epv & Hpv) H. unfold attachNode in H. simpl in H.
  rewrite Epv in H. simpl in H. rewrite lookup_app_l in H by done.
  destruct (mem p !! pv) as [pvn|] eqn:En; [|done]. simpl in H.
  repeat case_decide.
  - apply bind_Some in H as (h' & Hh & [= <-]). simpl.
    destruct (addSibling_fresh_wf _ _ _ _ W Hfr Hpv Hh) as [W' St].
    destruct (addSibling_fresh _ _ _ _ W Hfr Hpv Hh) as (_ & _ & _ & _ & _ & _ & Hl & _).
    split; [done|]. split; [done|]. split; [done|]. eauto.
  - apply bind_Some in H as (h' & Hh & [= <-]). simpl.
    destruct (addChild_fresh_wf _ _ _ _ W Hfr Hpv Hh) as [W' St].
    destruct (addChild_fresh _ _ _ _ W Hfr Hpv Hh) as (_ & _ & Hl & _).
    split; [done|]. split; [done|]. split; [done|]. eauto.
  - apply bind_Some in H as (pv' & Hw & H). apply bind_Some in H as (a & -> & H).
    assert (Ha : (a < length (mem p))%nat).
    { refine (walkUp_in_arena _ _ _ _ _ W _ Hw a eq_refl). by intros ? [= <-]. }
    rewrite lookup_app_l in H by done.
    apply bind_Some in H as (an & Ean & H). apply bind_Some in H as (s & Es & H).
    apply bind_Some in H as (h' & Hh & [= <-]). simpl.
    assert (Hs : (s < length (mem p))%nat) by (by apply (W a an Ean)).
    destruct (addSibling_fresh_wf _ _ _ _ W Hfr Hs Hh) as [W' St].
    destruct (addSibling_fresh _ _ _ _ W Hfr Hs Hh) as (_ & _ & _ & _ & _ & _ & Hl & _).
    split; [done|]. split; [done|]. split; [done|]. eauto.
Qed.

(** At the depth of the cursor the new node joins the cursor's siblings. *)
Lemma attachNode_same_level p n pv pvn :
  prev p = Some pv → mem p !! pv = Some pvn → p_level p = level pvn →
  attachNode p n = (h ← addSibling (mem p) pv n; Some (setMem h p)).
Proof.
  intros E1 E2 E3. unfold attachNode. rewrite E1. simpl. rewrite E2. simpl.
  by rewrite decide_True.
Qed.

(** Below the cursor it becomes the cursor's child. *)
Lemma attachNode_deeper p n pv pvn :
  prev p = Some pv → mem p !! pv = Some pvn → p_level p > level pvn →
  attachNode p n = (h ← addChild (mem p) pv n; Some (setMem h p)).
Proof.
  intros E1 E2 E3. unfold attachNode. rewrite E1. simpl. rewrite E2. simpl.
  rewrite decide_False by lia. by rewrite decide_True.
Qed.

(** Rewriting what a node carries, its links apart, keeps the links well
    formed and what was built stable. *)
Lemma alter_payload_wf (h : heap) a (f : Node → Node) :
  (∀ x, Parent (f x) = Parent x ∧ FirstChild (f x) = FirstChild x
        ∧ LastChild (f x) = LastChild x ∧ PrevSibling (f x) = PrevSibling x
        ∧ NextSibling (f x) = NextSibling x ∧ NType (f x) = NType x
        ∧ Data (f x) = Data x ∧ Attrs (f x) = Attrs x ∧ level (f x) = level x) →
  wfLinks h → wfLinks (alter f a h) ∧ stable h (alter f a h).
Proof.
  intros Hf W.
  assert (L : ∀ b y, alter f a h !! b = Some y →
            ∃ x, h !! b = Some x ∧ (y = x ∨ y = f x)).
  { intros b y. destruct (decide (b = a)) as [->|Hne].
    - rewrite list_lookup_alter_eq. destruct (h !! a) as [x|]; [|done].
      intros [= <-]. eauto.
    - rewrite list_lookup_alter_ne by done. eauto. }
  split.
  - intros b y Eb. destruct (L b y Eb) as (x & Ex & Hy).
    destruct (W b x Ex) as (W1 & W2 & W3 & W4). rewrite length_alter.
    destruct (Hf x) as (F1 & F2 & F3 & F4 & F5 & _).
    assert (Parent y = Parent x ∧ FirstChild y = FirstChild x
            ∧ LastChild y = LastChild x ∧ NextSibling y = NextSibling x)
      as (P1 & P2 & P3 & P4) by (by destruct Hy as [->| ->]).
    rewrite P1, P2, P3, P4. split; [done|]. split; [done|]. split; [|done].
    intros l Hl. destruct (W3 l Hl) as (ln & El & Hp & Hn).
    destruct (decide (l = a)) as [->|Hne].
    + exists (f ln). rewrite list_lookup_alter_eq, El. split; [done|].
      destruct (Hf ln) as (-> & _ & _ & _ & -> & _). done.
    + exists ln. by rewrite list_lookup_alter_ne.
  - split; [by rewrite length_alter|]. intros b x Ex.
    destruct (decide (b = a)) as [->|Hne].
    + exists (f x). rewrite list_lookup_alter_eq, Ex. split; [done|].
      destruct (Hf x) as (-> & -> & _ & -> & -> & -> & -> & -> & ->). done.
    + exists x. rewrite list_lookup_alter_ne by done. done.
Qed.

(** The declaration that [synthDecl] allocates, and every node that a token
    allocates, has no link yet. *)
Lemma fresh_newNode t d ns attrs lvl : fresh (newNode t d ns attrs lvl).
Proof. by repeat split. Qed.

Lemma fresh_addPair n pair : fresh n → fresh (addPair n pair).
Proof.
  unfold addPair. destruct (IndexByte _ _) as [[|i]|]; try done.
Qed.

Lemma fresh_foldl_addPair pairs : ∀ n, fresh n → fresh (foldl addPair n pairs).
Proof.
  induction pairs as [|x xs IH]; intros n Hn; simpl; [done|].
  by apply IH, fresh_addPair.
Qed.

Lemma synthDecl_treeInv p p1 :
  treeInv p → synthDecl p = Some p1 →
  treeInv p1 ∧ stable (mem p) (mem p1) ∧ doc p1 = doc p.
Proof.
  intros (W & (pv & Epv & Hpv) & Hd & Hx & Hs). unfold synthDecl, alloc.
  case_decide as Hl.
  - rewrite Epv. simpl. intros H. apply bind_Some in H as (h' & Hh & [= <-]).
    destruct (addChild_fresh_wf _ _ _ _ W (fresh_newNode _ _ _ _ _) Hpv Hh) as [W' St].
    destruct (addChild_fresh _ _ _ _ W (fresh_newNode _ _ _ _ _) Hpv Hh) as (_ & _ & Hlen & _).
    unfold treeInv. simpl. split; [|done]. split; [done|].
    split; [exists (length (mem p)); split; [done|lia]|]. split; [lia|done].
  - intros [= <-]. split; [|split; [apply stable_refl|done]].
    split; [done|]. split; [eauto|done].
Qed.

Lemma rederivePrefix_treeInv p node p' :
  wfLinks (mem p) → rederivePrefix p node = Some p' →
  wfLinks (mem p') ∧ stable (mem p) (mem p') ∧ length (mem p') = length (mem p)
  ∧ ∃ h, p' = setMem h p.
Proof.
  intros W. unfold rederivePrefix. intros H.
  assert (Hid : wfLinks (mem p) ∧ stable (mem p) (mem p) ∧ length (mem p) = length (mem p)
                ∧ ∃ h, p = setMem h p).
  { split; [done|]. split; [apply stable_refl|]. split; [done|]. exists (mem p). by destruct p. }
  apply bind_Some in H as (nd & End & H).
  case_decide; [by injection H as <-|].
  destruct (space2prefix p !! NamespaceURI nd) as [v|]; [|by injection H as <-].
  destruct (_ || _); [|by injection H as <-].
  apply bind_Some in H as (h & Hh & [= <-]). simpl.
  apply upd_Some_alter in Hh as [_ ->].
  destruct (alter_payload_wf (mem p) node (setPrefix (ns_name v))) as [W' St];
    [by intros x|done|].
  split; [done|]. split; [done|]. split; [by rewrite length_alter|]. eauto.
Qed.

(** ** One token keeps the tree well formed *)

Lemma attach_treeInv p nd p' :
  treeInv p → fresh nd →
  attachNode (setMem (mem p ++ [nd]) p) (length (mem p)) = Some p' →
  treeInv p' ∧ stable (mem p) (mem p') ∧ doc p' = doc p
  ∧ length (mem p') = S (length (mem p)).
Proof.
  intros (W & Hpv & Hd & Hx & Hs) Hfr H.
  destruct (attachNode_fresh _ _ _ W Hfr Hpv H) as (W' & St & Hlen & (pv' & E' & Hpv')).
  destruct (attachNode_frame _ _ _ H) as (_ & _ & _ & Hdoc & _ & _ & _ & Hx' & _ & Hs' & _).
  simpl in *. split; [|done]. split; [done|]. split; [exists pv'; split; [done|lia]|].
  split; [lia|]. split; congruence.
Qed.

Lemma treeInv_cursor p a l :
  treeInv p → (a < length (mem p))%nat → treeInv (setLevel l (setPrev (Some a) p)).
Proof.
  intros (W & _ & Hd & Hx & Hs) Ha. split; [done|]. split; [by exists a|done].
Qed.

Lemma addLeaf_treeInv p t data c p' c' :
  treeInv p → addLeaf p t data c = Continue p' c' →
  treeInv p' ∧ stable (mem p) (mem p') ∧ doc p' = doc p.
Proof.
  intros I. unfold addLeaf, alloc.
  destruct (attachNode _ _) as [p1|] eqn:Ha; [|done]. intros [= <- <-].
  destruct (attach_treeInv _ _ _ I (fresh_newNode _ _ _ _ _) Ha) as (? & ? & ? & _).
  done.
Qed.

Lemma procInst_treeInv p target inst c p' c' :
  treeInv p → procInst p target inst c = Continue p' c' →
  treeInv p' ∧ stable (mem p) (mem p') ∧ doc p' = doc p.
Proof.
  intros I. unfold procInst, alloc.
  destruct (prev p ≫= _) as [pvn|]; [|done].
  set (q := if isDeclOrProcInst (NType pvn) then p else setLevel (p_level p + 1) p).
  assert (Iq : treeInv q) by (by unfold q; destruct (isDeclOrProcInst _)).
  assert (Mq : mem q = mem p) by (by unfold q; destruct (isDeclOrProcInst _)).
  assert (Dq : doc q = doc p) by (by unfold q; destruct (isDeclOrProcInst _)).
  destruct (attachNode _ _) as [p1|] eqn:Ha; [|done]. intros [= <- <-].
  apply attach_treeInv in Ha as (I1 & St & Hdoc & Hlen); [| done |].
  - rewrite <- Mq, <- Dq. split; [|done].
    replace (setPrev (Some (length (mem q))) p1)
      with (setLevel (p_level p1) (setPrev (Some (length (mem q))) p1)) by done.
    apply treeInv_cursor; [done|lia].
  - assert (F : fresh (foldl addPair (newNode DeclarationNode target "" [] (p_level q))
                         (Split " " inst)))
      by apply fresh_foldl_addPair, fresh_newNode.
    by case_decide.
Qed.

Lemma startElement_treeInv p name attr c p' c' :
  treeInv p → startElement p name attr c = Continue p' c' →
  treeInv p' ∧ stable (mem p) (mem p') ∧ doc p' = doc p.
Proof.
  intros I. unfold startElement, alloc.
  destruct (synthDecl p) as [p1|] eqn:Hs; [|done].
  destruct (synthDecl_treeInv _ _ I Hs) as (I1 & St1 & D1).
  destruct (_ && _); [done|].
  set (p2 := setSpaces (once p1) (bindAttrs (p_level p1) (space2prefix p1) attr) p1).
  assert (I2 : treeInv p2) by done.
  change (mem p1) with (mem p2) in *. change (doc p1) with (doc p2) in *.
  destruct (attachNode _ _) as [p3|] eqn:Ha; [|done].
  apply attach_treeInv in Ha as (I3 & St3 & D3 & L3); [|done|apply fresh_newNode].
  destruct (rederivePrefix p3 _) as [p4|] eqn:Hr; [|done].
  destruct I3 as (W3 & Hpv3 & Hd3 & Hx3 & Hs3).
  destruct (rederivePrefix_treeInv _ _ _ W3 Hr) as (W4 & St4 & L4 & (h4 & ->)).
  unfold markStream. simpl in *. rewrite Hx3. intros [= <- <-]. simpl.
  split; [|split; [eauto using stable_trans|congruence]].
  unfold treeInv. simpl. split; [done|].
  split; [exists (length (mem p1)); split; [done|lia]|]. split; [lia|done].
Qed.

Lemma endElement_treeInv p c p' c' :
  treeInv p → endElement p c = Continue p' c' →
  treeInv p' ∧ mem p' = mem p ∧ doc p' = doc p ∧ prev p' = prev p
  ∧ p_level p' = p_level p - 1.
Proof.
  intros (W & Hpv & Hd & Hx & Hs). unfold endElement. simpl. rewrite Hs.
  intros [= <- <-]. done.
Qed.

(** Every token that lets the loop of [parse] go on keeps the invariant and
    what was built. *)
Lemma step_treeInv tok p c p' c' :
  treeInv p → step tok p c = Continue p' c' →
  treeInv p' ∧ stable (mem p) (mem p') ∧ doc p' = doc p.
Proof.
  intros I. destruct tok; simpl.
  - by apply startElement_treeInv.
  - intros H. destruct (endElement_treeInv _ _ _ _ I H) as (? & -> & ? & _).
    split; [done|]. split; [apply stable_refl|done].
  - by apply addLeaf_treeInv.
  - by apply addLeaf_treeInv.
  - by apply procInst_treeInv.
  - by apply addLeaf_treeInv.
Qed.


(** ** Before the first start tag *)

Lemma reach_Some h c a : reach h c a → ∃ b, c = Some b.
Proof. destruct 1; eauto. Qed.

Lemma noElement_grow h h' :
  noElement h → stable h h' → length h' = S (length h) →
  (∀ x, h' !! length h = Some x → NType x ≠ ElementNode) →
  noElement h'.
Proof.
  intros N [_ St] Hl Hn a x E.
  destruct (decide (a = length h)) as [->|Hne]; [by apply Hn|].
  assert (Ha : (a < length h)%nat) by (apply lookup_lt_Some in E; lia).
  apply lookup_lt_is_Some in Ha as [y Ey].
  destruct (St a y Ey) as (x' & Ex' & Ht & _).
  rewrite E in Ex'. injection Ex' as <-. rewrite Ht. by apply (N a y).
Qed.

(** A node appended to the siblings of a child of the document node is a
    child of the document node. *)
Lemma prolog_append h nd q h' d dn :
  wfLinks h → fresh nd → (q < length h)%nat →
  h !! d = Some dn → reach h (FirstChild dn) q →
  addSibling (h ++ [nd]) q (length h) = Some h' →
  wfLinks h' ∧ stable h h' ∧ length h' = S (length h)
  ∧ ∃ dn' nd', h' !! d = Some dn' ∧ FirstChild dn' = FirstChild dn
      ∧ level dn' = level dn ∧ NType dn' = NType dn
      ∧ reach h' (FirstChild dn') q ∧ reach h' (FirstChild dn') (length h)
      ∧ h' !! length h = Some nd' ∧ NType nd' = NType nd ∧ level nd' = level nd.
Proof.
  intros W Hfr Hq Ed Hr H.
  destruct (addSibling_fresh_wf _ _ _ _ W Hfr Hq H) as [W' St].
  destruct (addSibling_fresh _ _ _ _ W Hfr Hq H)
    as (t & tn & Ht & Et & Hnx & Hqt & Hlen & En & Hold).
  split; [done|]. split; [done|]. split; [done|].
  destruct (proj2 St d dn Ed) as (dn' & Ed' & HT & _ & _ & HL & _ & _ & _ & HF).
  destruct (reach_Some _ _ _ Hr) as [k Hk].
  assert (Fd : FirstChild dn' = FirstChild dn) by (rewrite Hk; by apply HF).
  exists dn', (setPrevSibling (Some t) (setParent (Parent tn) nd)).
  split; [done|]. split; [done|]. split; [done|]. split; [done|].
  rewrite Fd. split; [by apply (reach_stable h)|]. split; [|done].
  assert (Rt : reach h (FirstChild dn) t).
  { destruct Hqt as [->|(qn & Eq & Hqn)]; [done|]. by apply (reach_trans _ _ q _ qn). }
  apply (reach_stable _ _ _ _ St) in Rt.
  eapply reach_trans; [exact Rt|by apply Hold|].
  destruct (decide (t = t)); [|done].
  destruct (decide (Parent tn = Some t)); simpl; constructor.
Qed.

Lemma attach_sibling_of_cursor p nd pv pvn p' :
  prev p = Some pv → mem p !! pv = Some pvn → p_level p = level pvn →
  attachNode (setMem (mem p ++ [nd]) p) (length (mem p)) = Some p' →
  ∃ h', addSibling (mem p ++ [nd]) pv (length (mem p)) = Some h' ∧ p' = setMem h' p.
Proof.
  intros E1 E2 E3 H.
  rewrite (attachNode_same_level _ _ pv pvn) in H; simpl; try done.
  - simpl in H. apply bind_Some in H as (h' & Hh & [= <-]). by exists h'.
  - rewrite lookup_app_l; [done|]. by eapply lookup_lt_Some.
Qed.

Lemma attach_child_of_cursor p nd pv pvn p' :
  prev p = Some pv → mem p !! pv = Some pvn → p_level p > level pvn →
  attachNode (setMem (mem p ++ [nd]) p) (length (mem p)) = Some p' →
  ∃ h', addChild (mem p ++ [nd]) pv (length (mem p)) = Some h' ∧ p' = setMem h' p.
Proof.
  intros E1 E2 E3 H.
  rewrite (attachNode_deeper _ _ pv pvn) in H; simpl; try done.
  - simpl in H. apply bind_Some in H as (h' & Hh & [= <-]). by exists h'.
  - rewrite lookup_app_l; [done|]. by eapply lookup_lt_Some.
Qed.

(** [addSibling] writes no first-child link, and the node it attaches keeps
    what it carries. *)
Lemma addSibling_fresh_payload h nd s h' :
  wfLinks h → fresh nd → (s < length h)%nat →
  addSibling (h ++ [nd]) s (length h) = Some h' →
  (∀ a x, h !! a = Some x →
     ∃ x', h' !! a = Some x' ∧ FirstChild x' = FirstChild x)
  ∧ ∃ nd', h' !! length h = Some nd' ∧ NType nd' = NType nd ∧ level nd' = level nd
      ∧ Data nd' = Data nd ∧ Attrs nd' = Attrs nd.
Proof.
  intros W Hfr Hs H.
  destruct (addSibling_fresh _ _ _ _ W Hfr Hs H)
    as (t & tn & _ & _ & _ & _ & _ & En & Hold).
  split.
  - intros a x Ex. eexists. split; [by apply Hold|].
    by destruct (decide (Parent tn = Some a)), (decide (a = t)).
  - eexists. split; [exact En|]. done.
Qed.

(** The first child of a node without children. *)
Lemma addChild_fresh_first h nd parent pn h' :
  wfLinks h → fresh nd → h !! parent = Some pn → FirstChild pn = None →
  addChild (h ++ [nd]) parent (length h) = Some h' →
  h' !! length h = Some (setParent (Some parent) nd)
  ∧ h' !! parent = Some (setLastChild (Some (length h))
                           (setFirstChild (Some (length h)) pn)).
Proof.
  intros W Hfr Ep Hf H.
  assert (Hp : (parent < length h)%nat) by (by eapply lookup_lt_Some).
  destruct (addChild_fresh _ _ _ _ W Hfr Hp H) as (pn' & Ep' & _ & Hc).
  rewrite Ep in Ep'. injection Ep' as <-.
  destruct Hc as [(_ & En & Hold)|(l & ln & Hne & _)]; [|done].
  split; [done|]. rewrite (Hold parent pn Ep). by rewrite decide_True.
Qed.

(** Comments, text and directives before the first start tag. *)
Lemma addLeaf_beforeRoot p t data c p' c' :
  treeInv p → beforeRoot p → t ≠ ElementNode →
  addLeaf p t data c = Continue p' c' → beforeRoot p'.
Proof.
  intros I (N & dn & Ed & Ld & Td & Hph) Ht. pose proof I as (W & _ & Hd & _).
  unfold addLeaf, alloc.
  destruct (attachNode _ _) as [p1|] eqn:Ha; [|done]. intros [= <- <-].
  destruct (attach_treeInv _ _ _ I (fresh_newNode _ _ _ _ _) Ha) as (I1 & St & D1 & L1).
  destruct Hph as [(Hl & Hpv & Hf)|(Hl & q & qn & Hpv & Eq & Lq & Tq & Hr)].
  - apply (attach_sibling_of_cursor _ _ (doc p) dn) in Ha as (h' & Hh & ->);
      [|done|done|congruence].
    unfold beforeRoot, atDocument, atProlog. simpl in *.
    destruct (addSibling_fresh_payload _ _ _ _ W (fresh_newNode _ _ _ _ _) Hd Hh)
      as (Hold & nd' & En & Tn & _).
    split.
    + apply (noElement_grow (mem p)); try done.
      intros x Ex. rewrite En in Ex. injection Ex as <-. by rewrite Tn.
    + destruct (proj2 St _ _ Ed) as (dn' & Ed' & HT & _ & _ & HL & _).
      destruct (Hold _ _ Ed) as (dn2 & Ed2 & HF). rewrite Ed' in Ed2. injection Ed2 as <-.
      exists dn'. split; [done|]. split; [congruence|]. split; [congruence|].
      left. split; [done|]. split; [done|congruence].
  - assert (Hq : (q < length (mem p))%nat) by (by eapply lookup_lt_Some).
    apply (attach_sibling_of_cursor _ _ q qn) in Ha as (h' & Hh & ->);
      [|done|done|congruence].
    unfold beforeRoot, atDocument, atProlog. simpl in *.
    destruct (prolog_append _ _ _ _ _ _ W (fresh_newNode _ _ _ _ _) Hq Ed Hr Hh)
      as (_ & _ & _ & dn' & nd' & Ed' & HF & HL & HT & Rq & _ & En & Tn & _).
    split.
    + apply (noElement_grow (mem p)); try done.
      intros x Ex. rewrite En in Ex. injection Ex as <-. by rewrite Tn.
    + exists dn'. split; [done|]. split; [congruence|]. split; [congruence|].
      right. split; [done|].
      destruct (proj2 St _ _ Eq) as (qn' & Eq' & HTq & _ & _ & HLq & _).
      exists q, qn'. split; [done|]. split; [done|]. split; [congruence|].
      split; [by rewrite HTq|done].
Qed.

Lemma addPair_keeps n pair :
  NType (addPair n pair) = NType n ∧ level (addPair n pair) = level n.
Proof. unfold addPair. by destruct (IndexByte _ _) as [[|i]|]. Qed.

Lemma foldl_addPair_keeps pairs : ∀ n,
  NType (foldl addPair n pairs) = NType n ∧ level (foldl addPair n pairs) = level n.
Proof.
  induction pairs as [|x xs IH]; intros n; simpl; [done|].
  destruct (IH (addPair n x)) as [-> ->]. apply addPair_keeps.
Qed.

(** A processing instruction before the first start tag. *)
Lemma procInst_beforeRoot p target inst c p' c' :
  treeInv p → beforeRoot p →
  procInst p target inst c = Continue p' c' → beforeRoot p'.
Proof.
  intros I (N & dn & Ed & Ld & Td & Hph). pose proof I as (W & _ & Hd & _).
  unfold procInst, alloc.
  set (mk := fun lvl : Z =>
    let node1 := foldl addPair (newNode DeclarationNode target "" [] lvl) (Split " " inst) in
    if decide (target = "xml"%string) then node1
    else mkNode (Parent node1) (FirstChild node1) (LastChild node1) (PrevSibling node1)
           (NextSibling node1) ProcessingInstruction (Data node1) (Prefix node1)
           (NamespaceURI node1) (Attrs node1)
           (Some (mkProcInst target (TrimSpace inst))) (level node1)).
  assert (Hmk : ∀ lvl, fresh (mk lvl) ∧ level (mk lvl) = lvl
                       ∧ isDeclOrProcInst (NType (mk lvl)) = true
                       ∧ NType (mk lvl) ≠ ElementNode).
  { intros lvl. unfold mk.
    pose proof (fresh_foldl_addPair (Split " " inst) _
                  (fresh_newNode DeclarationNode target "" [] lvl)) as F.
    destruct (foldl_addPair_keeps (Split " " inst)
                (newNode DeclarationNode target "" [] lvl)) as [T L].
    simpl. case_decide; simpl; [|done]. rewrite T, L. done. }
  destruct Hph as [(Hl & Hpv & Hf)|(Hl & q & qn & Hpv & Eq & Lq & Tq & Hr)].
  - rewrite Hpv. simpl. rewrite Ed. rewrite Td. simpl.
    change (foldl addPair _ _) with
      (foldl addPair (newNode DeclarationNode target "" [] (p_level p + 1)) (Split " " inst)).
    fold (mk (p_level p + 1)). destruct (Hmk (p_level p + 1)) as (F & L & T & Te).
    set (p0 := setLevel (p_level p + 1) p).
    change (mem p) with (mem p0).
    destruct (attachNode _ _) as [p1|] eqn:Ha; [|done]. intros [= <- <-].
    assert (I0 : treeInv p0) by done.
    destruct (attach_treeInv _ _ _ I0 F Ha) as (I1 & St & D1 & L1).
    apply (attach_child_of_cursor _ _ (doc p) dn) in Ha as (h' & Hh & ->);
      [|done|done|simpl; lia].
    destruct (addChild_fresh_first _ _ _ _ _ W F Ed Hf Hh) as [En Ed'].
    unfold beforeRoot, atDocument, atProlog. simpl in *. split.
    + apply (noElement_grow (mem p)); try done.
      intros x Ex. rewrite En in Ex. by injection Ex as <-.
    + eexists. split; [exact Ed'|]. split; [done|]. split; [done|].
      right. split; [lia|]. eexists _, _. split; [done|]. split; [exact En|].
      simpl. split; [lia|]. split; [done|constructor].
  - rewrite Hpv. simpl. rewrite Eq. rewrite Tq.
    fold (mk (p_level p)). destruct (Hmk (p_level p)) as (F & L & T & Te).
    destruct (attachNode _ _) as [p1|] eqn:Ha; [|done]. intros [= <- <-].
    destruct (attach_treeInv _ _ _ I F Ha) as (I1 & St & D1 & L1).
    assert (Hq : (q < length (mem p))%nat) by (by eapply lookup_lt_Some).
    apply (attach_sibling_of_cursor _ _ q qn) in Ha as (h' & Hh & ->);
      [|done|done|congruence].
    destruct (prolog_append _ _ _ _ _ _ W F Hq Ed Hr Hh)
      as (_ & _ & _ & dn' & nd' & Ed' & HF & HL & HT & _ & Rn & En & Tn & Ln).
    unfold beforeRoot, atDocument, atProlog. simpl in *. split.
    + apply (noElement_grow (mem p)); try done.
      intros x Ex. rewrite En in Ex. injection Ex as <-. by rewrite Tn.
    + exists dn'. split; [done|]. split; [congruence|]. split; [congruence|].
      right. split; [done|]. exists (length (mem p)), nd'.
      split; [done|]. split; [done|]. split; [congruence|]. split; [by rewrite Tn|done].
Qed.



Lemma elementChild_stable p p' :
  elementChild p → stable (mem p) (mem p') → doc p' = doc p → elementChild p'.
Proof.
  intros (dn & e & en & Ed & Hr & Ee & T) St Hd. unfold elementChild. rewrite Hd.
  destruct (proj2 St _ _ Ed) as (dn' & Ed' & _ & _ & _ & _ & _ & _ & _ & HF).
  destruct (proj2 St _ _ Ee) as (en' & Ee' & T' & _).
  destruct (reach_Some _ _ _ Hr) as [k Hk].
  exists dn', e, en'. split; [done|]. split; [|split; [done|congruence]].
  rewrite (HF k Hk), <- Hk. by apply (reach_stable (mem p)).
Qed.

(** At depth 0 with the cursor on a childless document node, [synthDecl]
    puts the declaration first and the cursor on it at depth 1. *)
Lemma synthDecl_atDocument p dn p1 :
  treeInv p → noElement (mem p) → mem p !! doc p = Some dn →
  level dn = 0 → NType dn = DocumentNode → atDocument p dn →
  synthDecl p = Some p1 →
  beforeRoot p1 ∧ (∃ dn1, mem p1 !! doc p1 = Some dn1 ∧ atProlog p1 dn1)
  ∧ declFirst (mem p1) (doc p1)
  ∧ p_level p1 = 1 ∧ prev p1 = Some (length (mem p))
  ∧ length (mem p1) = S (length (mem p)).
Proof.
  intros I N Ed Ld Td (Hl & Hpv & Hf) H. pose proof I as (W & _ & Hd & _).
  destruct (synthDecl_treeInv _ _ I H) as (I1 & St & D1).
  unfold synthDecl, alloc in H. rewrite decide_True in H by done.
  rewrite Hpv in H. simpl in H. apply bind_Some in H as (h' & Hh & [= <-]).
  destruct (addChild_fresh_first _ _ _ _ _ W (fresh_newNode _ _ _ _ _) Ed Hf Hh)
    as [En Ed'].
  assert (Hlen : length h' = S (length (mem p))).
  { destruct (addChild_fresh _ _ _ _ W (fresh_newNode _ _ _ _ _) Hd Hh) as (_ & _ & L & _).
    done. }
  unfold beforeRoot, atProlog, declFirst. simpl in *.
  assert (P : ∃ q qn, Some (length (mem p)) = Some q ∧ h' !! q = Some qn ∧ level qn = 1
      ∧ isDeclOrProcInst (NType qn) = true
      ∧ reach h' (FirstChild (setLastChild (Some (length (mem p)))
                                (setFirstChild (Some (length (mem p))) dn))) q).
  { eexists _, _. split; [done|]. split; [exact En|]. split; [done|]. split; [done|].
    constructor. }
  split; [|split; [|split]].
  - split.
    + apply (noElement_grow (mem p)); try done.
      intros x Ex. rewrite En in Ex. by injection Ex as <-.
    + eexists. split; [exact Ed'|]. split; [done|]. split; [done|]. by right.
  - eexists. split; [exact Ed'|]. done.
  - eexists _, _, _. split; [exact Ed'|]. split; [done|]. split; [exact En|]. done.
  - done.
Qed.

(** Before the first start tag [synthDecl] leaves the cursor at depth 1 on a
    declaration or processing instruction among the children of the
    document node. *)
Lemma synthDecl_beforeRoot p p1 :
  treeInv p → beforeRoot p → synthDecl p = Some p1 →
  noElement (mem p1)
  ∧ ∃ dn, mem p1 !! doc p1 = Some dn ∧ atProlog p1 dn.
Proof.
  intros I (N & dn & Ed & Ld & Td & [HA|HA]) H.
  - destruct (synthDecl_atDocument _ _ _ I N Ed Ld Td HA H) as ((N1 & _) & P & _).
    by split.
  - unfold synthDecl in H. destruct HA as (Hl & HA).
    rewrite decide_False in H by lia. injection H as <-. split; [done|].
    exists dn. by split.
Qed.

(** The first start tag puts its element among the children of the
    document node. *)
Lemma startElement_beforeRoot p name attr c p' c' :
  treeInv p → beforeRoot p →
  startElement p name attr c = Continue p' c' → elementChild p'.
Proof.
  intros I B. unfold startElement, alloc.
  destruct (synthDecl p) as [p1|] eqn:Hs; [|done].
  destruct (synthDecl_treeInv _ _ I Hs) as (I1 & _ & _).
  destruct (synthDecl_beforeRoot _ _ I B Hs)
    as (N1 & dn & Ed & Hl & q & qn & Hpv & Eq & Lq & Tq & Hr).
  destruct (_ && _); [done|].
  remember (setSpaces (once p1) (bindAttrs (p_level p1) (space2prefix p1) attr) p1)
    as p2 eqn:E2.
  assert (I2 : treeInv p2) by (by subst p2).
  assert (Ed2 : mem p2 !! doc p2 = Some dn) by (by subst p2).
  assert (Hl2 : p_level p2 = 1) by (by subst p2).
  assert (Hpv2 : prev p2 = Some q) by (by subst p2).
  assert (Eq2 : mem p2 !! q = Some qn) by (by subst p2).
  assert (Hr2 : reach (mem p2) (FirstChild dn) q) by (by subst p2).
  replace (mem p1) with (mem p2) by (by subst p2).
  replace (p_level p1) with (p_level p2) by (by subst p2).
  clear E2 Ed Hl Hpv Eq Hr.
  destruct (attachNode _ _) as [p3|] eqn:Ha; [|done].
  pose proof I2 as (W2 & _).
  assert (Hq : (q < length (mem p2))%nat) by (by eapply lookup_lt_Some).
  apply (attach_sibling_of_cursor _ _ q qn) in Ha as (h3 & Hh & ->);
    [|done|done|congruence].
  destruct (prolog_append _ _ _ _ _ _ W2 (fresh_newNode _ _ _ _ _) Hq Ed2 Hr2 Hh)
    as (W3 & _ & _ & dn' & nd' & Ed' & _ & _ & _ & _ & Rn & En & Tn & _).
  destruct (rederivePrefix _ _) as [p4|] eqn:Hrd; [|done].
  destruct (rederivePrefix_treeInv (setMem h3 p2) _ _ W3 Hrd) as (_ & St4 & _ & (h4 & ->)).
  unfold markStream. simpl.
  destruct I2 as (_ & _ & _ & -> & _). intros [= <- <-].
  apply (elementChild_stable (setMem h3 p2)); [|done|done].
  exists dn', (length (mem p2)), nd'. simpl. by rewrite Tn.
Qed.

(** A step fails on a namespace that is not bound, and on nothing else. *)
Lemma step_Fail tok p c e p' :
  step tok p c = Fail e p' → ∃ sp, e = ErrNamespaceMissing sp.
Proof.
  destruct tok; simpl.
  - unfold startElement, alloc. destruct (synthDecl p); [|done].
    destruct (_ && _); [intros [= <- _]; eauto|].
    destruct (attachNode _ _); [|done]. destruct (rederivePrefix _ _); [|done].
    by destruct (markStream _ _ _).
  - unfold endElement. by repeat case_match.
  - unfold addLeaf, alloc. by destruct (attachNode _ _).
  - unfold addLeaf, alloc. by destruct (attachNode _ _).
  - unfold procInst, alloc. destruct (_ ≫= _); [|done]. by destruct (attachNode _ _).
  - unfold addLeaf, alloc. by destruct (attachNode _ _).
Qed.

(** ** The whole run *)

(** A run of the loop that ends at the end of the input keeps the tree well
    formed and everything it had built. *)
Lemma parseLoop_treeInv : ∀ toks p c p',
  treeInv p → parseLoop toks p c = (Err EOF, p') →
  treeInv p' ∧ stable (mem p) (mem p') ∧ doc p' = doc p.
Proof.
  induction toks as [|[tok cache] rest IH]; intros p c p' I; simpl.
  - intros [= _ <-]. split; [done|]. split; [apply stable_refl|done].
  - match goal with |- context [step tok ?q c] => set (p1 := q) end.
    assert (I1 : treeInv p1) by exact I.
    assert (D1 : doc p1 = doc p) by done. assert (M1 : mem p1 = mem p) by done.
    destruct (step tok p1 c) as [p2 c2|n p2|e p2|] eqn:Hs; try done.
    + intros H. destruct (step_treeInv _ _ _ _ _ I1 Hs) as (I2 & St2 & D2).
      destruct (IH _ _ _ I2 H) as (I' & St' & D').
      split; [done|]. split; [|congruence].
      apply (stable_trans _ (mem p2)); [by rewrite <- M1|done].
    + intros [= -> _]. by destruct (step_Fail _ _ _ _ _ Hs).
Qed.

Lemma charDataType_not_element cache : charDataType cache ≠ ElementNode.
Proof. unfold charDataType. by destruct (_ || _). Qed.

(** Up to the first start tag the parser stays before the root; from the
    first start tag on an element is among the children of the document. *)
Lemma parseLoop_beforeRoot : ∀ toks p c p',
  treeInv p → beforeRoot p → balancedFrom 0 (map fst toks) = true →
  parseLoop toks p c = (Err EOF, p') →
  treeInv p' ∧ doc p' = doc p ∧ (beforeRoot p' ∨ elementChild p').
Proof.
  induction toks as [|[tok cache] rest IH]; intros p c p' I B Hb; simpl.
  - intros [= _ <-]. split; [done|]. split; [done|by left].
  - match goal with |- context [step tok ?q c] => set (p1 := q) end.
    assert (I1 : treeInv p1) by exact I.
    assert (D1 : doc p1 = doc p) by done. assert (M1 : mem p1 = mem p) by done.
    assert (B1 : beforeRoot p1) by exact B.
    destruct (step tok p1 c) as [p2 c2|n p2|e p2|] eqn:Hs; try done.
    + intros H. destruct (step_treeInv _ _ _ _ _ I1 Hs) as (I2 & St2 & D2).
      assert (Later : elementChild p2 → treeInv p' ∧ doc p' = doc p
                                        ∧ (beforeRoot p' ∨ elementChild p')).
      { intros E2. destruct (parseLoop_treeInv _ _ _ _ I2 H) as (I' & St' & D').
        split; [done|]. split; [congruence|]. right.
        by apply (elementChild_stable p2). }
      assert (Go : beforeRoot p2 → balancedFrom 0 (map fst rest) = true →
                   treeInv p' ∧ doc p' = doc p ∧ (beforeRoot p' ∨ elementChild p')).
      { intros B2 Hb2. destruct (IH _ _ _ I2 B2 Hb2 H) as (I' & D' & R).
        split; [done|]. split; [congruence|done]. }
      destruct tok as [name attr|name|data|data|target inst|data]; simpl in Hs, Hb.
      * apply Later. by apply (startElement_beforeRoot p1 name attr c p2 c2).
      * done.
      * apply Go; [|done].
        by apply (addLeaf_beforeRoot p1 _ data c p2 c2 I1 B1
                    (charDataType_not_element (reader p1))).
      * apply Go; [|done]. by apply (addLeaf_beforeRoot p1 CommentNode data c p2 c2).
      * apply Go; [|done]. by apply (procInst_beforeRoot p1 target inst c p2 c2).
      * apply Go; [|done]. by apply (addLeaf_beforeRoot p1 NotationNode data c p2 c2).
    + intros [= -> _]. by destruct (step_Fail _ _ _ _ _ Hs).
Qed.

(** ** The validity check *)

Lemma hasElement_true h :
  hasElement h = true ↔ ∃ a x, h !! a = Some x ∧ NType x = ElementNode.
Proof.
  unfold hasElement. rewrite existsb_exists. split.
  - intros (x & Hin & Hx). apply list_elem_of_In, list_elem_of_lookup in Hin as [a Ea].
    exists a, x. split; [done|]. by apply bool_decide_eq_true in Hx.
  - intros (a & x & Ea & Hx). exists x. split.
    + apply list_elem_of_In, list_elem_of_lookup. eauto.
    + by apply bool_decide_eq_true.
Qed.

Lemma noElement_hasElement h : noElement h ↔ hasElement h = false.
Proof.
  rewrite <- not_true_iff_false, hasElement_true. split.
  - intros N (a & x & Ea & Hx). by apply (N a x).
  - intros Hn a x Ea Hx. apply Hn. eauto.
Qed.

(** The inner loop of the check ends, and finds an element exactly when one
    is reached over next-sibling links. *)
Lemma hasElementFrom_spec h : wfLinks h → ∀ fuel n,
  (∀ a, n = Some a → (a < length h ∧ length h - a ≤ fuel)%nat) →
  ∃ b, hasElementFrom fuel h n = Some b
    ∧ (b = true ↔ ∃ e en, reach h n e ∧ h !! e = Some en ∧ NType en = ElementNode).
Proof.
  intros W. induction fuel as [|fuel IH]; intros [a|] Hn.
  - destruct (Hn a eq_refl). lia.
  - exists false. split; [done|]. split; [done|]. intros (e & en & Hr & _). inversion Hr.
  - destruct (Hn a eq_refl) as [Ha Hf]. simpl.
    destruct (lookup_lt_is_Some_2 h a Ha) as [nd End]. rewrite End. simpl.
    case_decide as Ht.
    + exists true. split; [done|]. split; [|done]. intros _. exists a, nd.
      split; [constructor|done].
    + destruct (IH (NextSibling nd)) as (b & Eb & Hb).
      { intros b Hnb. destruct (W a nd End) as (W1 & _). specialize (W1 b Hnb). lia. }
      exists b. split; [done|]. rewrite Hb. split.
      * intros (e & en & Hr & He). exists e, en. split; [|done]. by apply (reach_next _ a nd).
      * intros (e & en & Hr & Ee & He). inversion Hr; subst.
        -- rewrite End in Ee. injection Ee as <-. done.
        -- exists e, en. split; [|done]. congruence.
  - exists false. split; [done|]. split; [done|]. intros (e & en & Hr & _). inversion Hr.
Qed.

(** The outer loop ends too; it says no when the arena has no element, and
    yes when an element is among the children of the node it starts from. *)
Lemma validFrom_spec h : wfLinks h → ∀ fuel a,
  (a < length h)%nat → (length h - a ≤ fuel)%nat →
  ∃ b, validFrom fuel h (Some a) = Some b
    ∧ (noElement h → b = false)
    ∧ (∀ nd, h !! a = Some nd →
         (∃ e en, reach h (FirstChild nd) e ∧ h !! e = Some en ∧ NType en = ElementNode) →
         b = true).
Proof.
  intros W. induction fuel as [|fuel IH]; intros a Ha Hf; [lia|]. simpl.
  destruct (lookup_lt_is_Some_2 h a Ha) as [nd End]. rewrite End. simpl.
  destruct (W a nd End) as (W1 & W2 & _).
  destruct (hasElementFrom_spec h W (length h) (FirstChild nd)) as (b1 & E1 & H1).
  { intros c Hc. specialize (W2 c Hc). lia. }
  rewrite E1. simpl.
  assert (∃ b2, validFrom fuel h (NextSibling nd) = Some b2 ∧ (noElement h → b2 = false))
    as (b2 & E2 & H2).
  { destruct (NextSibling nd) as [b|] eqn:Hn.
    - specialize (W1 b eq_refl). destruct (IH b) as (b2 & ? & ? & _); [lia|lia|]. eauto.
    - exists false. by destruct fuel. }
  rewrite E2. simpl. exists (b1 || b2). split; [done|]. split.
  - intros N. rewrite (H2 N). destruct b1; [|done].
    destruct (proj1 H1 eq_refl) as (e & en & _ & Ee & He). by destruct (N e en).
  - intros nd' [= <-] He. by rewrite (proj2 H1 He).
Qed.

Lemma parseAll_Err f p e p' : parse p = (Err e, p') → parseAll (S f) p = (Ok e, p').
Proof. intros H. simpl. by rewrite H. Qed.

(** The parser that [ParseWithOptions] starts from. *)
Lemma initial_parser toks fin options :
  let p := onceDo (applyOptions options (createParser toks fin)) in
  treeInv p ∧ beforeRoot p ∧ pending (decoder p) = toks
  ∧ doc p = 0%nat ∧ mem p = [newNode DocumentNode "" "" [] 0].
Proof.
  assert (W : wfLinks [newNode DocumentNode "" "" [] 0]).
  { intros [|a] x; [|done]. intros [= <-]. by repeat split. }
  assert (N : noElement [newNode DocumentNode "" "" [] 0]).
  { intros [|a] x; [|done]. by intros [= <-]. }
  destruct options as [[[s]|] ln]; unfold onceDo, applyOptions; simpl.
  - split; [|split; [|done]].
    + split; [done|]. split; [exists 0%nat; simpl; split; [done|lia]|]. simpl. split; [lia|done].
    + split; [done|]. eexists. split; [done|]. split; [done|]. split; [done|]. by left.
  - split; [|split; [|done]].
    + split; [done|]. split; [exists 0%nat; simpl; split; [done|lia]|]. simpl. split; [lia|done].
    + split; [done|]. eexists. split; [done|]. split; [done|]. split; [done|]. by left.
Qed.


(** Without a stream target no step returns a node. *)
Lemma step_no_yield tok p c n p' : treeInv p → step tok p c ≠ Return n p'.
Proof.
  intros (_ & _ & _ & _ & Hs). destruct tok; simpl.
  - unfold startElement, alloc. destruct (synthDecl p); [|done].
    destruct (_ && _); [done|].
    destruct (attachNode _ _); [|done]. destruct (rederivePrefix _ _); [|done].
    by destruct (markStream _ _ _).
  - unfold endElement. simpl. by rewrite Hs.
  - unfold addLeaf, alloc. by destruct (attachNode _ _).
  - unfold addLeaf, alloc. by destruct (attachNode _ _).
  - unfold procInst, alloc. destruct (_ ≫= _); [|done]. by destruct (attachNode _ _).
  - unfold addLeaf, alloc. by destruct (attachNode _ _).
Qed.

Lemma parseLoop_no_yield : ∀ toks p c n p', treeInv p → parseLoop toks p c ≠ (Ok n, p').
Proof.
  induction toks as [|[tok cache] rest IH]; intros p c n p' I; simpl; [done|].
  match goal with |- context [step tok ?q c] => set (p1 := q) end.
  assert (I1 : treeInv p1) by exact I.
  destruct (step tok p1 c) as [p2 c2|m p2|e p2|] eqn:Hs; try done.
  - apply IH. by destruct (step_treeInv _ _ _ _ _ I1 Hs).
  - by destruct (step_no_yield _ _ _ _ _ I1 Hs).
Qed.

(** A tree is returned only when the one call of [parse] ran to the end of
    the input. *)
Lemma ParseWithOptions_Ok toks fin options d h :
  ParseWithOptions toks fin options = Ok (d, h) →
  ∃ p', parse (applyOptions options (createParser toks fin)) = (Err EOF, p')
        ∧ d = doc p' ∧ h = mem p'.
Proof.
  unfold ParseWithOptions.
  destruct (initial_parser toks fin options) as (I & _ & Hp & _).
  destruct (parse _) as [[n|e|] p'] eqn:Hparse.
  - unfold parse in Hparse. by apply parseLoop_no_yield in Hparse.
  - rewrite (parseAll_Err _ _ _ _ Hparse). destruct e; try done.
    destruct (validFrom _ _ _) as [[|]|]; try done. intros [= <- <-]. eauto.
  - simpl. by rewrite Hparse.
Qed.






(** ** Missing declaration *)




(** ** Post-parse validity *)

(** C7 — Post-parse validity.  On token streams as the decoder reports them
    (no end tag without its start tag), when the token-level parse runs to
    the normal end of the input: [ParseWithOptions] returns the tree
    exactly when some node made during the parse is an Element (which is
    then among the children of the document node), and returns the error
    "xmlquery: invalid XML document", and no tree, exactly when none is. *)
Theorem post_parse_validity toks fin options p' :
  balancedFrom 0 (map fst toks) = true →
  parse (applyOptions options (createParser toks fin)) = (Err EOF, p') →
  (hasElement (mem p') = true
   ↔ ParseWithOptions toks fin options = Ok (doc p', mem p'))
  ∧ (hasElement (mem p') = false
     ↔ ParseWithOptions toks fin options = Err ErrInvalidDocument)
  ∧ (hasElement (mem p') = true → elementChild p')
  ∧ errorString ErrInvalidDocument = "xmlquery: invalid XML document"%string.
Proof.
  intros Hb Hparse.
  destruct (initial_parser toks fin options) as (I & B & Hp & _).
  pose proof Hparse as HL. unfold parse in HL. rewrite Hp in HL.
  destruct (parseLoop_beforeRoot _ _ _ _ I B Hb HL) as (I' & _ & Hcases).
  pose proof I' as (W' & _ & Hd' & _).
  destruct (validFrom_spec _ W' (length (mem p')) (doc p') Hd' ltac:(lia))
    as (b & Eb & Hno & Hyes).
  assert (Hres : ParseWithOptions toks fin options
                 = if b then Ok (doc p', mem p') else Err ErrInvalidDocument).
  { unfold ParseWithOptions. rewrite (parseAll_Err _ _ _ _ Hparse). by rewrite Eb. }
  rewrite Hres.
  destruct Hcases as [(N & _)|E].
  - rewrite (Hno N). apply noElement_hasElement in N. rewrite N. by repeat split.
  - assert (Hel : hasElement (mem p') = true).
    { destruct E as (dn & e & en & _ & _ & Ee & T). apply hasElement_true. eauto. }
    destruct E as (dn & e & en & Ed & Hr & Ee & T).
    rewrite (Hyes dn Ed) by eauto. rewrite Hel.
    split; [done|]. split; [done|]. split; [|done].
    intros _. by exists dn, e, en.
Qed.

Lemma post_parse_validity_witness :
  (hasElement (mem (parse (createParser doc_text EOF)).2) = true
   ↔ Parse doc_text EOF
     = Ok (doc (parse (createParser doc_text EOF)).2,
           mem (parse (createParser doc_text EOF)).2))
  ∧ (hasElement (mem (parse (createParser doc_text EOF)).2) = false
     ↔ Parse doc_text EOF = Err ErrInvalidDocument)
  ∧ (hasElement (mem (parse (createParser doc_text EOF)).2) = true
     → elementChild (parse (createParser doc_text EOF)).2)
  ∧ errorString ErrInvalidDocument = "xmlquery: invalid XML document"%string.
Proof.
  apply (post_parse_validity doc_text EOF (mkOptions None false)).
  - vm_compute. reflexivity.
  - vm_compute. reflexivity.
Defined.

(** A document with a comment and no element is parsed to the end of the
    input and then refused; the document [<a>x</a>] is returned. *)
Example comment_only_is_invalid :
  (parse (createParser doc_comment_only EOF)).1 = Err EOF
  ∧ Parse doc_comment_only EOF = Err ErrInvalidDocument
  ∧ hasElement (mem (parse (createParser doc_comment_only EOF)).2) = false
  ∧ hasElement (mem (parse (createParser doc_text EOF)).2) = true.
Proof. repeat split; vm_compute; reflexivity. Qed.


(** ** Line numbers *)

Lemma lineScan_before data : ∀ off pos i,
  pos ≤ off → lineScan pos i (lineStartsFrom off data) i = i.
Proof.
  induction data as [|b rest IH]; intros off pos i Hp; simpl; [done|].
  destruct (Ascii.eqb b "010"); simpl.
  - rewrite decide_True by lia. done.
  - apply IH. lia.
Qed.

Lemma lineScan_counts data : ∀ off pos i,
  off ≤ pos →
  lineScan pos i (lineStartsFrom off data) i
  = i + Z.of_nat (countByte "010" (takeBytes (Z.to_nat (pos - off)) data)).
Proof.
  induction data as [|b rest IH]; intros off pos i Hp.
  - simpl. destruct (Z.to_nat _); simpl; lia.
  - destruct (decide (pos = off)) as [->|Hne].
    { rewrite lineScan_before by lia. rewrite Z.sub_diag. simpl. lia. }
    replace (Z.to_nat (pos - off)) with (S (Z.to_nat (pos - (off + 1)))) by lia.
    simpl. destruct (Ascii.eqb b "010"); simpl.
    + rewrite decide_False by lia. rewrite IH by lia. lia.
    + rewrite IH by lia. lia.
Qed.

Lemma countByte_takeBytes c : ∀ s n, (countByte c (takeBytes n s) ≤ countByte c s)%nat.
Proof.
  induction s as [|d r IH]; intros [|n]; simpl; try lia.
  specialize (IH n). lia.
Qed.

Lemma lineStartsFrom_length data : ∀ off,
  length (lineStartsFrom off data) = countByte "010" data.
Proof.
  induction data as [|b rest IH]; intros off; simpl; [done|].
  destruct (Ascii.eqb b "010"); simpl; by rewrite IH.
Qed.

Lemma getLineForPosition_lineStartsOf data pos :
  0 ≤ pos →
  getLineForPosition (lineStartsOf data) pos
  = 1 + Z.of_nat (countByte "010" (takeBytes (Z.to_nat pos) data)).
Proof.
  intros Hp. unfold getLineForPosition, lineStartsOf. rewrite decide_False by lia.
  cbn [lineScan]. rewrite decide_False by lia. change (0 + 1) with 1.
  rewrite (lineScan_counts data 0 pos 1) by lia. by rewrite Z.sub_0_r.
Qed.

(** X1 — The line of a position is 1 plus the number of line breaks before
    it: with the line starts computed from [data], for every position
    [pos >= 0] (also one past the end of the data) [getLineForPosition]
    returns 1 + the number of newline bytes among the first [pos] bytes of
    [data], which is at most the number of lines. *)
Theorem getLineForPosition_counts_newlines data pos :
  0 ≤ pos →
  getLineForPosition (lineStartsOf data) pos
  = 1 + Z.of_nat (countByte "010" (takeBytes (Z.to_nat pos) data))
  ∧ getLineForPosition (lineStartsOf data) pos ≤ Z.of_nat (length (lineStartsOf data)).
Proof.
  intros Hp. rewrite getLineForPosition_lineStartsOf by done. split; [done|].
  change (length (lineStartsOf data)) with (S (length (lineStartsFrom 0 data))).
  rewrite lineStartsFrom_length.
  pose proof (countByte_takeBytes "010" data (Z.to_nat pos)). lia.
Qed.

Lemma getLineForPosition_counts_newlines_witness :
  getLineForPosition (lineStartsOf ("a" ++ String "010" "b")) 2
  = 1 + Z.of_nat (countByte "010" (takeBytes (Z.to_nat 2) ("a" ++ String "010" "b")))
  ∧ getLineForPosition (lineStartsOf ("a" ++ String "010" "b")) 2
    ≤ Z.of_nat (length (lineStartsOf ("a" ++ String "010" "b"))).
Proof. apply getLineForPosition_counts_newlines. lia. Defined.


Lemma HasPrefix_length s : ∀ pre, HasPrefix s pre = true → (String.length pre ≤ String.length s)%nat.
Proof.
  unfold HasPrefix. induction s as [|c r IH]; intros [|d pre]; simpl; try done; try lia.
  destruct (ascii_dec d c); [|done]. intros H. specialize (IH _ H). lia.
Qed.

(** What [Index] returns: -1 when no instance stands anywhere, and otherwise
    the first index at which one stands. *)
Lemma Index_spec sep : ∀ s,
  (Index s sep = -1 ∧ ∀ k, (k ≤ String.length s)%nat → HasPrefix (dropBytes k s) sep = false)
  ∨ (0 ≤ Index s sep ≤ len s - len sep
     ∧ HasPrefix (dropBytes (Z.to_nat (Index s sep)) s) sep = true
     ∧ ∀ k, (k < Z.to_nat (Index s sep))%nat → HasPrefix (dropBytes k s) sep = false).
Proof.
  induction s as [|c r IH].
  - cbn [Index]. destruct (HasPrefix "" sep) eqn:Hp.
    + right. pose proof (HasPrefix_length _ _ Hp) as Hl. unfold len.
      cbn [String.length] in *. split; [lia|]. split; [done|]. intros k Hk. lia.
    + left. split; [done|]. intros [|k] Hk; cbn [dropBytes]; [done|].
      cbn [String.length] in Hk. lia.
  - cbn [Index]. destruct (HasPrefix (String c r) sep) eqn:Hp.
    + right. pose proof (HasPrefix_length _ _ Hp) as Hl. unfold len.
      cbn [String.length] in *. split; [lia|]. split; [done|]. intros k Hk. lia.
    + destruct IH as [[E Hno]|(Hr & Hyes & Hmin)].
      * left. rewrite E. rewrite decide_True by lia. split; [done|].
        intros [|k] Hk; cbn [dropBytes]; [done|]. apply Hno. cbn [String.length] in Hk. lia.
      * right. rewrite decide_False by lia. unfold len in *. cbn [String.length].
        split; [lia|].
        replace (Z.to_nat (Index r sep + 1)) with (S (Z.to_nat (Index r sep))) by lia.
        split; [done|]. intros [|k] Hk; cbn [dropBytes]; [done|]. apply Hmin. lia.
Qed.

Lemma dropBytes_dropBytes : ∀ a b s, dropBytes a (dropBytes b s) = dropBytes (b + a) s.
Proof.
  intros a b. revert a. induction b as [|b IH]; intros a s; simpl; [done|].
  destruct s as [|c r]; simpl; [by destruct a|]. apply IH.
Qed.

Lemma dropBytes_length : ∀ n s, String.length (dropBytes n s) = (String.length s - n)%nat.
Proof.
  induction n as [|n IH]; intros [|c r]; simpl; try done; lia.
Qed.

Lemma dropBytes_all : ∀ n s, (String.length s ≤ n)%nat → dropBytes n s = EmptyString.
Proof.
  induction n as [|n IH]; intros [|c r]; simpl; try done; try lia.
  intros H. apply IH. lia.
Qed.

(** The search from [from]: either nothing stands at or behind [from], or
    the first instance from there on is found. *)
Lemma Index_from data pattern from found :
  0 ≤ from ≤ len data →
  found = Index (dropBytes (Z.to_nat from) data) pattern →
  (found < 0 ∧ ∀ k, from ≤ k ≤ len data → ¬ occursAt data pattern k)
  ∨ (0 ≤ found ∧ firstFrom data pattern from (from + found)
     ∧ from + found + len pattern ≤ len data).
Proof.
  intros Hf Ef. unfold len in *.
  destruct (Index_spec pattern (dropBytes (Z.to_nat from) data))
    as [[E Hno]|(Hr & Hyes & Hmin)]; rewrite <- Ef in *.
  - left. split; [lia|]. intros k Hk [_ Ho].
    specialize (Hno (Z.to_nat (k - from))). rewrite dropBytes_dropBytes in Hno.
    replace (Z.to_nat from + Z.to_nat (k - from))%nat with (Z.to_nat k) in Hno by lia.
    rewrite Hno in Ho; [done|]. rewrite dropBytes_length. lia.
  - right. unfold len in Hr. rewrite dropBytes_length in Hr.
    split; [lia|]. split; [|lia]. split; [lia|]. split.
    + split; [lia|]. rewrite dropBytes_dropBytes in Hyes.
      by replace (Z.to_nat (from + found)) with (Z.to_nat from + Z.to_nat found)%nat by lia.
    + intros j Hj [_ Ho]. specialize (Hmin (Z.to_nat (j - from)) ltac:(lia)).
      rewrite dropBytes_dropBytes in Hmin.
      replace (Z.to_nat from + Z.to_nat (j - from))%nat with (Z.to_nat j) in Hmin by lia.
      congruence.
Qed.

Lemma firstFrom_unique data pattern from k1 k2 :
  firstFrom data pattern from k1 → firstFrom data pattern from k2 → k1 = k2.
Proof.
  intros (H1 & O1 & M1) (H2 & O2 & M2).
  destruct (Z.lt_trichotomy k1 k2) as [Hlt|[->|Hlt]]; [|done|].
  - destruct (M2 k1); [lia|done].
  - destruct (M1 k2); [lia|done].
Qed.

Lemma occursAt_in_data data pattern k :
  pattern ≠ EmptyString → occursAt data pattern k → k < len data.
Proof.
  intros Hne [Hk Ho]. unfold len.
  destruct (decide (k < Z.of_nat (String.length data))) as [|Hge]; [done|].
  rewrite dropBytes_all in Ho by lia. by destruct pattern.
Qed.

(** The loop finds the [m]-th instance behind [pos] when [m] more are to be
    counted, and gives line 1 when there is none. *)
Lemma findNthFrom_spec lineStarts data pattern n :
  pattern ≠ EmptyString →
  ∀ fuel pos count m,
    0 ≤ pos ≤ len data → 0 ≤ count → n - count = Z.of_nat (S m) →
    len data - pos < Z.of_nat fuel →
    (∀ k, nthOccurrenceFrom data pattern pos (S m) k →
          findNthFrom fuel lineStarts data pattern n pos count
          = Some (getLineForPosition lineStarts k))
    ∧ ((∀ k, ¬ nthOccurrenceFrom data pattern pos (S m) k) →
       findNthFrom fuel lineStarts data pattern n pos count = Some 1).
Proof.
  intros Hne. assert (Hlen : 1 ≤ len pattern) by (unfold len; destruct pattern; [done|simpl; lia]).
  induction fuel as [|fuel IH]; intros pos count m Hpos Hc Hm Hfuel; [lia|].
  cbn [findNthFrom].
  destruct (Index_from data pattern pos _ Hpos eq_refl)
    as [[Hneg Hnone]|(Hfound & Hfirst & Hend)].
  - rewrite decide_True by done. split; [|done].
    intros k Hk. exfalso.
    assert (∃ j, firstFrom data pattern pos j) as (j & Hj & Ho & _).
    { inversion Hk; subst; eauto. }
    apply (Hnone j); [|done]. pose proof (occursAt_in_data _ _ _ Hne Ho). lia.
  - rewrite decide_False by lia.
    set (j := pos + Index (dropBytes (Z.to_nat pos) data) pattern) in *.
    destruct m as [|m].
    + rewrite decide_True by lia. split.
      * intros k Hk. inversion Hk as [? ? Hf|? ? ? ? Hf Hn]; subst.
        -- by rewrite (firstFrom_unique _ _ _ _ _ Hf Hfirst).
        -- inversion Hn.
      * intros Hno. destruct (Hno j). by constructor.
    + rewrite decide_False by lia.
      destruct (IH (j + len pattern) (count + 1) m) as [IH1 IH2]; try lia.
      split.
      * intros k Hk. inversion Hk as [|? j' ? ? Hf Hn]; subst.
        rewrite (firstFrom_unique _ _ _ _ _ Hf Hfirst) in Hn. by apply IH1.
      * intros Hno. apply IH2. intros k Hk. apply (Hno k).
        by apply (occ_next _ _ _ j).
Qed.

(** X2 — The n-th text and the n-th comment.  For a non-empty text and
    [n >= 1], [findNthTextLine] ends and returns the line of the position
    where the [n]-th instance of the text stands in the data (instances
    counted from the left without overlap), and line 1 when the data has
    fewer than [n] instances.  [findNthCommentLine] does the same for the
    text of the comment between "<!--" and "-->". *)
Theorem findNth_line lineStarts data text content n :
  1 ≤ n →
  (text ≠ EmptyString →
   (∀ k, nthOccurrence data text (Z.to_nat n) k →
         findNthTextLine lineStarts text n data = Some (getLineForPosition lineStarts k))
   ∧ ((∀ k, ¬ nthOccurrence data text (Z.to_nat n) k) →
      findNthTextLine lineStarts text n data = Some 1))
  ∧ (∀ k, nthOccurrence data ("<!--" ++ content ++ "-->") (Z.to_nat n) k →
          findNthCommentLine lineStarts content n data
          = Some (getLineForPosition lineStarts k))
  ∧ ((∀ k, ¬ nthOccurrence data ("<!--" ++ content ++ "-->") (Z.to_nat n) k) →
     findNthCommentLine lineStarts content n data = Some 1).
Proof.
  intros Hn.
  assert (G : ∀ pattern, pattern ≠ EmptyString →
    (∀ k, nthOccurrence data pattern (Z.to_nat n) k →
          findNthFrom (S (String.length data)) lineStarts data pattern n 0 0
          = Some (getLineForPosition lineStarts k))
    ∧ ((∀ k, ¬ nthOccurrence data pattern (Z.to_nat n) k) →
       findNthFrom (S (String.length data)) lineStarts data pattern n 0 0 = Some 1)).
  { intros pattern Hne. unfold nthOccurrence.
    replace (Z.to_nat n) with (S (Z.to_nat (n - 1))) by lia.
    apply findNthFrom_spec; unfold len; try done; lia. }
  split; [exact (G text)|]. by apply (G ("<!--" ++ content ++ "-->")%string).
Qed.

Lemma findNth_line_witness :
  findNthTextLine (lineStartsOf ("ab" ++ String "010" "ab")) "ab" 2
    ("ab" ++ String "010" "ab")
  = Some (getLineForPosition (lineStartsOf ("ab" ++ String "010" "ab")) 3).
Proof.
  refine (proj1 (proj1 (findNth_line (lineStartsOf ("ab" ++ String "010" "ab"))
                          ("ab" ++ String "010" "ab") "ab" "" 2 _) _) 3 _).
  - lia.
  - discriminate.
  - apply (occ_next _ _ 0 0 1 3).
    + split; [lia|]. split; [by split|]. intros j Hj. lia.
    + apply occ_first. split; [unfold len; simpl; lia|]. split; [by split|].
      intros j Hj [_ Ho]. unfold len in Hj. simpl in Hj.
      assert (j = 2) as -> by lia. by vm_compute in Ho.
Defined.

(** X3 — The line of the declaration: with the line starts computed from the
    data, [findDeclarationLine] returns 1 plus the number of line breaks
    before the first "<?xml" in the data, and 1 when the data has no
    "<?xml"; [findProcessingInstructionPosition] does the same for "<?"
    followed by the target. *)
Theorem findDeclarationLine_spec data target :
  (∀ k, firstFrom data "<?xml" 0 k →
        findDeclarationLine (lineStartsOf data) data
        = 1 + Z.of_nat (countByte "010" (takeBytes (Z.to_nat k) data)))
  ∧ ((∀ k, ¬ occursAt data "<?xml" k) → findDeclarationLine (lineStartsOf data) data = 1)
  ∧ (∀ k, firstFrom data ("<?" ++ target) 0 k →
          findProcessingInstructionPosition (lineStartsOf data) data target
          = 1 + Z.of_nat (countByte "010" (takeBytes (Z.to_nat k) data)))
  ∧ ((∀ k, ¬ occursAt data ("<?" ++ target) k) →
     findProcessingInstructionPosition (lineStartsOf data) data target = 1).
Proof.
  assert (G : ∀ pattern,
    (∀ k, firstFrom data pattern 0 k →
       (if decide (Index data pattern >= 0)
        then getLineForPosition (lineStartsOf data) (Index data pattern) else 1)
       = 1 + Z.of_nat (countByte "010" (takeBytes (Z.to_nat k) data)))
    ∧ ((∀ k, ¬ occursAt data pattern k) →
       (if decide (Index data pattern >= 0)
        then getLineForPosition (lineStartsOf data) (Index data pattern) else 1) = 1)).
  { intros pattern.
    destruct (Index_from data pattern 0 (Index data pattern))
      as [[Hneg Hnone]|(Hfound & Hfirst & Hend)]; [unfold len; lia|done| |].
    - rewrite decide_False by lia. split; [|done].
      intros k (Hk & Ho & _). exfalso.
      destruct (decide (k ≤ len data)) as [Hle|Hgt]; [by apply (Hnone k)|].
      destruct Ho as [_ Ho]. rewrite dropBytes_all in Ho by (unfold len in Hgt; lia).
      destruct pattern; [|done].
      apply (Hnone 0); [unfold len; lia|]. split; [done|]. by destruct data.
    - rewrite decide_True by lia. simpl in Hfirst. split.
      + intros k Hk. rewrite <- (firstFrom_unique _ _ _ _ _ Hfirst Hk).
        apply getLineForPosition_lineStartsOf. lia.
      + intros Hno. destruct Hfirst as (_ & Ho & _). by destruct (Hno _ Ho). }
  split; [apply (G "<?xml"%string)|]. split; [apply (G "<?xml"%string)|].
  split; apply (G ("<?" ++ target)%string).
Qed.

Lemma findDeclarationLine_spec_witness :
  findDeclarationLine (lineStartsOf (String "010" "<?xml?>")) (String "010" "<?xml?>")
  = 1 + Z.of_nat (countByte "010" (takeBytes (Z.to_nat 1) (String "010" "<?xml?>"))).
Proof.
  apply (proj1 (findDeclarationLine_spec (String "010" "<?xml?>") "") 1).
  split; [lia|]. split; [by split|]. intros j Hj [_ Ho].
  assert (j = 0) as -> by lia. by vm_compute in Ho.
Defined.


(** ** The cached reader *)

Lemma store_bounded c b :
  CachedReader.bounded c → CachedReader.cacheLen c < CachedReader.cacheCap c →
  ∃ c', CachedReader.store c b = Some c' ∧ CachedReader.bounded c'
    ∧ CachedReader.cacheLen c' = CachedReader.cacheLen c + 1
    ∧ CachedReader.cacheCap c' = CachedReader.cacheCap c
    ∧ CachedReader.buffer c' = CachedReader.buffer c
    ∧ CachedReader.caching c' = CachedReader.caching c
    ∧ CachedReader.Cache c' = (λ l, l ++ [b]) <$> CachedReader.Cache c.
Proof.
  intros [Hl Hc] Hlt. unfold CachedReader.store. rewrite decide_True by lia.
  eexists. split; [done|]. unfold CachedReader.bounded, CachedReader.Cache. simpl.
  rewrite length_insert. split; [lia|]. split; [done|]. split; [done|].
  split; [done|]. split; [done|].
  rewrite !decide_True by lia. simpl. f_equal.
  replace (Z.to_nat (CachedReader.cacheLen c + 1))
    with (S (Z.to_nat (CachedReader.cacheLen c))) by lia.
  assert (Hn : (Z.to_nat (CachedReader.cacheLen c) < length (CachedReader.cache c))%nat) by lia.
  rewrite (take_S_r _ _ b) by (by apply list_lookup_insert_eq).
  by rewrite take_insert_ge by lia.
Qed.

Section CachedReaderSteps.
Import CachedReader.

Lemma Cache_bounded c :
  bounded c → ∃ l, Cache c = Some l ∧ Z.of_nat (length l) = cacheLen c.
Proof.
  intros [Hl Hc]. unfold Cache. rewrite decide_True by lia. eexists. split; [done|].
  rewrite length_take. lia.
Qed.

Lemma storeAll_spec p : ∀ c l,
  bounded c → cacheLen c < cacheCap c → Cache c = Some l →
  ∃ c', storeAll c p = Some c' ∧ bounded c'
    ∧ cacheCap c' = cacheCap c ∧ buffer c' = buffer c ∧ caching c' = caching c
    ∧ Cache c' = Some (take (Z.to_nat (cacheCap c)) (l ++ p)).
Proof.
  induction p as [|b rest IH]; intros c l B Hlt El.
  - exists c. split; [done|]. split; [done|]. split; [done|]. split; [done|]. split; [done|].
    destruct (Cache_bounded c B) as (l' & El' & Hlen). rewrite El in El'. injection El' as <-.
    rewrite app_nil_r, take_ge by lia. done.
  - destruct (store_bounded c b B Hlt) as (c1 & Es & B1 & L1 & C1 & F1 & G1 & K1).
    cbn [storeAll]. rewrite Es. simpl. rewrite El in K1. simpl in K1.
    destruct (Cache_bounded c B) as (l' & El' & Hlen). rewrite El in El'. injection El' as <-.
    case_decide as Hfull.
    + exists c1. split; [done|]. split; [done|]. split; [done|]. split; [done|].
      split; [done|]. rewrite K1. f_equal.
      replace (l ++ b :: rest) with ((l ++ [b]) ++ rest) by (by rewrite <- app_assoc).
      rewrite take_app_le by (rewrite length_app; simpl; lia).
      rewrite take_ge; [done|]. rewrite length_app. simpl. lia.
    + destruct (IH c1 (l ++ [b]) B1 ltac:(lia) K1) as (c' & E' & B' & C' & F' & G' & K').
      exists c'. split; [done|]. split; [done|]. split; [congruence|].
      split; [congruence|]. split; [congruence|].
      rewrite K', C1. by rewrite <- app_assoc.
Qed.

(** One read: it does not panic, keeps the bounds, hands over the next
    bytes of the buffer, and adds them to the cache, up to the capacity,
    exactly when caching is on and the call returns no error. *)
Lemma readOp_spec op c l :
  bounded c → Cache c = Some l →
  ∃ p err c',
    match op with
    | OpReadByte => (λ '(b, e, c'), (if e is None then [b] else [], e, c')) <$> ReadByte c
    | OpRead plen chunk early => Read c plen chunk early
    end = Some (p, err, c')
    ∧ bounded c' ∧ cacheCap c' = cacheCap c ∧ caching c' = caching c
    ∧ avail (buffer c) = p ++ avail (buffer c')
    ∧ Cache c' = Some (if caching c
                       then take (Z.to_nat (cacheCap c)) (l ++ if err is None then p else [])
                       else l).
Proof.
  intros B El. destruct (Cache_bounded c B) as (l' & El' & Hlen).
  rewrite El in El'. injection El' as <-.
  assert (Hfull : ¬ cacheLen c < cacheCap c → take (Z.to_nat (cacheCap c)) l = l).
  { intros Hge. destruct B. rewrite take_ge; [done|lia]. }
  assert (Hnil : take (Z.to_nat (cacheCap c)) (l ++ []) = l).
  { rewrite app_nil_r. destruct B. rewrite take_ge; [done|lia]. }
  destruct op as [|plen chunk early].
  - unfold ReadByte, bufReadByte.
    destruct (avail (buffer c)) as [|x rest] eqn:Ea; simpl.
    + destruct (caching c) eqn:Ec; simpl.
      * eexists [], _, _. split; [done|]. simpl. rewrite Ec, Ea.
        split; [done|]. split; [done|]. split; [done|]. split; [done|].
        by rewrite Hnil.
      * eexists [], _, _. split; [done|]. simpl. rewrite Ec, Ea. done.
    + destruct (caching c) eqn:Ec; simpl.
      * case_decide as Hlt.
        -- set (c0 := setBuffer _ c).
           assert (B0 : bounded c0) by done.
           destruct (store_bounded c0 x B0 Hlt) as (c1 & Es & B1 & L1 & C1 & F1 & G1 & K1).
           rewrite Es. simpl. eexists [x], None, c1. split; [done|].
           split; [done|]. split; [done|]. split; [by rewrite G1|].
           rewrite F1. simpl. split; [done|].
           rewrite K1. change (Cache c0) with (Cache c). rewrite El. simpl. f_equal.
           destruct B, B1. rewrite take_ge; [done|]. rewrite length_app. simpl in *. lia.
        -- eexists [x], None, _. split; [done|]. simpl. rewrite Ec.
           split; [done|]. split; [done|]. split; [done|]. split; [done|].
           change (Cache (setBuffer _ c)) with (Cache c). rewrite El. f_equal.
           destruct B. rewrite take_app_le by lia. symmetry. by apply Hfull.
      * eexists [x], None, _. split; [done|]. simpl. rewrite Ec. done.
  - unfold Read, bufRead.
    destruct plen as [|plen].
    { simpl. destruct early.
      { eexists [], (Some _), _. split; [done|]. simpl.
        split; [done|]. split; [done|]. split; [done|]. split; [by destruct c, buffer0|].
        change (Cache (setBuffer _ c)) with (Cache c). destruct (caching c); by rewrite ?Hnil. }
      destruct (caching c) eqn:Ec; simpl.
      - case_bool_decide as Hlt; simpl.
        + eexists [], None, _. split; [done|]. simpl. rewrite Ec.
          split; [done|]. split; [done|]. split; [done|]. split; [by destruct c, buffer0|].
          change (Cache (setBuffer _ c)) with (Cache c). by rewrite Hnil.
        + eexists [], None, _. split; [done|]. simpl. rewrite Ec.
          split; [done|]. split; [done|]. split; [done|]. split; [by destruct c, buffer0|].
          change (Cache (setBuffer _ c)) with (Cache c). by rewrite Hnil.
      - eexists [], None, _. split; [done|]. simpl. rewrite Ec.
        split; [done|]. split; [done|]. split; [done|]. split; [by destruct c, buffer0|].
        done. }
    destruct (avail (buffer c)) as [|x rest] eqn:Ea.
    { simpl. eexists [], _, _. split; [done|]. simpl. rewrite Ea.
      split; [done|]. split; [done|]. split; [done|]. split; [done|].
      change (Cache (setBuffer _ c)) with (Cache c). destruct (caching c); by rewrite ?Hnil. }
    set (n := Nat.min (S plen) (Nat.max 1 chunk)).
    set (c0 := setBuffer _ c). cbv zeta.
    assert (B0 : bounded c0) by done.
    assert (Ha : x :: rest = take n (x :: rest) ++ avail (buffer c0))
      by (simpl; by rewrite take_drop).
    change (caching c0) with (caching c). change (cacheLen c0) with (cacheLen c).
    change (cacheCap c0) with (cacheCap c).
    destruct early.
    { eexists _, (Some _), c0. split; [done|].
      split; [done|]. split; [done|]. split; [done|]. split; [done|].
      change (Cache c0) with (Cache c). destruct (caching c); by rewrite ?Hnil. }
    destruct (caching c) eqn:Ec; simpl.
    + case_bool_decide as Hlt; simpl.
      * destruct (storeAll_spec (take n (x :: rest)) c0 l B0 Hlt El)
          as (c' & E' & B' & C' & F' & G' & K').
        rewrite E'. simpl. eexists _, None, c'. split; [done|].
        split; [done|]. split; [done|]. split; [by rewrite G'|]. rewrite F'.
        split; [done|]. done.
      * eexists _, None, c0. split; [done|].
        split; [done|]. split; [done|]. split; [done|]. split; [done|].
        change (Cache c0) with (Cache c). rewrite El. f_equal.
        destruct B. rewrite take_app_le by lia. symmetry. by apply Hfull.
    + eexists _, None, c0. split; [done|]. done.
Qed.

End CachedReaderSteps.

Section CachedReaderRuns.
Import CachedReader.

Lemma take_take_app {A} n (a b : list A) : take n (take n a ++ b) = take n (a ++ b).
Proof.
  destruct (decide (length a ≤ n)%nat) as [Hle|Hgt].
  - by rewrite (take_ge a) by done.
  - rewrite !take_app_le by (rewrite ?length_take; lia).
    rewrite take_take. by rewrite Nat.min_id.
Qed.

(** A run of reads from a reader within its bounds. *)
Lemma reads_spec ops : ∀ c l,
  bounded c → Cache c = Some l →
  ∃ tr c', reads ops c = Some (tr, c')
    ∧ bounded c' ∧ cacheCap c' = cacheCap c ∧ caching c' = caching c
    ∧ avail (buffer c) = delivered tr ++ avail (buffer c')
    ∧ Cache c' = Some (if caching c
                       then take (Z.to_nat (cacheCap c)) (l ++ deliveredClean tr)
                       else l).
Proof.
  induction ops as [|op ops IH]; intros c l B El.
  - exists [], c. split; [done|]. split; [done|]. split; [done|]. split; [done|].
    split; [done|]. destruct (caching c); [|done].
    destruct (Cache_bounded c B) as (l' & El' & Hlen). rewrite El in El'. injection El' as <-.
    destruct B. unfold deliveredClean. simpl. rewrite app_nil_r, take_ge by lia. done.
  - destruct (readOp_spec op c l B El) as (p & err & c1 & E1 & B1 & C1 & G1 & A1 & K1).
    destruct (IH c1 _ B1 K1) as (tr & c' & E' & B' & C' & G' & A' & K').
    exists ((p, err) :: tr), c'. split.
    + destruct op; simpl in *.
      * destruct (ReadByte c) as [[[b e'] c0]|]; [|done]. simpl in *.
        injection E1 as E2 E3 E4. subst. by rewrite E'.
      * rewrite E1. simpl. by rewrite E'.
    + split; [done|]. split; [congruence|]. split; [congruence|].
      split; [unfold delivered; simpl; by rewrite A1, A', app_assoc|].
      rewrite K', G1, C1. destruct (caching c); [|done]. f_equal.
      unfold deliveredClean. simpl.
      rewrite (app_assoc l _ _). apply take_take_app.
Qed.

(** X4 — What the cache holds.  From a reader within its bounds (as
    [NewCachedReader] makes it), after [StartCaching] every run of calls of
    [ReadByte] and [Read] goes through without a panic and hands over,
    byte for byte, the next bytes of the buffered reader; [Cache] then
    returns, cut to the capacity of the cache, the bytes handed over by the
    calls that returned no error.  Bytes that [Read] returns together with
    an error are handed over but not cached. *)
Theorem cache_holds_bytes_read ops c :
  bounded c →
  ∃ tr c', reads ops (StartCaching c) = Some (tr, c')
    ∧ avail (buffer c) = delivered tr ++ avail (buffer c')
    ∧ Cache c' = Some (take (Z.to_nat (cacheCap c)) (deliveredClean tr))
    ∧ bounded c'.
Proof.
  intros B. assert (B0 : bounded (StartCaching c)).
  { destruct B as [? ?]. split; simpl; [lia|done]. }
  destruct (reads_spec ops (StartCaching c) [] B0) as (tr & c' & E & B' & _ & _ & A & K).
  { unfold Cache. simpl. rewrite decide_True by lia. done. }
  exists tr, c'. done.
Qed.

Lemma cache_holds_bytes_read_witness :
  ∃ tr c',
    reads [OpReadByte; OpRead 2 8 false; OpRead 4096 8 true]
      (StartCaching (NewCachedReader (mkBufReader ["a"; "b"; "c"; "d"]%char EOF)))
    = Some (tr, c')
    ∧ avail (buffer (NewCachedReader (mkBufReader ["a"; "b"; "c"; "d"]%char EOF)))
      = delivered tr ++ avail (buffer c')
    ∧ Cache c'
      = Some (take (Z.to_nat
                      (cacheCap (NewCachedReader (mkBufReader ["a"; "b"; "c"; "d"]%char EOF))))
                (deliveredClean tr))
    ∧ bounded c'.
Proof.
  apply cache_holds_bytes_read. split; [simpl; lia|vm_compute; reflexivity].
Defined.

(** X5 — Outside caching the cache is left alone.  From a reader within its
    bounds that is not caching (after [StopCaching], or fresh from
    [NewCachedReader]), no run of calls of [ReadByte] and [Read] changes
    what [Cache] returns, and the bytes are handed over all the same. *)
Theorem cache_frozen_when_not_caching ops c :
  bounded c →
  ∃ tr c', reads ops (StopCaching c) = Some (tr, c')
    ∧ avail (buffer c) = delivered tr ++ avail (buffer c')
    ∧ Cache c' = Cache c
    ∧ caching c' = false.
Proof.
  intros B. assert (B0 : bounded (StopCaching c)) by done.
  destruct (Cache_bounded c B) as (l & El & _).
  destruct (reads_spec ops (StopCaching c) l B0 El) as (tr & c' & E & B' & _ & G & A & K).
  exists tr, c'. split; [done|]. split; [done|]. split; [|done]. by rewrite K, El.
Qed.

Lemma cache_frozen_when_not_caching_witness :
  ∃ tr c',
    reads [OpRead 3 1 false; OpReadByte]
      (StopCaching (NewCachedReader (mkBufReader ["a"; "b"]%char EOF)))
    = Some (tr, c')
    ∧ avail (buffer (NewCachedReader (mkBufReader ["a"; "b"]%char EOF)))
      = delivered tr ++ avail (buffer c')
    ∧ Cache c' = Cache (NewCachedReader (mkBufReader ["a"; "b"]%char EOF))
    ∧ caching c' = false.
Proof.
  apply cache_frozen_when_not_caching. split; [simpl; lia|vm_compute; reflexivity].
Defined.

End CachedReaderRuns.


(** ** The selector cache: bound and hits *)
Section CacheBound.
Context {CompileOptions CompiledExpr : Type}.
Variable compile : string -> CompileOptions -> error + CompiledExpr.
Variable format : CompileOptions -> string.

Lemma lookupKey_None key (l : list (string * CompiledExpr)) :
  lookupKey key l = None → key ∉ (fst <$> l).
Proof.
  unfold lookupKey. destruct (List.find _ l) as [x|] eqn:E; [done|]. intros _ Hin.
  apply list_elem_of_fmap in Hin as ([k w] & -> & Hin).
  apply list_elem_of_In in Hin. pose proof (find_none _ _ E _ Hin) as Hf. simpl in Hf.
  by apply bool_decide_eq_false in Hf.
Qed.

Lemma dropKey_keys key (l : list (string * CompiledExpr)) :
  key ∉ (fst <$> dropKey key l)
  ∧ (NoDup (fst <$> l) → NoDup (fst <$> dropKey key l))
  ∧ (length (dropKey key l) ≤ length l)%nat
  ∧ (key ∈ (fst <$> l) → (length (dropKey key l) < length l)%nat).
Proof.
  unfold dropKey. induction l as [|[k w] l (IH1 & IH2 & IH3 & IH4)]; simpl.
  - split; [by intros ?%elem_of_nil|]. split; [done|]. split; [done|].
    by intros ?%elem_of_nil.
  - rewrite filter_cons. simpl. case_decide as Hk; simpl.
    + split; [intros [?|?]%elem_of_cons; [done|by apply IH1]|].
      split.
      * intros [Hn Hd]%NoDup_cons. apply NoDup_cons. split; [|by apply IH2].
        intros Hin. apply Hn. apply list_elem_of_fmap in Hin as (x & -> & Hx).
        apply list_elem_of_filter in Hx as [_ Hx]. apply list_elem_of_fmap. eauto.
      * split; [lia|]. intros [?|Hin]%elem_of_cons; [done|]. specialize (IH4 Hin). lia.
    + split; [done|]. split; [intros [_ Hd]%NoDup_cons; by apply IH2|]. split; lia.
Qed.

Lemma lookupKey_Some_key key (l : list (string * CompiledExpr)) v :
  lookupKey key l = Some v → key ∈ (fst <$> l).
Proof.
  intros H%lookupKey_elem. apply list_elem_of_fmap. by exists (key, v).
Qed.

Lemma removelast_keys (l : list (string * CompiledExpr)) :
  (length (removelast l) = length l - 1)%nat
  ∧ (NoDup (fst <$> l) → NoDup (fst <$> removelast l)).
Proof.
  induction l as [|x l [IH1 IH2]]; [done|]. cbn [removelast].
  destruct l as [|y l]; [split; [done|constructor]|].
  split; [cbn [length] in *; lia|].
  rewrite !fmap_cons. intros [Hn Hd]%NoDup_cons. apply NoDup_cons. split; [|by apply IH2].
  intros Hin. apply Hn. apply list_elem_of_fmap in Hin as (z & -> & Hz).
  apply removelast_elem in Hz. by apply (list_elem_of_fmap_2 fst) in Hz.
Qed.

Lemma lruGet_bounded (c : @lruCache CompiledExpr) key r c' :
  0 < MaxEntries c → Z.of_nat (length (entries c)) ≤ MaxEntries c →
  NoDup (fst <$> entries c) →
  lruGet c key = (r, c') →
  MaxEntries c' = MaxEntries c ∧ Z.of_nat (length (entries c')) ≤ MaxEntries c'
  ∧ NoDup (fst <$> entries c')
  ∧ (∀ v, r = Some v → lookupKey key (entries c') = Some v)
  ∧ (r = None → c' = c ∧ lookupKey key (entries c) = None).
Proof.
  intros Hm Hl Hd. unfold lruGet.
  destruct (lookupKey key (entries c)) as [v|] eqn:E.
  - intros [= <- <-]. cbn [entries MaxEntries].
    destruct (dropKey_keys key (entries c)) as (K1 & K2 & K3 & K4).
    specialize (K4 (lookupKey_Some_key _ _ _ E)).
    split; [done|]. split; [cbn [length]; lia|]. split.
    + rewrite fmap_cons. apply NoDup_cons. split; [done|by apply K2].
    + split; [|done]. intros w [= <-]. unfold lookupKey. simpl.
      by rewrite bool_decide_eq_true_2.
  - intros [= <- <-]. split; [done|]. split; [done|]. split; [done|]. split; done.
Qed.

Lemma lruAdd_bounded (c : @lruCache CompiledExpr) key v :
  0 < MaxEntries c → Z.of_nat (length (entries c)) ≤ MaxEntries c →
  NoDup (fst <$> entries c) →
  MaxEntries (lruAdd c key v) = MaxEntries c
  ∧ Z.of_nat (length (entries (lruAdd c key v))) ≤ MaxEntries c
  ∧ NoDup (fst <$> entries (lruAdd c key v))
  ∧ lookupKey key (entries (lruAdd c key v)) = Some v.
Proof.
  intros Hm Hl Hd. unfold lruAdd.
  assert (Hhead : ∀ l, lookupKey key ((key, v) :: l) = Some v).
  { intros l. unfold lookupKey. simpl. by rewrite bool_decide_eq_true_2. }
  destruct (lookupKey key (entries c)) as [w|] eqn:E.
  - cbn [entries MaxEntries].
    destruct (dropKey_keys key (entries c)) as (K1 & K2 & K3 & K4).
    specialize (K4 (lookupKey_Some_key _ _ _ E)).
    split; [done|]. split; [cbn [length]; lia|]. split; [|done].
    rewrite fmap_cons. apply NoDup_cons. split; [done|by apply K2].
  - assert (Hnd : NoDup (fst <$> (key, v) :: entries c)).
    { rewrite fmap_cons. apply NoDup_cons. split; [by apply lookupKey_None|done]. }
    case_decide as Hover; cbn [entries MaxEntries].
    + destruct (removelast_keys ((key, v) :: entries c)) as [R1 R2].
      split; [done|]. split; [rewrite R1; cbn [length]; lia|]. split; [by apply R2|].
      destruct (entries c) as [|y l] eqn:El; [cbn [length] in Hover; lia|].
      cbn [removelast]. apply Hhead.
    + split; [done|]. split; [cbn [length] in *; lia|]. split; [done|]. apply Hhead.
Qed.

Lemma getQuery_bounded g expr opts :
  cacheBounded g → cacheBounded (getQuery compile format g expr opts).2.
Proof.
  intros B. unfold getQuery. case_match eqn:Hoff; [done|].
  apply orb_false_iff in Hoff as [_ Hpos]. apply bool_decide_eq_false in Hpos.
  set (c := match cache g with Some c => c | None => _ end).
  assert (Bc : 0 < MaxEntries c ∧ Z.of_nat (length (entries c)) ≤ MaxEntries c
               ∧ NoDup (fst <$> entries c)).
  { unfold c. destruct (cache g) as [c0|] eqn:Ec; [by apply B|].
    simpl. split; [lia|]. split; [lia|constructor]. }
  destruct Bc as (Hm & Hl & Hd).
  destruct (lruGet c _) as [[w|] c'] eqn:Eg;
    destruct (lruGet_bounded _ _ _ _ Hm Hl Hd Eg) as (M' & L' & D' & _).
  - intros c0 [= <-]. split; [lia|done].
  - destruct (compile expr opts) as [err|w]; intros c0 [= <-].
    + split; [lia|done].
    + destruct (lruAdd_bounded c' (expr ++ format opts) w ltac:(lia) L' D')
        as (M2 & L2 & D2 & _).
      split; [lia|]. split; [lia|done].
Qed.

Lemma reachable_bounded g : reachable compile format g → cacheBounded g.
Proof.
  induction 1 as [disable bound|g disable bound Hr IH|g expr opts Hr IH].
  - by intros c.
  - exact IH.
  - by apply getQuery_bounded.
Qed.

(** A query that succeeded with the cache on leaves its result under its
    key. *)
Lemma getQuery_stores g expr opts v :
  cacheBounded g →
  DisableSelectorCache g = false → 0 < SelectorCacheMaxEntries g →
  (getQuery compile format g expr opts).1 = inr v →
  DisableSelectorCache (getQuery compile format g expr opts).2 = false
  ∧ 0 < SelectorCacheMaxEntries (getQuery compile format g expr opts).2
  ∧ ∃ c, cache (getQuery compile format g expr opts).2 = Some c
      ∧ lookupKey (expr ++ format opts) (entries c) = Some v.
Proof.
  intros B Hon Hpos. unfold getQuery. rewrite Hon. simpl.
  rewrite bool_decide_eq_false_2 by lia.
  set (c := match cache g with Some c => c | None => _ end).
  assert (Bc : 0 < MaxEntries c ∧ Z.of_nat (length (entries c)) ≤ MaxEntries c
               ∧ NoDup (fst <$> entries c)).
  { unfold c. destruct (cache g) as [c0|] eqn:Ec; [by apply B|].
    simpl. split; [lia|]. split; [lia|constructor]. }
  destruct Bc as (Hm & Hl & Hd).
  destruct (lruGet c _) as [[w|] c'] eqn:Eg;
    destruct (lruGet_bounded _ _ _ _ Hm Hl Hd Eg) as (M' & L' & D' & Hhit & _).
  - simpl. intros [= <-]. split; [done|]. split; [done|]. eexists. split; [done|].
    by apply Hhit.
  - destruct (compile expr opts) as [err|w]; simpl; [done|]. intros [= <-].
    split; [done|]. split; [done|]. eexists. split; [done|].
    by apply lruAdd_bounded; [lia|done|done].
Qed.

End CacheBound.

(** X6 — The bound of the selector cache.  In every state of the package
    variables that a program can reach, the cache, once made, has the
    positive bound it was made with, holds at most that many entries, and
    holds no key twice. *)
Theorem selector_cache_bounded {CompileOptions CompiledExpr : Type}
    (compile : string -> CompileOptions -> error + CompiledExpr)
    (format : CompileOptions -> string) g :
  reachable compile format g →
  ∀ c, cache g = Some c →
    0 < MaxEntries c ∧ Z.of_nat (length (entries c)) ≤ MaxEntries c
    ∧ NoDup (fst <$> entries c).
Proof. intros Hr. by apply (reachable_bounded compile format). Qed.

Lemma selector_cache_bounded_witness :
  reachable toyCompile toyFormat toyGlobals
  ∧ ∀ c, cache toyGlobals = Some c →
      0 < MaxEntries c ∧ Z.of_nat (length (entries c)) ≤ MaxEntries c
      ∧ NoDup (fst <$> entries c).
Proof.
  split; [apply reach_query, reach_init|].
  apply (selector_cache_bounded toyCompile toyFormat).
  apply reach_query, reach_init.
Defined.

(** X7 — A hit is served from the cache.  In a reachable state with the
    cache on, after [getQuery] has returned a compiled expression, the same
    query asked again returns that very expression without compiling:
    whatever compiler the second call is given. *)
Theorem selector_cache_hit {CompileOptions CompiledExpr : Type}
    (compile compile' : string -> CompileOptions -> error + CompiledExpr)
    (format : CompileOptions -> string) g expr opts v :
  reachable compile format g →
  DisableSelectorCache g = false → 0 < SelectorCacheMaxEntries g →
  (getQuery compile format g expr opts).1 = inr v →
  (getQuery compile' format (getQuery compile format g expr opts).2 expr opts).1 = inr v.
Proof.
  intros Hr Hon Hpos Hv.
  destruct (getQuery_stores compile format g expr opts v
              (reachable_bounded compile format g Hr) Hon Hpos Hv)
    as (Hon' & Hpos' & c & Ec & Hk).
  unfold getQuery at 1. rewrite Hon'. simpl. rewrite bool_decide_eq_false_2 by lia.
  rewrite Ec. unfold lruGet. by rewrite Hk.
Qed.

Lemma selector_cache_hit_witness :
  (getQuery (fun _ _ => inl (ErrCompile "not called")) toyFormat
     (getQuery toyCompile toyFormat (mkGlobals false 50 None) "/AAA/BBB" tt).2
     "/AAA/BBB" tt).1
  = inr "/AAA/BBB{}"%string.
Proof.
  apply (selector_cache_hit toyCompile).
  - apply reach_init.
  - reflexivity.
  - simpl. lia.
  - vm_compute. reflexivity.
Defined.

(** ** Growing a child list *)

(** [addChild] on a parent without children, as one formula. *)
Lemma addChild_eq_first (h : heap) p n pn :
  h !! p = Some pn → is_Some (h !! n) → n ≠ p → FirstChild pn = None →
  addChild h p n
  = Some (alter (setLastChild (Some n)) p
            (alter (setFirstChild (Some n)) p (alter (setParent (Some p)) n h))).
Proof.
  intros Ep Hn Hnp Hf. unfold addChild.
  rewrite upd_alter by done. simpl.
  rewrite list_lookup_alter_ne by done. rewrite Ep. simpl. rewrite Hf.
  rewrite upd_alter by (apply alter_is_Some; eauto). simpl.
  rewrite upd_alter by (do 2 apply alter_is_Some; eauto). done.
Qed.

(** [addChild] on a parent with a last child [l], as one formula. *)
Lemma addChild_eq_last (h : heap) p n pn l :
  h !! p = Some pn → is_Some (h !! n) → n ≠ p →
  FirstChild pn ≠ None → LastChild pn = Some l → is_Some (h !! l) →
  addChild h p n
  = Some (alter (setLastChild (Some n)) p
            (alter (setPrevSibling (Some l)) n
               (alter (setNextSibling (Some n)) l (alter (setParent (Some p)) n h)))).
Proof.
  intros Ep Hn Hnp Hf Hl Hl'. unfold addChild.
  rewrite upd_alter by done. simpl.
  rewrite list_lookup_alter_ne by done. rewrite Ep. simpl.
  destruct (FirstChild pn) as [c|]; [|done]. rewrite Hl. simpl.
  rewrite upd_alter by (by apply alter_is_Some). simpl.
  rewrite upd_alter by (by do 2 apply alter_is_Some). simpl.
  rewrite upd_alter by (do 3 apply alter_is_Some; eauto). done.
Qed.

Lemma set_prev_eta v nd : PrevSibling nd = v → setPrevSibling v nd = nd.
Proof. intros <-. by destruct nd. Qed.
Lemma set_next_eta v nd : NextSibling nd = v → setNextSibling v nd = nd.
Proof. intros <-. by destruct nd. Qed.

(** The child list after [addChild]: the new node at the end. *)
Lemma addChild_children (h : heap) p cs n nd :
  children_of h p cs → h !! n = Some nd → n ∉ cs → n ≠ p →
  (cs = [] → PrevSibling nd = None) → NextSibling nd = None →
  ∃ h', addChild h p n = Some h' ∧ children_of h' p (cs ++ [n])
    ∧ length h' = length h
    ∧ h' !! n = Some (setPrevSibling (last cs) (setParent (Some p) nd))
    ∧ h' !! p = setLastChild (Some n) <$> (setFirstChild (head (cs ++ [n])) <$> h !! p)
    ∧ (∀ l, last cs = Some l → h' !! l = setNextSibling (Some n) <$> h !! l)
    ∧ (∀ a, a ≠ p → a ≠ n → last cs ≠ Some a → h' !! a = h !! a).
Proof.
  intros C En Hn Hnp Hpv Hnx.
  destruct cs as [|l cs' _] using rev_ind.
  - destruct C as [(pn & Ep & Hf & Hl) _ _ _]. simpl in Hf, Hl.
    eexists. split; [by apply (addChild_eq_first h p n pn)|].
    assert (E1 : alter (setLastChild (Some n)) p
                   (alter (setFirstChild (Some n)) p (alter (setParent (Some p)) n h)) !! n
                 = Some (setParent (Some p) nd)).
    { by rewrite !list_lookup_alter_ne, list_lookup_alter_eq, En by done. }
    assert (E2 : alter (setLastChild (Some n)) p
                   (alter (setFirstChild (Some n)) p (alter (setParent (Some p)) n h)) !! p
                 = Some (setLastChild (Some n) (setFirstChild (Some n) pn))).
    { by rewrite list_lookup_alter_eq, list_lookup_alter_eq, list_lookup_alter_ne, Ep by done. }
    split; [|split; [by rewrite !length_alter|]].
    + split.
      * eexists. split; [exact E2|]. done.
      * simpl. eexists. split; [exact E1|]. simpl. by rewrite Hpv.
      * apply NoDup_singleton.
      * by intros ->%list_elem_of_singleton.
    + split; [rewrite E1; simpl; by rewrite set_prev_eta by (by apply Hpv)|].
      split; [by rewrite E2, Ep|]. split; [done|].
      intros a Hap Han _. by rewrite !list_lookup_alter_ne.
  - destruct (children_focus _ _ _ _ _ C)
      as (pn & ln & Ep & El & Hlp & Hpar & Hlpv & Hlnx & Hf & Hl & Hf' & Hl' & Hq & _).
    assert (Hnl : n ≠ l) by (intros ->; apply Hn; set_solver).
    assert (Hfs : FirstChild pn ≠ None).
    { rewrite Hf. by destruct cs'. }
    rewrite last_snoc in Hl.
    eexists. split; [by apply (addChild_eq_last h p n pn l); eauto|].
    assert (E1 : alter (setLastChild (Some n)) p
                   (alter (setPrevSibling (Some l)) n
                      (alter (setNextSibling (Some n)) l
                         (alter (setParent (Some p)) n h))) !! n
                 = Some (setPrevSibling (Some l) (setParent (Some p) nd))).
    { by rewrite list_lookup_alter_ne, list_lookup_alter_eq, list_lookup_alter_ne,
         list_lookup_alter_eq, En by done. }
    assert (E2 : alter (setLastChild (Some n)) p
                   (alter (setPrevSibling (Some l)) n
                      (alter (setNextSibling (Some n)) l
                         (alter (setParent (Some p)) n h))) !! p
                 = Some (setLastChild (Some n) pn)).
    { by rewrite list_lookup_alter_eq, !list_lookup_alter_ne, Ep by done. }
    assert (E3 : alter (setLastChild (Some n)) p
                   (alter (setPrevSibling (Some l)) n
                      (alter (setNextSibling (Some n)) l
                         (alter (setParent (Some p)) n h))) !! l
                 = Some (setNextSibling (Some n) ln)).
    { by rewrite !list_lookup_alter_ne, list_lookup_alter_eq, list_lookup_alter_ne, El
         by done. }
    split; [|split; [by rewrite !length_alter|]].
    + pose proof C as [_ S ND Hpc]. split.
      * eexists. split; [exact E2|]. simpl.
        split; [|by rewrite last_snoc].
        rewrite Hf. by destruct cs'.
      * apply sibs_app. split.
        -- simpl. apply (sibs_set_next h _ _ _ cs' l None); [done| |by rewrite E3, El].
           intros c Hc. rewrite !list_lookup_alter_ne; [done| | | |].
           ++ intros ->. apply Hn. set_solver.
           ++ intros ->. apply NoDup_app in ND as (_ & Hd & _). apply (Hd _ Hc). set_solver.
           ++ intros ->. apply Hn. set_solver.
           ++ intros ->. apply Hpc. set_solver.
        -- unfold lastOr. rewrite last_snoc. simpl. eexists. split; [exact E1|]. done.
      * apply NoDup_app. split; [done|]. split; [|apply NoDup_singleton].
        intros x Hx ->%list_elem_of_singleton. done.
      * intros [?| ->%list_elem_of_singleton]%elem_of_app; done.
    + rewrite last_snoc. split; [done|]. split.
      { rewrite E2, Ep. simpl. f_equal. f_equal. symmetry. apply set_first_eta.
        rewrite Hf. by destruct cs'. }
      split; [by intros l' [= <-]; rewrite E3, El|].
      intros a Hap Han Hal. rewrite !list_lookup_alter_ne; [done|congruence..].
Qed.


(** The walk of [addSibling] along a list of siblings ends on the last. *)
Lemma lastSibling_sibs (h : heap) par : ∀ l2 s pv fuel,
  sibs h par pv (s :: l2) None → (length l2 < fuel)%nat →
  lastSibling fuel h s = last (s :: l2).
Proof.
  induction l2 as [|t l2 IH]; intros s pv fuel S Hf;
    (destruct fuel as [|fuel]; [lia|]); simpl in S;
    destruct S as (nd & E & _ & _ & Hn & S); cbn [lastSibling]; rewrite E; simpl.
  - by rewrite Hn.
  - rewrite Hn. simpl. by rewrite (IH t (Some s) fuel S) by (simpl in Hf; lia).
Qed.

(** Appending to the siblings of a child is appending to the children of
    its parent. *)
Lemma addSibling_as_addChild (h : heap) p cs s n :
  children_of h p cs → s ∈ cs → is_Some (h !! n) → n ∉ cs → n ≠ p →
  addSibling h s n = addChild h p n.
Proof.
  intros C Hs Hn Hnc Hnp.
  apply list_elem_of_split in Hs as (l1 & l2 & ->).
  pose proof (children_length _ _ _ C) as Hlen. rewrite length_app in Hlen. simpl in Hlen.
  destruct (last (s :: l2)) as [l|] eqn:El; [|by rewrite last_cons in El; destruct (last l2)].
  assert (Hsplit : ∃ l0, l1 ++ s :: l2 = l0 ++ [l]).
  { destruct (last_Some (s :: l2) l) as [[l' E] _]; [done|].
    exists (l1 ++ l'). by rewrite <- app_assoc, <- E. }
  destruct Hsplit as [l0 E0].
  pose proof C as [_ S _ _]. apply sibs_app in S as [_ S].
  assert (Hls : lastSibling (length h) h s = Some l).
  { by rewrite (lastSibling_sibs h _ l2 s _ (length h) S) by lia. }
  rewrite E0 in C, Hnc.
  destruct (children_focus _ _ _ _ _ C)
    as (pn & ln & Ep & Eln & Hlp & Hpar & _ & _ & Hf & Hl & _ & _ & _ & _).
  rewrite last_snoc in Hl.
  assert (Hnl : n ≠ l) by (intros ->; apply Hnc; set_solver).
  rewrite (addChild_eq_last h p n pn l); eauto; [|rewrite Hf; by destruct l0].
  unfold addSibling.
  rewrite Hls. simpl. rewrite Eln. simpl.
  rewrite Hpar.
  rewrite upd_alter by done. simpl.
  rewrite upd_alter by (apply alter_is_Some; eauto). simpl.
  rewrite upd_alter by (by do 2 apply alter_is_Some). simpl.
  rewrite list_lookup_alter_ne, list_lookup_alter_eq, list_lookup_alter_ne, Eln by done.
  simpl. rewrite Hpar.
  rewrite upd_alter by (do 3 apply alter_is_Some; eauto). done.
Qed.

Lemma grow_example_children : children_of grow_example 0 [1; 2; 3]%nat.
Proof.
  split; simpl.
  - eexists; repeat split; reflexivity.
  - eexists; repeat split; try reflexivity.
    eexists; repeat split; try reflexivity.
    eexists; repeat split; reflexivity.
  - refine (bool_decide_unpack _ _); vm_compute; exact I.
  - refine (bool_decide_unpack _ _); vm_compute; exact I.
Qed.

(** X8 — [addChild] appends.  When the child list of [p] is [cs] and [n]
    is a node outside it without siblings of its own, [addChild(p, n)]
    goes through and the child list of [p] is [cs] followed by [n], all
    links consistent; [n] has [p] as parent and keeps what it carries and
    its own children; no node other than [p], [n] and the former last
    child is written. *)
Theorem addChild_appends (h : heap) p cs n nd :
  children_of h p cs → h !! n = Some nd → n ∉ cs → n ≠ p →
  PrevSibling nd = None → NextSibling nd = None →
  ∃ h' nd', addChild h p n = Some h' ∧ children_of h' p (cs ++ [n])
    ∧ h' !! n = Some nd' ∧ Parent nd' = Some p ∧ samePayload nd nd'
    ∧ FirstChild nd' = FirstChild nd ∧ LastChild nd' = LastChild nd
    ∧ length h' = length h
    ∧ (∀ a, a ≠ p → a ≠ n → last cs ≠ Some a → h' !! a = h !! a).
Proof.
  intros C En Hn Hnp Hpv Hnx.
  destruct (addChild_children h p cs n nd C En Hn Hnp (λ _, Hpv) Hnx)
    as (h' & E & C' & Hlen & E1 & _ & _ & Hfr).
  exists h', (setPrevSibling (last cs) (setParent (Some p) nd)).
  split; [done|]. split; [done|]. split; [done|]. split; [done|].
  split; [by repeat split|]. done.
Qed.

Lemma addChild_appends_witness :
  ∃ h' nd', addChild grow_example 0 5 = Some h'
    ∧ children_of h' 0 ([1; 2; 3]%nat ++ [5%nat])
    ∧ h' !! 5%nat = Some nd' ∧ Parent nd' = Some 0%nat
    ∧ samePayload (newNode CommentNode "new" "" [] 1) nd'
    ∧ FirstChild nd' = FirstChild (newNode CommentNode "new" "" [] 1)
    ∧ LastChild nd' = LastChild (newNode CommentNode "new" "" [] 1)
    ∧ length h' = length grow_example
    ∧ (∀ a, a ≠ 0%nat → a ≠ 5%nat → last [1; 2; 3]%nat ≠ Some a →
            h' !! a = grow_example !! a).
Proof.
  apply (addChild_appends grow_example 0%nat [1; 2; 3]%nat 5%nat).
  - exact grow_example_children.
  - reflexivity.
  - refine (bool_decide_unpack _ _); vm_compute; exact I.
  - lia.
  - reflexivity.
  - reflexivity.
Defined.

(** X9 — [addSibling] appends to the parent's children.  When the child
    list of [p] is [cs] and [s] is any of these children, [addSibling(s, n)]
    does exactly what [addChild(p, n)] does; so for a node [n] outside the
    list without next sibling it goes through and the child list of [p] is
    [cs] followed by [n]. *)
Theorem addSibling_appends (h : heap) p cs s n nd :
  children_of h p cs → s ∈ cs → h !! n = Some nd → n ∉ cs → n ≠ p →
  NextSibling nd = None →
  addSibling h s n = addChild h p n
  ∧ ∃ h', addSibling h s n = Some h' ∧ children_of h' p (cs ++ [n]).
Proof.
  intros C Hs En Hn Hnp Hnx.
  assert (E : addSibling h s n = addChild h p n)
    by (apply (addSibling_as_addChild h p cs); eauto).
  split; [done|]. rewrite E.
  destruct (addChild_children h p cs n nd C En Hn Hnp) as (h' & E' & C' & _); [|done|].
  - intros ->. by apply elem_of_nil in Hs.
  - by exists h'.
Qed.

Lemma addSibling_appends_witness :
  addSibling grow_example 2 5 = addChild grow_example 0 5
  ∧ ∃ h', addSibling grow_example 2 5 = Some h'
      ∧ children_of h' 0 ([1; 2; 3]%nat ++ [5%nat]).
Proof.
  apply (addSibling_appends grow_example 0%nat [1; 2; 3]%nat 2%nat 5%nat
           (newNode CommentNode "new" "" [] 1)).
  - exact grow_example_children.
  - refine (bool_decide_unpack _ _); vm_compute; exact I.
  - reflexivity.
  - refine (bool_decide_unpack _ _); vm_compute; exact I.
  - lia.
  - reflexivity.
Defined.

(** X10 — Appending and removing is a round trip.  When [n] is a node
    without parent and siblings outside the child list of [p],
    [addChild(p, n)] followed by [remove(n)] gives back the arena as it
    was, cell for cell. *)
Theorem addChild_remove_roundtrip (h : heap) p cs n nd :
  children_of h p cs → h !! n = Some nd → n ∉ cs → n ≠ p →
  Parent nd = None → PrevSibling nd = None → NextSibling nd = None →
  ∃ h', addChild h p n = Some h' ∧ remove h' n = Some h.
Proof.
  intros C En Hn Hnp Hpar Hpv Hnx.
  destruct (addChild_children h p cs n nd C En Hn Hnp (λ _, Hpv) Hnx)
    as (h' & E & C' & Hlen & E1 & E2 & E3 & Hfr).
  exists h'. split; [done|].
  rewrite (remove_eq h' p cs n [] C'). f_equal. simpl.
  pose proof (children_distinct _ _ _ _ _ C') as (_ & Hqn & Hqp & Hmn & Hmp & Hqm).
  apply list_eq. intros a.
  rewrite (spliceOut_lookup h' p n (last cs) None a Hnp Hqn Hqp Hmn Hmp Hqm).
  destruct (decide (a = n)) as [->|Han].
  - rewrite E1, En. simpl. f_equal. destruct nd. simpl in *. by subst.
  - rewrite decide_False by done.
    destruct (decide (last cs = Some a)) as [Hla|Hla].
    + rewrite (E3 a Hla).
      destruct (last_Some cs a) as [[l0 E0] _]; [done|]. subst cs.
      destruct (children_focus _ _ _ _ _ C)
        as (pn & ln & _ & Eln & _ & _ & _ & Hlnx & _).
      rewrite Eln. simpl. f_equal. destruct ln. simpl in *. by subst.
    + destruct (decide (a = p)) as [->|Hap]; [|by apply Hfr].
      rewrite E2. destruct C as [(pn & Ep & Hf & Hl) _ _ _]. rewrite Ep. simpl. f_equal.
      destruct cs as [|c cs]; simpl in *.
      * destruct pn. simpl in *. by subst.
      * rewrite last_cons in Hl |- *. destruct (last cs); destruct pn; simpl in *; by subst.
Qed.

Lemma addChild_remove_roundtrip_witness :
  ∃ h', addChild grow_example 0 5 = Some h' ∧ remove h' 5 = Some grow_example.
Proof.
  apply (addChild_remove_roundtrip grow_example 0%nat [1; 2; 3]%nat 5%nat
           (newNode CommentNode "new" "" [] 1)).
  - exact grow_example_children.
  - reflexivity.
  - refine (bool_decide_unpack _ _); vm_compute; exact I.
  - lia.
  - reflexivity.
  - reflexivity.
  - reflexivity.
Defined.

(** ** Attributes *)

Lemma IndexByte_at c : ∀ sp rest,
  c ∉ list_ascii_of_string sp →
  IndexByte c (sp ++ String c rest) = Some (String.length sp)
  ∧ takeBytes (String.length sp) (sp ++ String c rest) = sp
  ∧ dropBytes (S (String.length sp)) (sp ++ String c rest) = rest.
Proof.
  induction sp as [|d sp IH]; intros rest Hc; simpl.
  - rewrite Ascii.eqb_refl. done.
  - simpl in Hc. apply not_elem_of_cons in Hc as [Hd Hc].
    destruct (Ascii.eqb c d) eqn:E; [by apply Ascii.eqb_eq in E|].
    destruct (IH rest Hc) as (-> & -> & H3). simpl. split; [done|]. split; [done|].
    destruct sp; exact H3.
Qed.

Lemma IndexByte_absent c : ∀ s, c ∉ list_ascii_of_string s → IndexByte c s = None.
Proof.
  induction s as [|d s IH]; simpl; [done|]. intros [Hd Hc]%not_elem_of_cons.
  destruct (Ascii.eqb c d) eqn:E; [by apply Ascii.eqb_eq in E|]. by rewrite IH.
Qed.

(** X11 — [addAttr] splits the key at its first colon.  [addAttr(n, key,
    val)] adds exactly one attribute, at the end, with value [val], and
    changes nothing else of the node.  When the key is a non-empty text
    without colon, a colon and a rest, the name space of the attribute is
    that text and its local name the rest (which may hold more colons);
    when the key has no colon, or begins with one, the name space is empty
    and the local name is the whole key. *)
Theorem addAttr_splits_key n val :
  (∀ sp lo, sp ≠ EmptyString → noColon sp →
     addAttr n (sp ++ ":" ++ lo) val
     = mkNode (Parent n) (FirstChild n) (LastChild n) (PrevSibling n) (NextSibling n)
         (NType n) (Data n) (Prefix n) (NamespaceURI n)
         (Attrs n ++ [mkAttr (mkName sp lo) val ""]) (ProcInst n) (level n))
  ∧ (∀ key, noColon key ∨ (∃ r, key = String ":" r) →
     addAttr n key val
     = mkNode (Parent n) (FirstChild n) (LastChild n) (PrevSibling n) (NextSibling n)
         (NType n) (Data n) (Prefix n) (NamespaceURI n)
         (Attrs n ++ [mkAttr (mkName "" key) val ""]) (ProcInst n) (level n)).
Proof.
  split.
  - intros sp lo Hsp Hc. unfold addAttr.
    destruct (IndexByte_at ":" sp lo Hc) as (E & T & D).
    change (sp ++ ":" ++ lo)%string with (sp ++ String ":" lo)%string.
    rewrite E. destruct sp as [|d sp]; [done|].
    cbn [String.length]. cbn [String.length] in T, D. by rewrite T, D.
  - intros key [Hc|[r ->]]; unfold addAttr.
    + by rewrite IndexByte_absent.
    + simpl. done.
Qed.

Lemma addAttr_splits_key_witness :
  Attrs (addAttr (newNode ElementNode "e" "" [] 1) "xml:lang:x" "en")
  = [mkAttr (mkName "xml" "lang:x") "en" ""]
  ∧ Attrs (addAttr (newNode ElementNode "e" "" [] 1) ":lang" "en")
    = [mkAttr (mkName "" ":lang") "en" ""].
Proof.
  split.
  - refine (f_equal Attrs
              (proj1 (addAttr_splits_key (newNode ElementNode "e" "" [] 1) "en")
                     "xml"%string "lang:x"%string _ _)); [discriminate|].
    unfold noColon. intros H. simpl in H.
    repeat (apply elem_of_cons in H as [H|H]; [discriminate H|]).
    by apply elem_of_nil in H.
  - refine (f_equal Attrs
              (proj2 (addAttr_splits_key (newNode ElementNode "e" "" [] 1) "en")
                     ":lang"%string _)).
    right. by exists "lang"%string.
Defined.

(** ** What [ParseWithOptions] returns *)

Lemma rederivePrefix_frame p node p' :
  rederivePrefix p node = Some p' → ∃ h, p' = setMem h p.
Proof.
  unfold rederivePrefix. intros H.
  assert (Hid : ∃ h, p = setMem h p) by (exists (mem p); by destruct p).
  apply bind_Some in H as (nd & End & H).
  case_decide; [by injection H as <-|].
  destruct (space2prefix p !! NamespaceURI nd) as [v|]; [|by injection H as <-].
  destruct (_ || _); [|by injection H as <-].
  apply bind_Some in H as (h & Hh & [= <-]). eauto.
Qed.

(** No step touches the decoder. *)
Lemma step_decoder tok p c p' c' :
  step tok p c = Continue p' c' → decoder p' = decoder p.
Proof.
  destruct tok; simpl.
  - unfold startElement, alloc. destruct (synthDecl p) as [p1|] eqn:Hs; [|done].
    destruct (synthDecl_frame _ _ Hs) as (Hd & _).
    destruct (_ && _); [done|].
    destruct (attachNode _ _) as [p3|] eqn:Ha; [|done].
    destruct (attachNode_frame _ _ _ Ha) as (_ & _ & Hd3 & _).
    destruct (rederivePrefix _ _) as [p4|] eqn:Hr; [|done].
    destruct (rederivePrefix_frame _ _ _ Hr) as [h4 ->].
    unfold markStream. simpl in *.
    repeat case_match; intros [= <- <-]; simplify_eq; simpl; congruence.
  - unfold endElement. repeat case_match; try done; by intros [= <- <-].
  - unfold addLeaf, alloc. destruct (attachNode _ _) as [p1|] eqn:Ha; [|done].
    intros [= <- <-]. by destruct (attachNode_frame _ _ _ Ha) as (_ & _ & -> & _).
  - unfold addLeaf, alloc. destruct (attachNode _ _) as [p1|] eqn:Ha; [|done].
    intros [= <- <-]. by destruct (attachNode_frame _ _ _ Ha) as (_ & _ & -> & _).
  - unfold procInst, alloc. destruct (_ ≫= _) as [pvn|]; [|done].
    destruct (attachNode _ _) as [p1|] eqn:Ha; [|done].
    intros [= <- <-]. simpl. destruct (attachNode_frame _ _ _ Ha) as (_ & _ & -> & _).
    simpl. by destruct (isDeclOrProcInst _).
  - unfold addLeaf, alloc. destruct (attachNode _ _) as [p1|] eqn:Ha; [|done].
    intros [= <- <-]. by destruct (attachNode_frame _ _ _ Ha) as (_ & _ & -> & _).
Qed.

(** A step fails only under a strict decoder. *)
Lemma step_Fail_strict tok p c e p' :
  step tok p c = Fail e p' → Strict (decoder p) = true.
Proof.
  destruct tok; simpl.
  - unfold startElement, alloc. destruct (synthDecl p) as [p1|] eqn:Hs; [|done].
    destruct (synthDecl_frame _ _ Hs) as (Hd & _).
    destruct (_ && _) eqn:Hc.
    + intros _. apply andb_true_iff in Hc as [_ Hst]. simpl in Hst. by rewrite <- Hd.
    + destruct (attachNode _ _); [|done]. destruct (rederivePrefix _ _); [|done].
      by destruct (markStream _ _ _).
  - unfold endElement. by repeat case_match.
  - unfold addLeaf, alloc. by destruct (attachNode _ _).
  - unfold addLeaf, alloc. by destruct (attachNode _ _).
  - unfold procInst, alloc. destruct (_ ≫= _); [|done]. by destruct (attachNode _ _).
  - unfold addLeaf, alloc. by destruct (attachNode _ _).
Qed.

(** The error that ends the loop is the decoder's, or the namespace error
    of a strict decoder. *)
Lemma parseLoop_Err : ∀ toks p c e p',
  parseLoop toks p c = (Err e, p') →
  e = final (decoder p)
  ∨ (Strict (decoder p) = true ∧ ∃ sp, e = ErrNamespaceMissing sp).
Proof.
  induction toks as [|[tok cache] rest IH]; intros p c e p'; simpl.
  - intros [= <- _]. by left.
  - match goal with |- context [step tok ?q c] => set (p1 := q) end.
    destruct (step tok p1 c) as [p2 c2|n p2|e2 p2|] eqn:Hs; try done.
    + intros H. apply IH in H. rewrite (step_decoder _ _ _ _ _ Hs) in H. exact H.
    + intros [= -> _]. right. split.
      * exact (step_Fail_strict _ _ _ _ _ Hs).
      * exact (step_Fail _ _ _ _ _ Hs).
Qed.

Lemma initial_decoder toks fin options :
  final (decoder (onceDo (applyOptions options (createParser toks fin)))) = fin
  ∧ Strict (decoder (onceDo (applyOptions options (createParser toks fin))))
    = match optDecoder options with Some d => optStrict d | None => true end.
Proof. by destruct options as [[[s]|] ln]. Qed.

(** ** Links answered in both directions *)

(** Attaching a fresh node as a sibling keeps every link answered. *)
Lemma addSibling_fresh_back h nd s h' :
  wfLinks h → backLinks h → fresh nd → (s < length h)%nat →
  addSibling (h ++ [nd]) s (length h) = Some h' →
  backLinks h'.
Proof.
  intros W B Hfr Hs H.
  destruct (addSibling_fresh _ _ _ _ W Hfr Hs H)
    as (t & tn & Ht & Et & Hnx & _ & Hlen & En & Hold).
  destruct Hfr as (Fp & Ff & Fl & Fv & Fx).
  set (g := λ a x,
    (if decide (Parent tn = Some a) then setLastChild (Some (length h)) else id)
      ((if decide (a = t) then setNextSibling (Some (length h)) else id) x)).
  assert (G : ∀ a x, Parent (g a x) = Parent x ∧ PrevSibling (g a x) = PrevSibling x
                     ∧ FirstChild (g a x) = FirstChild x
                     ∧ (a ≠ t → NextSibling (g a x) = NextSibling x)
                     ∧ (a = t → NextSibling (g a x) = Some (length h))
                     ∧ (Parent tn ≠ Some a → LastChild (g a x) = LastChild x)).
  { intros a x. unfold g. destruct (decide (Parent tn = Some a)), (decide (a = t)); done. }
  assert (Hold' : ∀ a x, h !! a = Some x → h' !! a = Some (g a x)) by exact Hold.
  clear Hold. rename Hold' into Hold. clearbody g.
  intros a x' Ea. destruct (heap_cases _ _ _ _ Hlen Ea) as [->|[x Ex]].
  - rewrite En in Ea. injection Ea as <-. simpl. rewrite Ff, Fl, Fx.
    refine (conj _ (conj _ (conj _ (conj _ _)))); try done.
    + intros b [= <-]. exists (g t tn). split; [by apply Hold|]. by apply G.
    + intros q Hq. destruct (B t tn Et) as (_ & _ & _ & B4 & _).
      destruct (B4 q Hq) as (y & Ey & Hy). exists (g q y). split; [by apply Hold|].
      destruct (G q y) as (_ & _ & -> & _). done.
  - rewrite (Hold a x Ex) in Ea. injection Ea as <-.
    destruct (B a x Ex) as (B1 & B2 & B3 & B4 & B5).
    destruct (G a x) as (G1 & G2 & G3 & G4 & G5 & G6).
    rewrite G1, G2, G3.
    refine (conj _ (conj _ (conj _ (conj _ _)))).
    + intros b Hb. destruct (decide (a = t)) as [->|Hat].
      * rewrite G5 in Hb by done. injection Hb as <-.
        eexists. split; [exact En|]. simpl. split; [done|].
        rewrite Ex in Et. by injection Et as ->.
      * rewrite G4 in Hb by done. destruct (B1 b Hb) as (y & Ey & P1 & P2).
        exists (g b y). split; [by apply Hold|].
        destruct (G b y) as (-> & -> & _). done.
    + intros b Hb. destruct (B2 b Hb) as (y & Ey & Hy).
      exists (g b y). split; [by apply Hold|].
      destruct (G b y) as (_ & _ & _ & G4' & _). rewrite G4'; [done|].
      intros ->. rewrite Et in Ey. injection Ey as <-. congruence.
    + intros c Hc. destruct (B3 c Hc) as (y & Ey & P1 & P2).
      exists (g c y). split; [by apply Hold|].
      destruct (G c y) as (-> & -> & _). done.
    + intros q Hq. destruct (B4 q Hq) as (y & Ey & Hy).
      exists (g q y). split; [by apply Hold|].
      destruct (G q y) as (_ & _ & -> & _). done.
    + intros Hf. rewrite G6; [by apply B5|].
      intros Hp. destruct (B t tn Et) as (_ & _ & _ & B4' & _).
      destruct (B4' a Hp) as (y & Ey & Hy). rewrite Ex in Ey. injection Ey as <-. done.
Qed.

(** And so does attaching it as a child. *)
Lemma addChild_fresh_back h nd parent h' :
  wfLinks h → backLinks h → fresh nd → (parent < length h)%nat →
  addChild (h ++ [nd]) parent (length h) = Some h' →
  backLinks h'.
Proof.
  intros W B Hfr Hp H.
  destruct (addChild_fresh _ _ _ _ W Hfr Hp H) as (pn & Epn & Hlen & Hcases).
  destruct Hfr as (Fp & Ff & Fl & Fv & Fx).
  destruct Hcases as [(Hf & En & Hold)|(l & ln & Hf & Hl & Hll & El & Hnl & Hpl & En & Hold)].
  - set (g := λ a (x : Node),
      if decide (a = parent)
      then setLastChild (Some (length h)) (setFirstChild (Some (length h)) x) else x).
    assert (G : ∀ a x, Parent (g a x) = Parent x ∧ PrevSibling (g a x) = PrevSibling x
                       ∧ NextSibling (g a x) = NextSibling x
                       ∧ (a ≠ parent → FirstChild (g a x) = FirstChild x
                                       ∧ LastChild (g a x) = LastChild x)
                       ∧ (a = parent → FirstChild (g a x) = Some (length h))).
    { intros a x. unfold g. destruct (decide (a = parent)); done. }
    assert (Hold' : ∀ a x, h !! a = Some x → h' !! a = Some (g a x)) by exact Hold.
  clear Hold. rename Hold' into Hold. clearbody g.
    intros a x' Ea. destruct (heap_cases _ _ _ _ Hlen Ea) as [->|[x Ex]].
    + rewrite En in Ea. injection Ea as <-. simpl. rewrite Ff, Fl, Fx, Fv.
      refine (conj _ (conj _ (conj _ (conj _ _)))); try done.
      intros q [= <-]. exists (g parent pn). split; [by apply Hold|].
      destruct (G parent pn) as (_ & _ & _ & _ & G5'). by rewrite G5'.
    + rewrite (Hold a x Ex) in Ea. injection Ea as <-.
      destruct (B a x Ex) as (B1 & B2 & B3 & B4 & B5).
      destruct (G a x) as (G1 & G2 & G3 & G4 & G5).
      rewrite G1, G2, G3.
      refine (conj _ (conj _ (conj _ (conj _ _)))).
      * intros b Hb. destruct (B1 b Hb) as (y & Ey & P1 & P2).
        exists (g b y). split; [by apply Hold|]. destruct (G b y) as (-> & -> & _). done.
      * intros b Hb. destruct (B2 b Hb) as (y & Ey & Hy).
        exists (g b y). split; [by apply Hold|]. destruct (G b y) as (_ & _ & -> & _). done.
      * intros c Hc. destruct (decide (a = parent)) as [->|Hne].
        -- rewrite G5 in Hc by done. injection Hc as <-.
           eexists. split; [exact En|]. simpl. by rewrite Fv.
        -- destruct (G4 Hne) as [G4a G4b]. rewrite G4a in Hc.
           destruct (B3 c Hc) as (y & Ey & P1 & P2).
           exists (g c y). split; [by apply Hold|]. destruct (G c y) as (-> & -> & _). done.
      * intros q Hq. destruct (B4 q Hq) as (y & Ey & Hy).
        exists (g q y). split; [by apply Hold|].
        destruct (decide (q = parent)) as [->|Hne].
        -- destruct (G parent y) as (_ & _ & _ & _ & G5'). by rewrite G5'.
        -- destruct (G q y) as (_ & _ & _ & G4' & _). by rewrite (proj1 (G4' Hne)).
      * destruct (decide (a = parent)) as [->|Hne].
        -- rewrite G5 by done. done.
        -- destruct (G4 Hne) as [-> ->]. done.
  - set (g := λ a x,
      (if decide (a = parent) then setLastChild (Some (length h)) else id)
        ((if decide (a = l) then setNextSibling (Some (length h)) else id) x)).
    assert (G : ∀ a x, Parent (g a x) = Parent x ∧ PrevSibling (g a x) = PrevSibling x
                       ∧ FirstChild (g a x) = FirstChild x
                       ∧ (a ≠ l → NextSibling (g a x) = NextSibling x)
                       ∧ (a = l → NextSibling (g a x) = Some (length h))
                       ∧ (a ≠ parent → LastChild (g a x) = LastChild x)).
    { intros a x. unfold g. destruct (decide (a = parent)), (decide (a = l)); done. }
    assert (Hold' : ∀ a x, h !! a = Some x → h' !! a = Some (g a x)) by exact Hold.
  clear Hold. rename Hold' into Hold. clearbody g.
    intros a x' Ea. destruct (heap_cases _ _ _ _ Hlen Ea) as [->|[x Ex]].
    + rewrite En in Ea. injection Ea as <-. simpl. rewrite Ff, Fl, Fx.
      refine (conj _ (conj _ (conj _ (conj _ _)))); try done.
      * intros b [= <-]. exists (g l ln). split; [by apply Hold|]. by apply G.
      * intros q [= <-]. exists (g parent pn). split; [by apply Hold|].
        destruct (G parent pn) as (_ & _ & -> & _). done.
    + rewrite (Hold a x Ex) in Ea. injection Ea as <-.
      destruct (B a x Ex) as (B1 & B2 & B3 & B4 & B5).
      destruct (G a x) as (G1 & G2 & G3 & G4 & G5 & G6).
      rewrite G1, G2, G3.
      refine (conj _ (conj _ (conj _ (conj _ _)))).
      * intros b Hb. destruct (decide (a = l)) as [->|Hal].
        -- rewrite G5 in Hb by done. injection Hb as <-.
           eexists. split; [exact En|]. simpl. split; [done|].
           rewrite Ex in El. injection El as ->. done.
        -- rewrite G4 in Hb by done. destruct (B1 b Hb) as (y & Ey & P1 & P2).
           exists (g b y). split; [by apply Hold|].
           destruct (G b y) as (-> & -> & _). done.
      * intros b Hb. destruct (B2 b Hb) as (y & Ey & Hy).
        exists (g b y). split; [by apply Hold|].
        destruct (G b y) as (_ & _ & _ & G4' & _). rewrite G4'; [done|].
        intros ->. rewrite El in Ey. injection Ey as <-. congruence.
      * intros c Hc. destruct (B3 c Hc) as (y & Ey & P1 & P2).
        exists (g c y). split; [by apply Hold|].
        destruct (G c y) as (-> & -> & _). done.
      * intros q Hq. destruct (B4 q Hq) as (y & Ey & Hy).
        exists (g q y). split; [by apply Hold|].
        destruct (G q y) as (_ & _ & -> & _). done.
      * intros Hf'. rewrite G6; [by apply B5|].
        intros ->. rewrite Epn in Ex. injection Ex as <-. done.
Qed.

(** The attach rule on a freshly allocated node. *)
Lemma attachNode_fresh_back p nd p' :
  wfLinks (mem p) → backLinks (mem p) → fresh nd →
  (∃ pv, prev p = Some pv ∧ (pv < length (mem p))%nat) →
  attachNode (setMem (mem p ++ [nd]) p) (length (mem p)) = Some p' →
  backLinks (mem p').
Proof.
  intros W B Hfr (pv & Epv & Hpv) H. unfold attachNode in H. simpl in H.
  rewrite Epv in H. simpl in H. rewrite lookup_app_l in H by done.
  destruct (mem p !! pv) as [pvn|] eqn:En; [|done]. simpl in H.
  repeat case_decide.
  - apply bind_Some in H as (h' & Hh & [= <-]). simpl.
    by apply (addSibling_fresh_back _ _ _ _ W B Hfr Hpv Hh).
  - apply bind_Some in H as (h' & Hh & [= <-]). simpl.
    by apply (addChild_fresh_back _ _ _ _ W B Hfr Hpv Hh).
  - apply bind_Some in H as (pv' & Hw & H). apply bind_Some in H as (a & -> & H).
    assert (Ha : (a < length (mem p))%nat).
    { refine (walkUp_in_arena _ _ _ _ _ W _ Hw a eq_refl). by intros ? [= <-]. }
    rewrite lookup_app_l in H by done.
    apply bind_Some in H as (an & Ean & H). apply bind_Some in H as (s & Es & H).
    apply bind_Some in H as (h' & Hh & [= <-]). simpl.
    assert (Hs : (s < length (mem p))%nat) by (by apply (W a an Ean)).
    by apply (addSibling_fresh_back _ _ _ _ W B Hfr Hs Hh).
Qed.

(** Rewriting what a node carries, its links apart, keeps every link
    answered. *)
Lemma alter_payload_back (h : heap) a (f : Node → Node) :
  (∀ x, Parent (f x) = Parent x ∧ FirstChild (f x) = FirstChild x
        ∧ LastChild (f x) = LastChild x ∧ PrevSibling (f x) = PrevSibling x
        ∧ NextSibling (f x) = NextSibling x) →
  backLinks h → backLinks (alter f a h).
Proof.
  intros Hf B.
  assert (L : ∀ b x, h !! b = Some x →
            ∃ y, alter f a h !! b = Some y ∧ Parent y = Parent x
              ∧ FirstChild y = FirstChild x ∧ LastChild y = LastChild x
              ∧ PrevSibling y = PrevSibling x ∧ NextSibling y = NextSibling x).
  { intros b x Ex. destruct (decide (b = a)) as [->|Hne].
    - exists (f x). rewrite list_lookup_alter_eq, Ex. split; [done|]. apply Hf.
    - exists x. by rewrite list_lookup_alter_ne. }
  intros b y Eb.
  assert (∃ x, h !! b = Some x) as [x Ex].
  { apply lookup_lt_is_Some. apply lookup_lt_Some in Eb. by rewrite length_alter in Eb. }
  destruct (L b x Ex) as (y' & Ey' & P1 & P2 & P3 & P4 & P5).
  rewrite Eb in Ey'. injection Ey' as <-.
  destruct (B b x Ex) as (B1 & B2 & B3 & B4 & B5).
  rewrite P1, P2, P3, P4, P5.
  refine (conj _ (conj _ (conj _ (conj _ _)))); [| | | |done].
  - intros c Hc. destruct (B1 c Hc) as (z & Ez & Q1 & Q2).
    destruct (L c z Ez) as (z' & Ez' & R1 & _ & _ & R4 & _). exists z'. by rewrite R1, R4.
  - intros c Hc. destruct (B2 c Hc) as (z & Ez & Q1).
    destruct (L c z Ez) as (z' & Ez' & _ & _ & _ & _ & R5). exists z'. by rewrite R5.
  - intros c Hc. destruct (B3 c Hc) as (z & Ez & Q1 & Q2).
    destruct (L c z Ez) as (z' & Ez' & R1 & _ & _ & R4 & _). exists z'. by rewrite R1, R4.
  - intros c Hc. destruct (B4 c Hc) as (z & Ez & Q1).
    destruct (L c z Ez) as (z' & Ez' & _ & R2 & _). exists z'. by rewrite R2.
Qed.

Lemma synthDecl_back p p1 :
  treeInv p → backLinks (mem p) → synthDecl p = Some p1 → backLinks (mem p1).
Proof.
  intros (W & (pv & Epv & Hpv) & Hd & Hx & Hs) B. unfold synthDecl, alloc.
  case_decide as Hl.
  - rewrite Epv. simpl. intros H. apply bind_Some in H as (h' & Hh & [= <-]). simpl.
    by apply (addChild_fresh_back _ _ _ _ W B (fresh_newNode _ _ _ _ _) Hpv Hh).
  - by intros [= <-].
Qed.

Lemma rederivePrefix_back p node p' :
  backLinks (mem p) → rederivePrefix p node = Some p' → backLinks (mem p').
Proof.
  intros B. unfold rederivePrefix. intros H.
  apply bind_Some in H as (nd & End & H).
  case_decide; [by injection H as <-|].
  destruct (space2prefix p !! NamespaceURI nd) as [v|]; [|by injection H as <-].
  destruct (_ || _); [|by injection H as <-].
  apply bind_Some in H as (h & Hh & [= <-]). simpl.
  apply upd_Some_alter in Hh as [_ ->].
  by apply alter_payload_back.
Qed.

Lemma attach_back p nd p' :
  treeInv p → backLinks (mem p) → fresh nd →
  attachNode (setMem (mem p ++ [nd]) p) (length (mem p)) = Some p' →
  backLinks (mem p').
Proof.
  intros (W & Hpv & _) B Hfr H. by apply (attachNode_fresh_back _ _ _ W B Hfr Hpv H).
Qed.

(** Every token that lets the loop of [parse] go on keeps every link
    answered. *)
Lemma step_back tok p c p' c' :
  treeInv p → backLinks (mem p) → step tok p c = Continue p' c' → backLinks (mem p').
Proof.
  intros I B. destruct tok; simpl.
  - unfold startElement, alloc.
    destruct (synthDecl p) as [p1|] eqn:Hs; [|done].
    destruct (synthDecl_treeInv _ _ I Hs) as (I1 & St1 & D1).
    pose proof (synthDecl_back _ _ I B Hs) as B1.
    destruct (_ && _); [done|].
    set (p2 := setSpaces (once p1) (bindAttrs (p_level p1) (space2prefix p1) attr) p1).
    assert (I2 : treeInv p2) by done.
    assert (B2 : backLinks (mem p2)) by done.
    change (mem p1) with (mem p2) in *.
    destruct (attachNode _ _) as [p3|] eqn:Ha; [|done].
    pose proof (attach_back _ _ _ I2 B2 (fresh_newNode _ _ _ _ _) Ha) as B3.
    destruct (rederivePrefix p3 _) as [p4|] eqn:Hr; [|done].
    pose proof (rederivePrefix_back _ _ _ B3 Hr) as B4.
    destruct (rederivePrefix_frame _ _ _ Hr) as [h4 ->].
    apply attach_treeInv in Ha as ((_ & _ & _ & Hx3 & _) & _); [|done|apply fresh_newNode].
    unfold markStream. simpl in *. rewrite Hx3. by intros [= <- <-].
  - intros H. by destruct (endElement_treeInv _ _ _ _ I H) as (_ & -> & _).
  - unfold addLeaf, alloc. destruct (attachNode _ _) as [p1|] eqn:Ha; [|done].
    intros [= <- <-]. by apply (attach_back _ _ _ I B (fresh_newNode _ _ _ _ _) Ha).
  - unfold addLeaf, alloc. destruct (attachNode _ _) as [p1|] eqn:Ha; [|done].
    intros [= <- <-]. by apply (attach_back _ _ _ I B (fresh_newNode _ _ _ _ _) Ha).
  - unfold procInst, alloc.
    destruct (prev p ≫= _) as [pvn|]; [|done].
    set (q := if isDeclOrProcInst (NType pvn) then p else setLevel (p_level p + 1) p).
    assert (Iq : treeInv q) by (by unfold q; destruct (isDeclOrProcInst _)).
    assert (Bq : backLinks (mem q)) by (by unfold q; destruct (isDeclOrProcInst _)).
    destruct (attachNode _ _) as [p1|] eqn:Ha; [|done]. intros [= <- <-]. simpl.
    refine (attach_back q _ p1 Iq Bq _ Ha).
    assert (F : fresh (foldl addPair (newNode DeclarationNode target "" [] (p_level q))
                         (Split " " inst)))
      by apply fresh_foldl_addPair, fresh_newNode.
    by case_decide.
  - unfold addLeaf, alloc. destruct (attachNode _ _) as [p1|] eqn:Ha; [|done].
    intros [= <- <-]. by apply (attach_back _ _ _ I B (fresh_newNode _ _ _ _ _) Ha).
Qed.

(** A run of the loop that ends at the end of the input keeps every link
    answered. *)
Lemma parseLoop_back : ∀ toks p c p',
  treeInv p → backLinks (mem p) → parseLoop toks p c = (Err EOF, p') →
  backLinks (mem p').
Proof.
  induction toks as [|[tok cache] rest IH]; intros p c p' I B; simpl.
  - by intros [= _ <-].
  - match goal with |- context [step tok ?q c] => set (p1 := q) end.
    assert (I1 : treeInv p1) by exact I.
    assert (B1 : backLinks (mem p1)) by exact B.
    destruct (step tok p1 c) as [p2 c2|n p2|e p2|] eqn:Hs; try done.
    + intros H. destruct (step_treeInv _ _ _ _ _ I1 Hs) as (I2 & _).
      exact (IH _ _ _ I2 (step_back _ _ _ _ _ I1 B1 Hs) H).
    + intros [= -> _]. by destruct (step_Fail _ _ _ _ _ Hs).
Qed.

Lemma backLinks_initial : backLinks [newNode DocumentNode "" "" [] 0].
Proof. intros [|a] x; [|done]. intros [= <-]. by repeat split. Qed.

(** X12 — What a returned tree is.  Whenever [ParseWithOptions] returns a
    tree, the decoder has read its input to the end; the node returned is
    the document node in cell 0 of the arena, of type Document, without
    parent or previous sibling, at level 0; some node of the arena is an
    Element; and the links of the arena are consistent.  Every link points
    to a cell: a next sibling to a later one, a last child to one whose
    parent is the node and which has no next sibling.  And every link is
    answered: the next sibling of a node has it as previous sibling and
    has the same parent; the previous sibling of a node has it as next
    sibling; the first child of a node has it as parent and has no previous
    sibling; the parent of a node has children; a node without first child
    has no last child. *)
Theorem parse_returns_document toks fin options d h :
  ParseWithOptions toks fin options = Ok (d, h) →
  fin = EOF ∧ d = 0%nat ∧ wfLinks h ∧ backLinks h ∧ hasElement h = true
  ∧ ∃ dn, h !! 0%nat = Some dn ∧ NType dn = DocumentNode
      ∧ Parent dn = None ∧ PrevSibling dn = None ∧ level dn = 0.
Proof.
  intros H. pose proof H as H0.
  apply ParseWithOptions_Ok in H as (p' & Hparse & -> & ->).
  destruct (initial_parser toks fin options) as (I & _ & Hp & Hd & Hm).
  destruct (initial_decoder toks fin options) as [Hfin _].
  pose proof Hparse as HL. unfold parse in HL.
  destruct (parseLoop_treeInv _ _ _ _ I HL) as (I' & St & D').
  split.
  { destruct (parseLoop_Err _ _ _ _ _ HL) as [E|(_ & sp & E)]; [|done]. by rewrite <- Hfin. }
  split; [congruence|]. pose proof I' as (W' & _ & Hd' & _). split; [done|]. split.
  { refine (parseLoop_back _ _ _ _ I _ HL). rewrite Hm. apply backLinks_initial. }
  split.
  - unfold ParseWithOptions in H0. rewrite (parseAll_Err _ _ _ _ Hparse) in H0.
    destruct (validFrom_spec _ W' (length (mem p')) (doc p') Hd' ltac:(lia))
      as (b & Eb & Hno & _).
    rewrite Eb in H0. destruct b; [|done].
    destruct (hasElement (mem p')) eqn:Eh; [done|].
    apply noElement_hasElement in Eh. by specialize (Hno Eh).
  - rewrite Hm in St. destruct (proj2 St 0%nat _ eq_refl)
      as (dn & E & T & _ & _ & L & P & V & _).
    exists dn. done.
Qed.

Lemma parse_returns_document_witness :
  match Parse doc_text EOF with
  | Ok (d, h) =>
      EOF = EOF ∧ d = 0%nat ∧ wfLinks h ∧ backLinks h ∧ hasElement h = true
      ∧ ∃ dn, h !! 0%nat = Some dn ∧ NType dn = DocumentNode
          ∧ Parent dn = None ∧ PrevSibling dn = None ∧ level dn = 0
  | _ => False
  end.
Proof.
  pose proof (parse_returns_document doc_text EOF (mkOptions None false)) as H.
  change (Parse doc_text EOF) with (ParseWithOptions doc_text EOF (mkOptions None false)).
  destruct (ParseWithOptions _ _ _) as [[d h]|e|] eqn:E.
  - exact (H d h eq_refl).
  - vm_compute in E. discriminate E.
  - vm_compute in E. discriminate E.
Defined.

(** X13 — The errors of [ParseWithOptions].  An error it returns is one of
    three: the error with which the decoder ended, when that is not
    [io.EOF]; the error "invalid XML document", when the decoder read its
    input to the end; or the error of a missing namespace, and that only
    with a strict decoder. *)
Theorem parse_error_kinds toks fin options e :
  ParseWithOptions toks fin options = Err e →
  (e = fin ∧ fin ≠ EOF)
  ∨ (e = ErrInvalidDocument ∧ fin = EOF)
  ∨ ((∃ sp, e = ErrNamespaceMissing sp)
     ∧ match optDecoder options with Some d => optStrict d | None => true end = true).
Proof.
  unfold ParseWithOptions.
  destruct (initial_parser toks fin options) as (I & _ & Hp & _).
  destruct (initial_decoder toks fin options) as [Hfin Hst].
  destruct (parse (applyOptions options (createParser toks fin))) as [[n|e'|] p'] eqn:Hparse.
  - unfold parse in Hparse. by apply parseLoop_no_yield in Hparse.
  - rewrite (parseAll_Err _ _ _ _ Hparse).
    pose proof Hparse as HL. unfold parse in HL.
    apply parseLoop_Err in HL. rewrite Hfin, Hst in HL.
    destruct (decide (e' = EOF)) as [->|Hne].
    + destruct HL as [<-|(_ & sp & ?)]; [|done].
      unfold parse in Hparse.
      destruct (parseLoop_treeInv _ _ _ _ I Hparse) as ((W' & _ & Hd' & _) & _ & _).
      destruct (validFrom_spec _ W' (length (mem p')) (doc p') Hd' ltac:(lia))
        as (b & -> & _). destruct b; [done|]. intros [= <-]. right. by left.
    + assert (Hres : (match e' with
                      | EOF => match validFrom (length (mem p')) (mem p') (Some (doc p')) with
                               | Some true => Ok (doc p', mem p')
                               | Some false => Err ErrInvalidDocument
                               | None => Panic
                               end
                      | _ => Err e'
                      end : result (nat * heap)) = Err e') by (by destruct e').
      rewrite Hres. intros [= <-].
      destruct HL as [->|(Hs & Hsp)]; [left; split; [done|congruence]|].
      right. right. done.
  - cbn [parseAll]. by rewrite Hparse.
Qed.

Lemma parse_error_kinds_witness :
  (ErrNamespaceMissing "myns" = EOF ∧ EOF ≠ EOF)
  ∨ (ErrNamespaceMissing "myns" = ErrInvalidDocument ∧ EOF = EOF)
  ∨ ((∃ sp, ErrNamespaceMissing "myns" = ErrNamespaceMissing sp)
     ∧ match optDecoder (mkOptions None false) with
       | Some d => optStrict d | None => true end = true).
Proof.
  apply (parse_error_kinds doc_missing_ns EOF (mkOptions None false)).
  vm_compute. reflexivity.
Defined.

Lemma rederivePrefix_node p node p' nd :
  rederivePrefix p node = Some p' → mem p !! node = Some nd →
  p_level p' = p_level p
  ∧ streamElementXPath p' = streamElementXPath p ∧ streamNode p' = streamNode p
  ∧ ∃ nd', mem p' !! node = Some nd'
      ∧ NType nd' = NType nd ∧ Data nd' = Data nd ∧ NamespaceURI nd' = NamespaceURI nd
      ∧ Attrs nd' = Attrs nd ∧ level nd' = level nd.
Proof.
  unfold rederivePrefix. intros H En. rewrite En in H. simpl in H.
  assert (Hid : p_level p = p_level p
    ∧ streamElementXPath p = streamElementXPath p ∧ streamNode p = streamNode p
    ∧ ∃ nd', mem p !! node = Some nd'
      ∧ NType nd' = NType nd ∧ Data nd' = Data nd ∧ NamespaceURI nd' = NamespaceURI nd
      ∧ Attrs nd' = Attrs nd ∧ level nd' = level nd) by (repeat split; eauto 10).
  case_decide; [by injection H as <-|].
  destruct (space2prefix p !! NamespaceURI nd) as [v|]; [|by injection H as <-].
  destruct (_ || _); [|by injection H as <-].
  apply bind_Some in H as (h & Hh & [= <-]). simpl.
  apply upd_Some_alter in Hh as [_ ->].
  split; [done|]. split; [done|]. split; [done|].
  eexists. rewrite list_lookup_alter_eq, En. simpl. done.
Qed.

(** The element that a start tag makes, under the cursor after the step. *)
Lemma startElement_cursor_element p name attr c p' c' :
  startElement p name attr c = Continue p' c' →
  ∃ e en, prev p' = Some e ∧ mem p' !! e = Some en
    ∧ NType en = ElementNode ∧ Data en = Local name ∧ NamespaceURI en = Space name
    ∧ AValue <$> Attrs en = xValue <$> attr
    ∧ (fun a => Local (AName a)) <$> Attrs en = (fun a => Local (xName a)) <$> attr
    ∧ ANamespaceURI <$> Attrs en = (fun a => Space (xName a)) <$> attr
    ∧ level en = (if decide (p_level p = 0) then 1 else p_level p)
    ∧ p_level p' = level en + 1.
Proof.
  unfold startElement, alloc.
  destruct (synthDecl p) as [p1|] eqn:Hs; [|done].
  destruct (synthDecl_frame _ _ Hs) as (_ & _ & _ & _ & _ & _ & _ & _ & _ & Hl1).
  destruct (_ && _); [done|].
  set (m := bindAttrs (p_level p1) (space2prefix p1) attr).
  set (el := newNode ElementNode (Local name) (Space name) (map (resolveAttr m) attr) _).
  destruct (attachNode _ _) as [p3|] eqn:Ha; [|done].
  destruct (attachNode_frame _ _ _ Ha) as ([Hlen Hk] & Hl3 & _ & _ & _ & _ & _ & Hx3 & _ & Hn3 & _).
  simpl in Hlen, Hk, Hl3.
  destruct (Hk (length (mem p1)) el) as (nd3 & E3 & P3).
  { by rewrite lookup_app_r, Nat.sub_diag by done. }
  destruct (rederivePrefix _ _) as [p4|] eqn:Hr; [|done].
  destruct (rederivePrefix_node _ _ _ _ Hr E3) as (Hl4 & Hx4 & Hn4 & nd4 & E4 & T4 & D4 & N4 & A4 & L4).
  destruct P3 as (T3 & D3 & _ & N3 & A3 & _ & L3).
  assert (Hres : ∀ q : parser, mem q = mem p4 → p_level q = p_level p4 →
    ∃ e en, prev (setLevel (p_level q + 1) (setPrev (Some (length (mem p1))) q)) = Some e
      ∧ mem (setLevel (p_level q + 1) (setPrev (Some (length (mem p1))) q)) !! e = Some en
      ∧ NType en = ElementNode ∧ Data en = Local name ∧ NamespaceURI en = Space name
      ∧ AValue <$> Attrs en = xValue <$> attr
      ∧ (fun a => Local (AName a)) <$> Attrs en = (fun a => Local (xName a)) <$> attr
      ∧ ANamespaceURI <$> Attrs en = (fun a => Space (xName a)) <$> attr
      ∧ level en = (if decide (p_level p = 0) then 1 else p_level p)
      ∧ p_level (setLevel (p_level q + 1) (setPrev (Some (length (mem p1))) q))
        = level en + 1).
  { intros q Hm Hq. exists (length (mem p1)), nd4. simpl. rewrite Hm.
    split; [done|]. split; [done|].
    rewrite T4, D4, N4, A4, L4, <- T3, <- D3, <- N3, <- A3, <- L3. unfold el. simpl.
    split; [done|]. split; [done|]. split; [done|].
    split; [|split; [|split; [|split]]].
    - rewrite <- list_fmap_compose. by apply list_fmap_ext.
    - rewrite <- list_fmap_compose. apply list_fmap_ext. intros i a _. simpl.
      unfold resolveAttr. simpl. by destruct (m !! Space (xName a)).
    - rewrite <- list_fmap_compose. by apply list_fmap_ext.
    - done.
    - rewrite Hq, Hl4, Hl3. simpl. lia. }
  unfold markStream. repeat case_match; intros [= <- <-]; simplify_eq; by apply Hres.
Qed.

(** X14 — What a start tag makes.  When the step of a start tag goes on,
    the cursor is on a new Element node whose data is the local name of
    the tag and whose namespace is the name space of the tag; it carries
    one attribute for each attribute of the tag, in the same order, with
    the same value and local name, and with the attribute's name space as
    its namespace URI; its level is the depth at which the tag arrived (1
    when that was 0), and the depth after the step is one more. *)
Theorem startElement_makes_element p name attr c p' c' :
  startElement p name attr c = Continue p' c' →
  ∃ e en, prev p' = Some e ∧ mem p' !! e = Some en
    ∧ NType en = ElementNode ∧ Data en = Local name ∧ NamespaceURI en = Space name
    ∧ AValue <$> Attrs en = xValue <$> attr
    ∧ (fun a => Local (AName a)) <$> Attrs en = (fun a => Local (xName a)) <$> attr
    ∧ ANamespaceURI <$> Attrs en = (fun a => Space (xName a)) <$> attr
    ∧ level en = (if decide (p_level p = 0) then 1 else p_level p)
    ∧ p_level p' = level en + 1.
Proof. apply startElement_cursor_element. Qed.

Lemma startElement_makes_element_witness :
  match startElement (onceDo (createParser doc_missing_ns EOF)) (mkName "" "root")
          [mkXmlAttr (mkName "" "id") "1"] 0 with
  | Continue p' _ =>
      ∃ e en, prev p' = Some e ∧ mem p' !! e = Some en
        ∧ NType en = ElementNode ∧ Data en = "root"%string ∧ NamespaceURI en = ""%string
        ∧ AValue <$> Attrs en = ["1"%string]
        ∧ (fun a => Local (AName a)) <$> Attrs en = ["id"%string]
        ∧ ANamespaceURI <$> Attrs en = [""%string]
        ∧ level en = 1
        ∧ p_level p' = level en + 1
  | _ => False
  end.
Proof.
  pose proof (startElement_makes_element (onceDo (createParser doc_missing_ns EOF))
                (mkName "" "root") [mkXmlAttr (mkName "" "id") "1"] 0) as H.
  destruct (startElement _ _ _ _) as [p' c'| | |] eqn:E.
  - exact (H p' c' eq_refl).
  - vm_compute in E. discriminate E.
  - vm_compute in E. discriminate E.
  - vm_compute in E. discriminate E.
Defined.


(** ** The stream parser yields elements *)

Lemma typesKept_trans h1 h2 h3 : typesKept h1 h2 → typesKept h2 h3 → typesKept h1 h3.
Proof.
  intros F1 F2 a x E. destruct (F1 a x E) as (y & Ey & Ty).
  destruct (F2 a y Ey) as (z & Ez & Tz). exists z. split; [done|congruence].
Qed.

Lemma payloadKept_typesKept h h' : payloadKept h h' → typesKept h h'.
Proof.
  intros [_ F] a x E. destruct (F a x E) as (x' & E' & T & _). exists x'. by split.
Qed.

Lemma typesKept_alloc (h : heap) nd : typesKept h (h ++ [nd]).
Proof. intros a x E. exists x. split; [by apply lookup_app_l_Some|done]. Qed.

Lemma candidate_kept p p' :
  candidateIsElement p → typesKept (mem p) (mem p') → streamNode p' = streamNode p →
  candidateIsElement p'.
Proof.
  intros J F Hs sn Hsn. rewrite Hs in Hsn. destruct (J sn Hsn) as (nd & E & T).
  destruct (F sn nd E) as (nd' & E' & T'). exists nd'. split; [done|congruence].
Qed.

Lemma attach_typesKept p nd n p' :
  attachNode (setMem (mem p ++ [nd]) p) n = Some p' →
  typesKept (mem p) (mem p') ∧ streamNode p' = streamNode p.
Proof.
  intros Ha. destruct (attachNode_frame _ _ _ Ha) as (K & _ & _ & _ & _ & _ & _ & _ & _ & Hs & _).
  split; [|done]. apply (typesKept_trans _ (mem p ++ [nd])); [apply typesKept_alloc|].
  by apply payloadKept_typesKept.
Qed.

Lemma synthDecl_typesKept p p1 :
  synthDecl p = Some p1 → typesKept (mem p) (mem p1) ∧ streamNode p1 = streamNode p.
Proof.
  intros Hs. destruct (synthDecl_frame _ _ Hs) as (_ & _ & _ & _ & _ & _ & _ & Hn & _).
  split; [|done]. unfold synthDecl, alloc in Hs. case_decide.
  - apply bind_Some in Hs as (pv & _ & Hs). apply bind_Some in Hs as (h' & Hh & [= <-]).
    simpl. apply (typesKept_trans _ (mem p ++ [newNode DeclarationNode "xml" ""
                    [mkAttr (mkName "" "version") "1.0" ""] 1])); [apply typesKept_alloc|].
    by apply payloadKept_typesKept, (addChild_payloadKept _ pv (length (mem p))).
  - injection Hs as <-. by intros a x E; exists x.
Qed.

Lemma rederivePrefix_typesKept p node p' :
  rederivePrefix p node = Some p' →
  typesKept (mem p) (mem p') ∧ streamNode p' = streamNode p.
Proof.
  unfold rederivePrefix. intros H.
  assert (Hid : typesKept (mem p) (mem p) ∧ streamNode p = streamNode p)
    by (split; [by intros a x E; exists x|done]).
  apply bind_Some in H as (nd & End & H).
  case_decide; [by injection H as <-|].
  destruct (space2prefix p !! NamespaceURI nd) as [v|]; [|by injection H as <-].
  destruct (_ || _); [|by injection H as <-].
  apply bind_Some in H as (h & Hh & [= <-]). simpl.
  apply upd_Some_alter in Hh as [_ ->]. split; [|done].
  intros a x E. rewrite list_lookup_alter. case_decide; subst; rewrite E; simpl; eauto.
Qed.

(** A step keeps the candidate an element, and what it returns is one. *)
Lemma step_candidate tok p c :
  candidateIsElement p →
  match step tok p c with
  | Continue p' _ => candidateIsElement p'
  | Return n p' =>
      streamNode p' = Some n ∧ candidateIsElement p'
  | _ => True
  end.
Proof.
  intros J. destruct tok; simpl.
  - destruct (startElement p name attr c) as [p' c'| | |] eqn:Hstep; try done.
    + destruct (startElement_cursor_element _ _ _ _ _ _ Hstep)
        as (e & en & Hprev & Ee & Te & _).
      revert Hstep. unfold startElement, alloc.
      destruct (synthDecl p) as [p1|] eqn:Hs; [|done].
      destruct (synthDecl_typesKept _ _ Hs) as [K1 S1].
      destruct (_ && _); [done|].
      destruct (attachNode _ _) as [p3|] eqn:Ha; [|done].
      destruct (attach_typesKept _ _ _ _ Ha) as [K3 S3]. simpl in K3, S3.
      destruct (rederivePrefix _ _) as [p4|] eqn:Hr; [|done].
      destruct (rederivePrefix_typesKept _ _ _ Hr) as [K4 S4].
      assert (J4 : candidateIsElement p4).
      { apply (candidate_kept p); [done| |congruence].
        eauto using typesKept_trans. }
      unfold markStream. repeat case_match; intros [= <- <-]; simplify_eq; try exact J4.
      intros sn [= <-]. simpl in *. injection Hprev as <-. exists en. by split.
    + exfalso. revert Hstep. unfold startElement, alloc.
      destruct (synthDecl p); [|done]. destruct (_ && _); [done|].
      destruct (attachNode _ _); [|done]. destruct (rederivePrefix _ _); [|done].
      by destruct (markStream _ _ _).
  - unfold endElement. simpl.
    destruct (streamNode p) as [sn|] eqn:Hsn; [|by intros sn; simpl; rewrite Hsn].
    case_decide as Hc; [|exact J].
    assert (Hrej : match remove (mem p) sn with
                   | Some h =>
                       candidateIsElement
                         (setStream None None
                            (setPrev (streamNodePrev p) (setMem h (setLevel (p_level p - 1) p))))
                   | None => True
                   end) by (by destruct (remove (mem p) sn); [intros sn'|]).
    destruct (streamElementFilter p) as [f|]; [|by split].
    destruct (bool_decide _); [by split|].
    by destruct (remove (mem p) sn).
  - unfold addLeaf, alloc. destruct (attachNode _ _) as [p1|] eqn:Ha; [|done].
    destruct (attach_typesKept _ _ _ _ Ha) as [K S]. by apply (candidate_kept p).
  - unfold addLeaf, alloc. destruct (attachNode _ _) as [p1|] eqn:Ha; [|done].
    destruct (attach_typesKept _ _ _ _ Ha) as [K S]. by apply (candidate_kept p).
  - unfold procInst, alloc. destruct (_ ≫= _) as [pvn|]; [|done].
    destruct (attachNode _ _) as [p1|] eqn:Ha; [|done].
    set (q := if isDeclOrProcInst (NType pvn) then p else setLevel (p_level p + 1) p) in *.
    destruct (attach_typesKept q _ _ _ Ha) as [K S].
    assert (Mq : mem q = mem p) by (by unfold q; destruct (isDeclOrProcInst _)).
    assert (Sq : streamNode q = streamNode p) by (by unfold q; destruct (isDeclOrProcInst _)).
    rewrite Mq in K. apply (candidate_kept p); [done|done|]. simpl. congruence.
  - unfold addLeaf, alloc. destruct (attachNode _ _) as [p1|] eqn:Ha; [|done].
    destruct (attach_typesKept _ _ _ _ Ha) as [K S]. by apply (candidate_kept p).
Qed.

Lemma parseLoop_candidate : ∀ toks p c n p',
  candidateIsElement p → parseLoop toks p c = (Ok n, p') →
  streamNode p' = Some n ∧ candidateIsElement p'.
Proof.
  induction toks as [|[tok cache] rest IH]; intros p c n p' J; simpl; [done|].
  match goal with |- context [step tok ?q c] => set (p1 := q) end.
  assert (J1 : candidateIsElement p1) by exact J.
  pose proof (step_candidate tok p1 c J1) as Hstep.
  destruct (step tok p1 c) as [p2 c2|m p2|e p2|]; try done.
  - by apply IH.
  - by intros [= <- <-].
Qed.

(** X15 — The stream parser yields elements.  Whatever the state of the
    stream parser, a node that [Read] returns is an Element node of the
    arena, and it is the candidate that the next call of [Read] will
    release. *)
Theorem Read_yields_element sp n sp' :
  Read sp = (Ok n, sp') →
  streamNode (sp_p sp') = Some n
  ∧ ∃ nd, mem (sp_p sp') !! n = Some nd ∧ NType nd = ElementNode.
Proof.
  assert (G : ∀ p, streamNode p = None → ∀ p', parse p = (Ok n, p') →
            streamNode p' = Some n ∧ ∃ nd, mem p' !! n = Some nd ∧ NType nd = ElementNode).
  { intros p Hnone p' H. unfold parse in H.
    apply parseLoop_candidate in H as [Hs J].
    - split; [done|]. by apply J.
    - intros sn. unfold onceDo. destruct (once p); simpl; by rewrite Hnone. }
  unfold Read. destruct (streamNode (sp_p sp)) as [sn|] eqn:Hsn.
  - destruct (releaseYielded _ _) as [p1|] eqn:Hr; [|done].
    destruct (parse p1) as [r p'] eqn:Hp. intros [= -> <-]. simpl.
    apply (G p1); [|done]. unfold releaseYielded in Hr.
    apply bind_Some in Hr as (h1 & _ & Hr). apply bind_Some in Hr as (nd & _ & Hr).
    by apply bind_Some in Hr as (h2 & _ & [= <-]).
  - destruct (parse (sp_p sp)) as [r p'] eqn:Hp. intros [= -> <-]. simpl.
    by apply (G (sp_p sp)).
Qed.

Lemma Read_yields_element_witness :
  streamNode (sp_p (Read stream_AAA_BBB).2) = Some 3%nat
  ∧ ∃ nd, mem (sp_p (Read stream_AAA_BBB).2) !! 3%nat = Some nd ∧ NType nd = ElementNode.
Proof.
  apply (Read_yields_element stream_AAA_BBB 3%nat (Read stream_AAA_BBB).2).
  vm_compute. reflexivity.
Defined.


(** ** The simple sort *)

Lemma swap_Permutation (s : list Z) i j a b :
  s !! i = Some a → s !! j = Some b → <[i := b]> (<[j := a]> s) ≡ₚ s.
Proof.
  intros Ei Ej.
  assert (Hi : (i < length s)%nat) by (by eapply lookup_lt_Some).
  assert (Hj : (j < length s)%nat) by (by eapply lookup_lt_Some).
  apply Permutation_inj. split; [by rewrite !length_insert|].
  exists (λ k, if decide (k = i) then j else if decide (k = j) then i else k). split.
  - intros x y. repeat case_decide; intros; subst; congruence.
  - intros k. destruct (decide (k = i)) as [->|Hki].
    + rewrite list_lookup_insert_eq by (by rewrite length_insert). done.
    + rewrite list_lookup_insert_ne by done. destruct (decide (k = j)) as [->|Hkj].
      * by rewrite list_lookup_insert_eq.
      * by rewrite list_lookup_insert_ne.
Qed.

(** The inner loop: the element left in cell [i] is at most every element
    behind it; the cells before [i] are not touched. *)
Lemma sortInner_spec : ∀ fuel (s : list Z) i j,
  (i < j)%nat → (length s - j ≤ fuel)%nat →
  (∀ k x y, (i < k < j)%nat → s !! i = Some x → s !! k = Some y → x ≤ y) →
  sortInner fuel s i j ≡ₚ s ∧ length (sortInner fuel s i j) = length s
  ∧ (∀ k, (k < i)%nat → sortInner fuel s i j !! k = s !! k)
  ∧ (∀ k x y, (i < k)%nat →
       sortInner fuel s i j !! i = Some x → sortInner fuel s i j !! k = Some y → x ≤ y).
Proof.
  induction fuel as [|fuel IH]; intros s i j Hij Hf Hmin; simpl.
  - split; [done|]. split; [done|]. split; [done|].
    intros k x y Hk Ex Ey. apply (Hmin k); [|done|done].
    apply lookup_lt_Some in Ey. lia.
  - case_decide as Hj.
    + destruct (s !! i) as [a|] eqn:Ei; [|apply lookup_ge_None in Ei; lia].
      destruct (s !! j) as [b|] eqn:Ej; [|apply lookup_ge_None in Ej; lia].
      case_decide as Hgt.
      * destruct (IH (<[i := b]> (<[j := a]> s)) i (S j)) as (P & L & K & M).
        -- lia.
        -- rewrite !length_insert. lia.
        -- intros k x y Hk. rewrite list_lookup_insert_eq by (rewrite length_insert; lia).
           intros [= <-]. rewrite list_lookup_insert_ne by lia.
           destruct (decide (k = j)) as [->|Hkj].
           ++ rewrite list_lookup_insert_eq by done. intros [= <-]. lia.
           ++ rewrite list_lookup_insert_ne by done. intros Ey.
              specialize (Hmin k a y ltac:(lia) eq_refl Ey). lia.
        -- split; [rewrite P; by apply (swap_Permutation s i j a b)|].
           split; [by rewrite L, !length_insert|]. split; [|done].
           intros k Hk. rewrite K by done. by rewrite !list_lookup_insert_ne by lia.
      * destruct (IH s i (S j)) as (P & L & K & M); [lia|lia| |done].
        intros k x y Hk Ex Ey. destruct (decide (k = j)) as [->|Hkj].
        -- rewrite Ei in Ex. rewrite Ej in Ey. simplify_eq. lia.
        -- apply (Hmin k); [lia|congruence|done].
    + split; [done|]. split; [done|]. split; [done|].
      intros k x y Hk Ex Ey. apply (Hmin k); [|done|done].
      apply lookup_lt_Some in Ey. lia.
Qed.

Lemma sortOuter_spec : ∀ fuel (s : list Z) i,
  (length s - i ≤ fuel)%nat →
  (∀ a b x y, (a < i)%nat → (a < b)%nat → s !! a = Some x → s !! b = Some y → x ≤ y) →
  sortOuter fuel s i ≡ₚ s
  ∧ (∀ a b x y, (a < b)%nat →
       sortOuter fuel s i !! a = Some x → sortOuter fuel s i !! b = Some y → x ≤ y).
Proof.
  induction fuel as [|fuel IH]; intros s i Hf Hpre; simpl.
  - split; [done|]. intros a b x y Hab Ex Ey. apply (Hpre a b); try done.
    apply lookup_lt_Some in Ey. lia.
  - case_decide as Hi.
    + destruct (sortInner_spec (length s) s i (S i)) as (P & L & K & M); [lia|lia| |].
      { intros k x y Hk. lia. }
      set (s1 := sortInner (length s) s i (S i)) in *.
      destruct (IH s1 (S i)) as (P' & S'); [lia| |].
      * intros a b x y Ha Hab Ex Ey.
        destruct (decide (a = i)) as [->|Hai]; [by apply (M b)|].
        rewrite K in Ex by lia.
        assert (∃ b', (a < b')%nat ∧ s !! b' = Some y) as (b' & Hb' & Eb').
        { destruct (decide (b < i)%nat) as [Hbi|Hbi]; [exists b; by rewrite <- K|].
          assert (Hd : drop i s1 ≡ₚ drop i s).
          { apply (inj (take i s1 ++.)). rewrite take_drop.
            replace (take i s1) with (take i s);
              [by rewrite take_drop|].
            apply list_eq. intros k. destruct (decide (k < i)%nat).
            - by rewrite !lookup_take_lt, K by done.
            - by rewrite !lookup_take_ge by lia. }
          assert (Hy : y ∈ drop i s).
          { rewrite <- Hd. apply list_elem_of_lookup. exists (b - i)%nat.
            rewrite lookup_drop. by replace (i + (b - i))%nat with b by lia. }
          apply list_elem_of_lookup in Hy as [k Ek]. rewrite lookup_drop in Ek.
          exists (i + k)%nat. split; [lia|done]. }
        apply (Hpre a b'); [lia|done|done|done].
      * split; [by rewrite P', P|done].
    + split; [done|]. intros a b x y Hab Ex Ey. apply (Hpre a b); try done.
      apply lookup_lt_Some in Ey. lia.
Qed.

Lemma StronglySorted_of_lookup (l : list Z) :
  (∀ a b x y, (a < b)%nat → l !! a = Some x → l !! b = Some y → x ≤ y) →
  StronglySorted Z.le l.
Proof.
  induction l as [|x l IH]; intros H; constructor.
  - apply IH. intros a b u v Hab Eu Ev. by apply (H (S a) (S b)); [lia|..].
  - apply Forall_forall. intros y Hy. apply list_elem_of_lookup in Hy as [k Ek].
    by apply (H 0%nat (S k)); [lia|..].
Qed.

Lemma simpleSort_sorts (s : list Z) :
  simpleSort s ≡ₚ s ∧ StronglySorted Z.le (simpleSort s).
Proof.
  destruct (sortOuter_spec (length s) s 0) as [P S]; [lia|intros; lia|].
  split; [done|]. by apply StronglySorted_of_lookup.
Qed.


Lemma len_nonneg s : 0 ≤ len s.
Proof. unfold len. lia. Qed.

Lemma findAllFrom_total data pattern :
  pattern ≠ EmptyString →
  ∀ fuel pos, 0 ≤ pos ≤ len data → len data - pos < Z.of_nat fuel →
  is_Some (findAllFrom fuel data pattern pos).
Proof.
  intros Hne. assert (Hlen : 1 ≤ len pattern) by (unfold len; destruct pattern; [done|simpl; lia]).
  induction fuel as [|fuel IH]; intros pos Hpos Hf; [lia|]. cbn [findAllFrom].
  destruct (Index_from data pattern pos _ Hpos eq_refl)
    as [[Hneg _]|(Hfound & _ & Hend)].
  - rewrite decide_True by done. eauto.
  - rewrite decide_False by lia.
    destruct (IH (pos + Index (dropBytes (Z.to_nat pos) data) pattern + len pattern))
      as [rest ->]; [lia|lia|]. simpl. eauto.
Qed.

Lemma byteAt_is_Some : ∀ s i, (i < String.length s)%nat → is_Some (byteAt s i).
Proof.
  unfold byteAt. induction s as [|c r IH]; intros [|i] H; simpl in *; try lia; [eauto|].
  apply IH. lia.
Qed.

Lemma scanBack_total data : ∀ i, (i < String.length data)%nat → is_Some (scanBack data i).
Proof.
  induction i as [|i IH]; intros Hi; cbn [scanBack];
    destruct (byteAt_is_Some data _ Hi) as [b ->]; simpl;
    destruct (Ascii.eqb b "<"); [eauto| |eauto|]; destruct (Ascii.eqb b ">"); eauto.
  apply IH. lia.
Qed.

Lemma findPrefixedFrom_total data pattern :
  pattern ≠ EmptyString →
  ∀ fuel pos, 0 ≤ pos ≤ len data → len data - pos < Z.of_nat fuel →
  is_Some (findPrefixedFrom fuel data pattern pos).
Proof.
  intros Hne. assert (Hlen : 1 ≤ len pattern) by (unfold len; destruct pattern; [done|simpl; lia]).
  induction fuel as [|fuel IH]; intros pos Hpos Hf; [lia|]. cbn [findPrefixedFrom].
  destruct (Index_from data pattern pos _ Hpos eq_refl)
    as [[Hneg _]|(Hfound & _ & Hend)].
  - rewrite decide_True by done. eauto.
  - rewrite decide_False by lia. cbv zeta.
    set (a := pos + Index (dropBytes (Z.to_nat pos) data) pattern) in *.
    assert (Hhere : is_Some (if decide (a > 0) then
                  b ← byteAt data (Z.to_nat (a - 1));
                  if negb (Ascii.eqb b "<") then scanBack data (Z.to_nat (a - 1))
                  else Some []
                else Some [])).
    { case_decide; [|eauto].
      assert (Hi : (Z.to_nat (a - 1) < String.length data)%nat) by (unfold len in *; lia).
      destruct (byteAt_is_Some data _ Hi) as [b ->]. simpl.
      destruct (negb _); [by apply scanBack_total|eauto]. }
    destruct Hhere as [here ->]. simpl.
    destruct (IH (a + len pattern)) as [rest ->]; [lia|lia|]. simpl. eauto.
Qed.

Lemma collectElementPositions_total name data :
  is_Some (collectElementPositions name data).
Proof.
  unfold collectElementPositions.
  pose proof (len_nonneg data).
  destruct (findAllFrom_total data ("<" ++ name ++ ":") ltac:(done) (S (String.length data)) 0)
    as [p1 ->]; [lia|unfold len; lia|].
  destruct (findAllFrom_total data ("<" ++ name ++ ">") ltac:(done) (S (String.length data)) 0)
    as [p2 ->]; [lia|unfold len; lia|].
  destruct (findAllFrom_total data ("<" ++ name ++ " ") ltac:(done) (S (String.length data)) 0)
    as [p3 ->]; [lia|unfold len; lia|].
  destruct (findPrefixedFrom_total data (":" ++ name) ltac:(done) (S (String.length data)) 0)
    as [p4 ->]; [lia|unfold len; lia|].
  simpl. eauto.
Qed.

Lemma StronglySorted_lt_le (l : list Z) : StronglySorted Z.lt l → StronglySorted Z.le l.
Proof.
  induction 1 as [|x l _ IH Hx]; constructor; [done|].
  eapply Forall_impl; [exact Hx|]. intros y Hy. simpl in Hy. lia.
Qed.

Lemma StronglySorted_lt_NoDup (l : list Z) : StronglySorted Z.lt l → NoDup l.
Proof.
  induction 1 as [|x l _ IH Hx]; constructor; [|done].
  intros Hin. rewrite Forall_forall in Hx. specialize (Hx x Hin). lia.
Qed.

(** The keys of the map, sorted, are the same list whatever the order in
    which the map yielded them. *)
Lemma simpleSort_canonical (order sorted all : list Z) :
  NoDup order → (∀ x, x ∈ order ↔ x ∈ all) →
  StronglySorted Z.lt sorted → (∀ x, x ∈ sorted ↔ x ∈ all) →
  simpleSort order = sorted.
Proof.
  intros Hnd Ho Hs Hsa. destruct (simpleSort_sorts order) as [P S].
  apply (StronglySorted_unique Z.le); [done|by apply StronglySorted_lt_le|].
  rewrite P. apply NoDup_Permutation; [done|by apply StronglySorted_lt_NoDup|].
  intros x. by rewrite Ho, Hsa.
Qed.

(** X16 — The n-th element is found whatever the order of the map.
    [findNthElementLine] collects positions in the data, drops duplicates
    through a map and sorts what the map yields.  The collection always
    ends; and for [n >= 1] the result is the line of the [n]-th smallest
    of the distinct positions collected, or line 1 when there are fewer
    than [n], in whatever order the map yields its keys. *)
Theorem findNthElementLine_nth lineStarts name n data :
  1 ≤ n →
  ∃ all, collectElementPositions name data = Some all
    ∧ ∀ order sorted,
        NoDup order → (∀ x, x ∈ order ↔ x ∈ all) →
        StronglySorted Z.lt sorted → (∀ x, x ∈ sorted ↔ x ∈ all) →
        findNthElementLine lineStarts name n data order
        = Some (match sorted !! Z.to_nat (n - 1) with
                | Some k => getLineForPosition lineStarts k
                | None => 1
                end).
Proof.
  intros Hn. destruct (collectElementPositions_total name data) as [all E].
  exists all. split; [done|]. intros order sorted Hnd Ho Hs Hsa.
  unfold findNthElementLine. rewrite E. simpl.
  rewrite (simpleSort_canonical order sorted all) by done.
  case_decide as Hall.
  - destruct sorted as [|k sorted]; [by rewrite lookup_nil|].
    apply length_zero_iff_nil in Hall. subst all.
    assert (Hin : k ∈ @nil Z) by (apply Hsa; left). by apply elem_of_nil in Hin.
  - case_decide as Hle.
    + rewrite decide_True by lia.
      destruct (lookup_lt_is_Some_2 sorted (Z.to_nat (n - 1))) as [k ->]; [lia|]. done.
    + rewrite lookup_ge_None_2 by lia. done.
Qed.

Lemma findNthElementLine_nth_witness :
  1 ≤ 2
  ∧ ∃ all, collectElementPositions "a" ("<a>" ++ String "010" "<a>")
           = Some all
    ∧ ∀ order sorted,
        NoDup order → (∀ x, x ∈ order ↔ x ∈ all) →
        StronglySorted Z.lt sorted → (∀ x, x ∈ sorted ↔ x ∈ all) →
        findNthElementLine (lineStartsOf ("<a>" ++ String "010" "<a>")) "a" 2
          ("<a>" ++ String "010" "<a>") order
        = Some (match sorted !! Z.to_nat (2 - 1) with
                | Some k => getLineForPosition (lineStartsOf ("<a>" ++ String "010" "<a>")) k
                | None => 1
                end).
Proof. split; [lia|]. apply findNthElementLine_nth. lia. Defined.

(** X17 — The exchange sort sorts.  The two nested loops that order the
    positions return a rearrangement of the slice they are given, in
    ascending order. *)
Theorem simpleSort_sorted_permutation (s : list Z) :
  simpleSort s ≡ₚ s ∧ StronglySorted Z.le (simpleSort s).
Proof. apply simpleSort_sorts. Qed.

(** ** Serialization *)





(** ** The formatter *)

(** X19 — Without indent the depth does not matter.  With an empty indent
    string (the default of [Format]) what the formatter writes for a node
    does not depend on the level it is given: no line break and no
    indentation is written anywhere. *)
Theorem format_without_indent t (h : heap) :
  Ident t = ""%string →
  ∀ fuel c lvl lvl' preserve siblings,
    fmtOutput fuel t h c lvl preserve siblings
    = fmtOutput fuel t h c lvl' preserve siblings.
Proof.
  intros Hi. induction fuel as [|fuel IH]; intros c lvl lvl' preserve siblings.
  - by destruct c.
  - destruct c as [a|]; [|done]. cbn [fmtOutput]. rewrite Hi.
    destruct (h !! a) as [nd|]; [|done]. cbn [mbind option_bind].
    rewrite (IH (NextSibling nd) lvl lvl').
    rewrite (IH (FirstChild nd) (increment nd lvl) (increment nd lvl')).
    done.
Qed.


Lemma format_without_indent_witness :
  fmtOutput 6 (mkFormatter "" true) detach_example (Some 0%nat) 0 false false
  = fmtOutput 6 (mkFormatter "" true) detach_example (Some 0%nat) 7 false false.
Proof. apply format_without_indent. reflexivity. Defined.

